(** * HLS generator: the text-to-clip pipeline of [hls-generator-server.js]

    A shallow embedding of the [HLSBuilder] class: the tokenizer
    ([normalizeAndTokenize]), the greedy phrase matcher ([greedyMatchPhrases]),
    the clip selector ([selectClip]), the static fallback ([getStaticClip],
    [slugify]), the script builder ([generateScript]), the playlist serializer
    ([buildM3U8]) and the driver ([generatePlaylist]).

    Conventions.
    - A JavaScript string is the list of its UTF-16 code units ([list N]);
      regular expressions without the [u] flag, [replace], [===] and property
      keys all work on code units.
    - The objects of the manifest that are used as dictionaries are finite maps
      on their own keys ([gmap]). They are objects that [JSON.parse] built, so
      a key they do not have is looked up in [Object.prototype] ([get]); a key
      that is in neither reads as [undefined] ([None]).
    - The manifest has the documented shape: a clip has a [filename] and a
      [duration], a pool is an array of clips, tokens are strings.
    - Messages written to the console are left out.
    - A JavaScript number that holds a duration is a binary64 float; indices
      and lengths are natural numbers.
    - A call either returns, throws, or does not return ([outcome]). *)

From Stdlib Require Import ZArith NArith List String Ascii Lia Floats DecimalString.
From stdpp Require Import gmap strings list fin_maps.

Open Scope N_scope.
Open Scope nat_scope.

(** ** JavaScript strings *)

Abbreviation jsstring := (list N).

(** An ASCII literal as a JavaScript string. *)
Definition js (s : string) : jsstring :=
  N_of_ascii <$> list_ascii_of_string s.

Definition in_range (lo hi c : N) : bool := ((lo <=? c) && (c <=? hi))%N.

(** [\w] of a regular expression without the [u] flag: [[A-Za-z0-9_]]. *)
Definition is_word_char (c : N) : bool :=
  in_range 48 57 c || in_range 65 90 c || (c =? 95)%N || in_range 97 122 c.

(** [\s]: the white space and line terminator code units of ECMAScript. *)
Definition is_space_char (c : N) : bool :=
  in_range 9 13 c || (c =? 32)%N || (c =? 0xa0)%N || (c =? 0x1680)%N
  || in_range 0x2000 0x200a c || (c =? 0x2028)%N || (c =? 0x2029)%N
  || (c =? 0x202f)%N || (c =? 0x205f)%N || (c =? 0x3000)%N || (c =? 0xfeff)%N.

(** A string is truthy when it is not empty. *)
Definition truthy (s : jsstring) : bool :=
  match s with [] => false | _ :: _ => true end.

(** [/^[^\w\s]+$/.test(token)]: one or more code units, none of them a word
    character or white space. *)
Definition is_punctuation (token : jsstring) : bool :=
  truthy token && forallb (λ c, negb (is_word_char c) && negb (is_space_char c)) token.

(** [text.replaceAll(old, new)] (and [text.replace(/old/g, new)]) for a
    pattern of one code unit. *)
Definition replaceAll (old : N) (new : jsstring) (text : jsstring) : jsstring :=
  flat_map (λ c, if (c =? old)%N then new else [c]) text.

(** [parts.join(sep)]. *)
Fixpoint join (sep : jsstring) (parts : list jsstring) : jsstring :=
  match parts with
  | [] => []
  | [p] => p
  | p :: rest => p ++ sep ++ join sep rest
  end.

(** ** Results of a call *)

Inductive JsError :=
| Error (message : jsstring)
| TypeError.

Inductive outcome (A : Type) :=
| Ok (a : A)
| Throw (e : JsError)
| Diverge.
Arguments Ok {A} a.
Arguments Throw {A} e.
Arguments Diverge {A}.

Global Instance outcome_ret : MRet outcome := λ A a, Ok a.
Global Instance outcome_bind : MBind outcome := λ A B k x,
  match x with
  | Ok a => k a
  | Throw e => Throw e
  | Diverge => Diverge
  end.

Global Instance outcome_fmap : FMap outcome := λ A B f x,
  match x with
  | Ok a => Ok (f a)
  | Throw e => Throw e
  | Diverge => Diverge
  end.

Definition str_eq (s t : jsstring) : bool := bool_decide (s = t).

(** ** Property lookup

    [JSON.parse] creates every object of the manifest with the prototype
    [Object.prototype], and a key of the JSON text, [__proto__] too, as an
    own property. So [table[key]] is the own property [key] of the table
    when it has one, and the member [key] of [Object.prototype] otherwise. *)

(** A member of [Object.prototype], as far as the code can tell them apart:
    a function, which has a [length], or the accessor [__proto__], which
    reads as [Object.prototype] itself, an object without [length]. Neither
    has a [filter], a [filename] or a [duration]. *)
Inductive Member :=
| MemberFunction (arity : nat)
| MemberPrototype.

(** The members of [Object.prototype] (ECMAScript 2023, 20.1.3 and B.2.2),
    the functions with their [length]. *)
Definition object_prototype : list (jsstring * Member) :=
  [ (js "constructor", MemberFunction 1);
    (js "__defineGetter__", MemberFunction 2);
    (js "__defineSetter__", MemberFunction 2);
    (js "hasOwnProperty", MemberFunction 1);
    (js "__lookupGetter__", MemberFunction 1);
    (js "__lookupSetter__", MemberFunction 1);
    (js "isPrototypeOf", MemberFunction 1);
    (js "propertyIsEnumerable", MemberFunction 1);
    (js "toString", MemberFunction 0);
    (js "valueOf", MemberFunction 0);
    (js "__proto__", MemberPrototype);
    (js "toLocaleString", MemberFunction 0) ].

Definition inherited (key : jsstring) : option Member :=
  snd <$> List.find (λ e, str_eq key e.1) object_prototype.
Arguments inherited : simpl never.

(** What [table[key]] reads: a value of the table or a member of
    [Object.prototype]. *)
Inductive Value (A : Type) :=
| Own (a : A)
| Inherited (m : Member).
Arguments Own {A} a.
Arguments Inherited {A} m.

(** [table[key]]; [None] is [undefined]. *)
Definition get {A} (table : gmap jsstring A) (key : jsstring) : option (Value A) :=
  match table !! key with
  | Some a => Some (Own a)
  | None => Inherited <$> inherited key
  end.

(** ** The manifest and the configuration *)

Record Clip := mkClip { filename : jsstring; duration : float }.

Record StaticClips := {
  words : option (gmap jsstring Clip);
  punctuation : option (gmap jsstring Clip)
}.

(** The fields the constructor of [HLSBuilder] reads from the manifest.
    A value of [phraseMap] is kept as its truthiness, which is all the code
    observes of it; [fixedTokens] is [None] when the manifest has none. *)
Record HLSBuilder := {
  phraseMap : gmap jsstring bool;
  phraseClips : gmap jsstring (list Clip);
  staticClips : StaticClips;
  fixedTokens : option (list jsstring)
}.

(** [CONFIG.maxPhraseLength]. *)
Definition maxPhraseLength : nat := 10.

(** What a run reads besides the manifest: [CONFIG.r2BaseUrl] (taken from
    the environment when the process starts) and the clock, as the string
    [new Date().toISOString()] gives when [buildM3U8] runs. *)
Record Env := {
  r2BaseUrl : option jsstring;
  now : jsstring
}.

(** ** normalizeAndTokenize *)

(** [quoteMap], in the order [Object.entries] lists it. *)
Definition quoteMap : list (N * N) :=
  [ (0x2018, 39); (0x2019, 39); (0x201a, 39); (0x201b, 39);
    (0x201c, 34); (0x201d, 34); (0x201e, 34); (0x201f, 34);
    (0x2032, 39); (0x2033, 34); (0x60, 39); (0xb4, 39);
    (0x2013, 45); (0x2014, 45) ]%N.

(** [[\w'-]]: a code unit of a word run. *)
Definition is_run_char (c : N) : bool :=
  is_word_char c || (c =? 39)%N || (c =? 45)%N.

(** [[^\w\s'-]]: a code unit that is a token of its own. *)
Definition is_single_char (c : N) : bool :=
  negb (is_word_char c) && negb (is_space_char c)
  && negb (c =? 39)%N && negb (c =? 45)%N.

Definition flush (run : jsstring) : list jsstring :=
  if truthy run then [run] else [].

(** [text.match(/[\w'-]+|[^\w\s'-]/g) || []]: all matches from left to right.
    [run] is the word run read so far; the first alternative is greedy, so a
    run ends at the first code unit outside [[\w'-]] or at the end. *)
Fixpoint scan (run : jsstring) (text : jsstring) : list jsstring :=
  match text with
  | [] => flush run
  | c :: rest =>
      if is_run_char c then scan (run ++ [c]) rest
      else flush run ++ (if is_single_char c then [[c]] else []) ++ scan [] rest
  end.

Definition tokenize (text : jsstring) : list jsstring := scan [] text.

(** [U+0300]-[U+036F], the combining diacritical marks. *)
Definition is_combining_mark (c : N) : bool := in_range 0x300 0x36f c.

Section Normalizer.
(** The two built-ins of the engine that the normalizer calls:
    [String.prototype.normalize('NFD')] and [String.prototype.toLowerCase]. *)
Variable normalizeNFD : jsstring → jsstring.
Variable toLowerCase : jsstring → jsstring.

Definition normalizeAndTokenize (text : jsstring) : list jsstring :=
  let text := replaceAll 0xfeff [] text in
  let text := replaceAll 0x200b [] text in
  let text := replaceAll 0x200c [] text in
  let text := replaceAll 0x200d [] text in
  let text := foldl (λ t '(oldChar, newChar), replaceAll oldChar [newChar] t) text quoteMap in
  let text := filter (λ c, is_combining_mark c = false) (normalizeNFD text) in
  let text := toLowerCase text in
  tokenize text.
End Normalizer.

(** ** greedyMatchPhrases *)

Record Match := mkMatch { phrase : jsstring; start : nat; end_ : nat }.

(** The inner [while]: the tokens from the head of [toks] on, up to [len] of
    them, stopping at the first punctuation token. *)
Fixpoint collect (toks : list jsstring) (len : nat) : list jsstring :=
  match len, toks with
  | S n, t :: rest => if is_punctuation t then [] else t :: collect rest n
  | _, _ => []
  end.

(** [this.phraseMap[c] && this.phraseClips[c] && this.phraseClips[c].length > 0].
    A member of [Object.prototype] is truthy; the [length] of a function is
    its number of parameters and [Object.prototype] has none ([undefined > 0]
    is false). *)
Definition available (b : HLSBuilder) (c : jsstring) : bool :=
  match get (phraseMap b) c with
  | Some (Own v) => v
  | Some (Inherited _) => true
  | None => false
  end
  && match get (phraseClips b) c with
     | Some (Own clips) => 0 <? length clips
     | Some (Inherited (MemberFunction arity)) => 0 <? arity
     | Some (Inherited MemberPrototype) => false
     | None => false
     end.

(** The candidate phrase of length [len] at the head of [toks]: there is none
    when punctuation or the end comes before [len] tokens. *)
Definition candidate (toks : list jsstring) (len : nat) : option jsstring :=
  let phraseTokens := collect toks len in
  if length phraseTokens =? len then Some (join [32%N] phraseTokens) else None.

(** The [for] loop over the lengths [len], [len - 1], ..., [1]; [toks] are the
    tokens from position [i] on. The result is [(bestMatch, bestLength)]. *)
Fixpoint try_lengths (b : HLSBuilder) (toks : list jsstring) (len : nat)
  : option (jsstring * nat) :=
  match len with
  | 0 => None
  | S n =>
      match candidate toks len with
      | Some c => if available b c then Some (c, len) else try_lengths b toks n
      | None => try_lengths b toks n
      end
  end.

(** One turn of the outer [while] at position [i] (which is below
    [tokens.length], [tok] being [tokens[i]]): the next position and the
    match pushed, if any. *)
Definition match_step (b : HLSBuilder) (tokens : list jsstring) (i : nat)
    (tok : jsstring) : nat * option Match :=
  if is_punctuation tok then (i + 1, None)
  else
    let maxLen := min maxPhraseLength (length tokens - i) in
    match try_lengths b (drop i tokens) maxLen with
    | Some (bestMatch, bestLength) =>
        if truthy bestMatch
        then (i + bestLength, Some (mkMatch bestMatch i (i + bestLength)))
        else (i + 1, None)
    | None => (i + 1, None)
    end.

Fixpoint match_loop (fuel : nat) (b : HLSBuilder) (tokens : list jsstring)
    (i : nat) (matches : list Match) : list Match :=
  match tokens !! i with
  | None => matches
  | Some tok =>
      match fuel with
      | 0 => matches
      | S fuel' =>
          let '(i', m) := match_step b tokens i tok in
          match_loop fuel' b tokens i' (matches ++ option_list m)
      end
  end.

(** Every turn moves [i] forward, so [tokens.length] turns are enough
    ([match_loop_fuel] below). *)
Definition greedyMatchPhrases (b : HLSBuilder) (tokens : list jsstring) : list Match :=
  match_loop (length tokens) b tokens 0 [].

(** ** selectClip *)

Section Pipeline.
(** [parseInt(crypto.createHash('md5').update(seedStr).digest('hex').substr(0, 8), 16)]:
    the first 32 bits of the MD5 digest of the seed. *)
Variable hashIndex : jsstring → N.
(** [Number.prototype.toFixed]: [toFixed x digits]. *)
Variable toFixed : float → nat → jsstring.

(** [availableClips] is [None] for a missing pool ([null] or [undefined]).
    The result is the clip returned and the set [usedClips] after the call. *)
Definition selectClip (availableClips : option (list Clip))
    (usedClips : gset jsstring) (seedStr : jsstring)
  : outcome (option Clip * gset jsstring) :=
  match availableClips with
  | None | Some [] => Ok (None, usedClips)
  | Some clips =>
      let unused := filter (λ clip, filename clip ∉ usedClips) clips in
      let pool := if 0 <? length unused then unused else clips in
      let index := N.to_nat (hashIndex seedStr mod N.of_nat (length pool))%N in
      match pool !! index with
      | Some selected => Ok (Some selected, usedClips ∪ {[ filename selected ]})
      | None => Throw TypeError
      end
  end.

(** [selectClip] when [availableClips] is a member of [Object.prototype]
    and not an array: a function of [length] 0 passes the test
    [availableClips.length === 0] and [null] is returned; any other member
    goes on to [availableClips.filter], which is [undefined], and the call
    throws a [TypeError]. *)
Definition selectClip_member (availableClips : Member) (usedClips : gset jsstring)
  : outcome (option Clip * gset jsstring) :=
  match availableClips with
  | MemberFunction 0 => Ok (None, usedClips)
  | MemberFunction (S _) | MemberPrototype => Throw TypeError
  end.

(** ** slugify and getStaticClip *)

Definition slugify (text : jsstring) : jsstring :=
  (λ c, if in_range 97 122 c || in_range 48 57 c then c else 95%N) <$> text.

(** [o?.[key]] for an optional dictionary [o]. *)
Definition opt_get (o : option (gmap jsstring Clip)) (key : jsstring)
  : option (Value Clip) :=
  o ≫= (λ m, get m key).

(** [x || y] on what a table of clips holds: a clip is an object and a
    member of [Object.prototype] is a function or an object, so either is
    truthy when present. *)
Definition or_else (x y : option (Value Clip)) : option (Value Clip) :=
  match x with Some c => Some c | None => y end.

(** The three comparisons of each of the first two tests compare with the
    same string, as in the source: code unit 34 is the straight double
    quote, 39 the straight single quote. *)
Definition getStaticClip (b : HLSBuilder) (token : jsstring) : option (Value Clip) :=
  if is_punctuation token then
    let punct := token in
    let punct := if str_eq token [34%N] || str_eq token [34%N] || str_eq token [34%N]
                 then [34%N] else punct in
    let punct := if str_eq token [39%N] || str_eq token [39%N] || str_eq token [39%N]
                 then [39%N] else punct in
    let punct := if str_eq token [0x2014%N] || str_eq token [0x2013%N]
                 then [45%N] else punct in
    or_else (opt_get (punctuation (staticClips b)) punct)
            (or_else (opt_get (punctuation (staticClips b)) (js ".")) None)
  else
    let slugifiedToken := slugify token in
    let wordClip := opt_get (words (staticClips b)) slugifiedToken in
    match wordClip with
    | Some c => Some c
    | None => None
    end.

(** ** generateScript *)

Inductive ClipType := phrase_type | static_type.

Record ScriptItem := mkItem {
  item_text : jsstring;
  item_filename : jsstring;
  item_duration : float;
  item_type : ClipType
}.

(** What [generateScript] pushes: an item with the filename and the
    duration of a clip, or, when the static clip is a member of
    [Object.prototype], an item of type ['static'] whose [filename] and
    [duration] are [undefined]. *)
Inductive Pushed :=
| Item (item : ScriptItem)
| NoClipItem (text : jsstring).

(** The object pushed for a token and its static clip. *)
Definition push_static (token : jsstring) (staticClip : Value Clip) : Pushed :=
  match staticClip with
  | Own c => Item (mkItem token (filename c) (duration c) static_type)
  | Inherited _ => NoClipItem token
  end.

(** The item pushed, when it has a filename and a duration. *)
Definition item_of (p : Pushed) : option ScriptItem :=
  match p with
  | Item item => Some item
  | NoClipItem _ => None
  end.

(** What one turn of the loop of [generateScript] does at index [i]:
    it calls [selectClip] for the match that starts there, or calls
    [getStaticClip] for the token, or does neither. *)
Inductive Action :=
| SelectPhrase (m : Match)
| StaticFallback (token : jsstring)
| Skip.

(** A turn of the loop: the index, what was done, and the item pushed. *)
Record Turn := mkTurn {
  turn_index : nat;
  turn_action : Action;
  turn_item : option Pushed
}.

(** The variables of the loop; [turns] is the history of the loop, which
    the code does not keep. *)
Record ScriptState := mkState {
  script : list Pushed;
  usedClips : gset jsstring;
  turns : list Turn
}.

(** The set [covered]. *)
Definition covered_set (matches : list Match) : gset nat :=
  foldl (λ covered m, covered ∪ set_seq (start m) (end_ m - start m)) ∅ matches.

(** [tokens.slice(from, to)]. *)
Definition slice (tokens : list jsstring) (from to : nat) : list jsstring :=
  take (to - from) (drop from tokens).

(** The [for] loop. After [i = match.end - 1] the increment of the loop
    makes [i] the end of the match. The loop does not return when the
    turns run out: the index moves forward at every turn unless a match
    with [end <= start] starts there. [this.phraseClips[match.phrase] || []]
    is the pool of the phrase, a member of [Object.prototype] (truthy), or
    the empty array. *)
Fixpoint script_loop (fuel : nat) (b : HLSBuilder) (tokens : list jsstring)
    (matches : list Match) (covered : gset nat) (seed : jsstring)
    (i : nat) (st : ScriptState) : outcome ScriptState :=
  match tokens !! i with
  | None => Ok st
  | Some token =>
      match fuel with
      | 0 => Diverge
      | S fuel' =>
          match List.find (λ m, start m =? i) matches with
          | Some m =>
              '(clip, used) ←
                match get (phraseClips b) (phrase m) with
                | Some (Own availableClips) =>
                    selectClip (Some availableClips) (usedClips st) (seed ++ phrase m)
                | Some (Inherited availableClips) =>
                    selectClip_member availableClips (usedClips st)
                | None => selectClip (Some []) (usedClips st) (seed ++ phrase m)
                end;
              let item := (λ c, Item (mkItem (join [32%N] (slice tokens (start m) (end_ m)))
                                             (filename c) (duration c) phrase_type)) <$> clip in
              script_loop fuel' b tokens matches covered seed (end_ m)
                (mkState (script st ++ option_list item) used
                         (turns st ++ [mkTurn i (SelectPhrase m) item]))
          | None =>
              if bool_decide (i ∉ covered) then
                let staticClip := getStaticClip b token in
                let item := push_static token <$> staticClip in
                script_loop fuel' b tokens matches covered seed (i + 1)
                  (mkState (script st ++ option_list item) (usedClips st)
                           (turns st ++ [mkTurn i (StaticFallback token) item]))
              else
                script_loop fuel' b tokens matches covered seed (i + 1)
                  (mkState (script st) (usedClips st) (turns st ++ [mkTurn i Skip None]))
          end
      end
  end.

Definition generateScript_run (b : HLSBuilder) (tokens : list jsstring)
    (matches : list Match) (sessionId : jsstring) : outcome ScriptState :=
  script_loop (length tokens) b tokens matches (covered_set matches) sessionId 0
    (mkState [] ∅ []).

Definition generateScript (b : HLSBuilder) (tokens : list jsstring)
    (matches : list Match) (sessionId : jsstring) : outcome (list Pushed) :=
  script <$> generateScript_run b tokens matches sessionId.

(** ** buildM3U8 *)

(** A length in decimal, as a template string prints it. *)
Definition nat_to_js (n : nat) : jsstring :=
  js (DecimalString.NilZero.string_of_uint (Nat.to_uint n)).

(** [CONFIG.r2BaseUrl] when it is truthy. *)
Definition configured_base (env : Env) : option jsstring :=
  match r2BaseUrl env with
  | Some u => if truthy u then Some u else None
  | None => None
  end.

#[warnings="-inexact-float"]
Definition openerDuration : float := 8.08%float.

Definition openerPath (env : Env) : jsstring :=
  match configured_base env with
  | Some u => u ++ js "/hls_clips/static/opener.ts"
  | None => js "/hls_clips/static/opener.ts"
  end.

Definition clipPath (env : Env) (item : ScriptItem) : jsstring :=
  match configured_base env with
  | Some u =>
      match item_type item with
      | phrase_type => u ++ js "/hls_clips/trimmed/" ++ item_filename item
      | static_type => u ++ js "/hls_clips/static/" ++ item_filename item
      end
  | None =>
      match item_type item with
      | phrase_type => js "/hls_clips/trimmed/" ++ item_filename item
      | static_type => js "/hls_clips/static/" ++ item_filename item
      end
  end.

(** The three lines pushed for one item of the script. *)
Definition segment_lines (env : Env) (item : ScriptItem) : list jsstring :=
  [ js "#EXT-X-DISCONTINUITY";
    js "#EXTINF:" ++ toFixed (item_duration item) 3 ++ js ",";
    clipPath env item ].

(** The [for] loop over the script: the lines pushed and [totalDuration]. *)
Fixpoint segments (env : Env) (script : list ScriptItem) (totalDuration : float)
  : list jsstring * float :=
  match script with
  | [] => ([], totalDuration)
  | item :: rest =>
      let '(ls, total) := segments env rest (totalDuration + item_duration item)%float in
      (segment_lines env item ++ ls, total)
  end.

(** The array [lines] when [buildM3U8] joins it. *)
Definition playlist_lines (env : Env) (script : list ScriptItem) (sessionId : jsstring)
  : list jsstring :=
  let lines :=
    [ js "#EXTM3U"; js "#EXT-X-VERSION:3"; js "#EXT-X-TARGETDURATION:10";
      js "#EXT-X-PLAYLIST-TYPE:VOD" ] in
  let lines := lines ++ [ js "# Session: " ++ sessionId ] in
  let lines := lines ++ [ js "# Generated: " ++ now env ] in
  let lines := lines ++ [ js "# Clips: " ++ nat_to_js (length script + 1) ] in
  let totalDuration := 0%float in
  let lines := lines ++ [ js "#EXT-X-DISCONTINUITY" ] in
  let lines := lines ++ [ js "#EXTINF:" ++ toFixed openerDuration 3 ++ js "," ] in
  let lines := lines ++ [ openerPath env ] in
  let totalDuration := (totalDuration + openerDuration)%float in
  let '(ls, totalDuration) := segments env script totalDuration in
  let lines := lines ++ ls in
  let lines := lines ++ [ js "#EXT-X-ENDLIST" ] in
  let lines := lines ++ [ js "# Total duration: " ++ toFixed totalDuration 1 ++ js "s" ] in
  lines.

Definition buildM3U8 (env : Env) (script : list ScriptItem) (sessionId : jsstring)
  : jsstring :=
  join [10%N] (playlist_lines env script sessionId).

(** ** generatePlaylist *)

Record Generated := mkGenerated {
  gen_playlist : jsstring;
  gen_script : list ScriptItem;
  gen_tokens : list jsstring;
  gen_matches : list Match
}.

(** [buildM3U8] goes through the script it is given and reads
    [item.duration.toFixed(3)] of every item (line 336): at an item whose
    [duration] is [undefined] that throws a [TypeError], and no playlist is
    made. When it returns, every item of the script has a filename and a
    duration, and the playlist is [buildM3U8] of these items. *)
Definition script_items (script : list Pushed) : outcome (list ScriptItem) :=
  match mapM item_of script with
  | Some items => Ok items
  | None => Throw TypeError
  end.

Definition generatePlaylist (env : Env) (b : HLSBuilder) (sessionId : jsstring)
  : outcome Generated :=
  match fixedTokens b with
  | None => Throw (Error (js "No fixed text available in manifest"))
  | Some tokens =>
      let matches := greedyMatchPhrases b tokens in
      script ← generateScript b tokens matches sessionId;
      script ← script_items script;
      let playlist := buildM3U8 env script sessionId in
      Ok (mkGenerated playlist script tokens matches)
  end.
End Pipeline.

(** ** Notions used to state the properties *)

(** [lo <= start], [start < end] for every match, and each match begins at
    or after the end of the one before. *)
Fixpoint ordered_from (lo : nat) (ms : list Match) : Prop :=
  match ms with
  | [] => True
  | m :: rest => lo ≤ start m ∧ start m < end_ m ∧ ordered_from (end_ m) rest
  end.

(** Token index [k] lies in the range of [m]. *)
Definition in_range_of (m : Match) (k : nat) : Prop := start m ≤ k < end_ m.

(** A manifest with the phrases [good morning] and [morning], the static
    word [foo] and the full stop, used to run the definitions. *)
Definition demo_clip (name : string) (seconds : float) : Clip :=
  mkClip (js name) seconds.

Definition demo_builder : HLSBuilder := {|
  phraseMap := {[ js "good morning" := true; js "morning" := true ]};
  phraseClips :=
    {[ js "good morning" := [demo_clip "gm1.ts" 1.5; demo_clip "gm2.ts" 1.25];
       js "morning" := [demo_clip "m1.ts" 0.75] ]};
  staticClips :=
    {| words := Some {[ js "foo" := demo_clip "foo.ts" 0.5 ]};
       punctuation := Some {[ js "." := demo_clip "period.ts" 0.25;
                              [34%N] := demo_clip "quote.ts" 0.25 ]} |};
  fixedTokens := Some [js "good"; js "morning"; js "foo"; js "."]
|}.

(** ** The built-ins on the inputs of the examples

    The properties below hold for every [normalizeNFD], [toLowerCase],
    [toFixed] and [hashIndex]; the following definitions give the built-ins
    on a part of their domain, to run the pipeline on concrete inputs. *)

(** The canonical decomposition of the capital letters of Latin-1 that have
    one: the base letter and the combining mark. *)
Definition latin1_capitals : list (N * (N * N)) :=
  [ (0xc0, (65, 0x300)); (0xc1, (65, 0x301)); (0xc2, (65, 0x302));
    (0xc3, (65, 0x303)); (0xc4, (65, 0x308)); (0xc5, (65, 0x30a));
    (0xc7, (67, 0x327));
    (0xc8, (69, 0x300)); (0xc9, (69, 0x301)); (0xca, (69, 0x302));
    (0xcb, (69, 0x308));
    (0xcc, (73, 0x300)); (0xcd, (73, 0x301)); (0xce, (73, 0x302));
    (0xcf, (73, 0x308));
    (0xd1, (78, 0x303));
    (0xd2, (79, 0x300)); (0xd3, (79, 0x301)); (0xd4, (79, 0x302));
    (0xd5, (79, 0x303)); (0xd6, (79, 0x308));
    (0xd9, (85, 0x300)); (0xda, (85, 0x301)); (0xdb, (85, 0x302));
    (0xdc, (85, 0x308)); (0xdd, (89, 0x301)) ]%N.

Definition latin1_decompose (c : N) : jsstring :=
  match List.find (λ e, (e.1 =? c)%N) latin1_capitals with
  | Some (_, (base, mark)) => [base; mark]
  | None =>
      match List.find (λ e, (e.1 + 32 =? c)%N) latin1_capitals with
      | Some (_, (base, mark)) => [(base + 32)%N; mark]
      | None => if (c =? 0xff)%N then [121%N; 0x308%N] else [c]
      end
  end.

(** [normalize('NFD')] on a string of Basic Latin and Latin-1 code units. *)
Definition nfd_latin1 (text : jsstring) : jsstring := flat_map latin1_decompose text.

(** [toLowerCase] on a string of Basic Latin and Latin-1 code units. *)
Definition lower_latin1 (text : jsstring) : jsstring :=
  (λ c, if in_range 65 90 c || (in_range 0xc0 0xde c && negb (c =? 0xd7)%N)
        then (c + 32)%N else c) <$> text.

(** The decimal digits of [n], then the point before the last [digits] of
    them, with zeros in front when there are not enough. *)
Definition fixed_digits (n : N) (digits : nat) : jsstring :=
  let m := js (NilZero.string_of_uint (N.to_uint n)) in
  if digits =? 0 then m
  else
    let m := replicate (digits + 1 - length m) 48%N ++ m in
    take (length m - digits) m ++ js "." ++ drop (length m - digits) m.

(** The integer [n] nearest to [m * 2^e * 10^digits], the larger one of two. *)
Definition scaled (m : positive) (e : Z) (digits : nat) : N :=
  let p := (Z.pos m * 10 ^ Z.of_nat digits)%Z in
  Z.to_N (if (0 <=? e)%Z then p * 2 ^ e else (2 * p + 2 ^ (- e)) / 2 ^ (1 - e))%Z.

(** [toFixed] on the numbers that are not finite or are below [10^21] in
    absolute value (from there on the built-in prints an exponent). *)
Definition toFixed_decimal (x : float) (digits : nat) : jsstring :=
  match Prim2SF x with
  | S754_nan => js "NaN"
  | S754_infinity false => js "Infinity"
  | S754_infinity true => js "-Infinity"
  | S754_zero _ => fixed_digits 0 digits
  | S754_finite s m e =>
      (if s then js "-" else []) ++ fixed_digits (scaled m e digits) digits
  end.

(** A stand-in for the hash of the seed: the sum of its code units. *)
Definition sum_hash (seedStr : jsstring) : N := foldr N.add 0%N seedStr.

Definition demo_env : Env := {| r2BaseUrl := None; now := js "2025-11-16T10:00:00.000Z" |}.

(** The input of the folding example: [cafe] with [U+00E9], an apostrophe,
    [s], a space, and [quote] between two straight double quotes. *)
Definition cafe_input : jsstring :=
  js "caf" ++ [0xe9%N] ++ js "'s " ++ [34%N] ++ js "quote" ++ [34%N].

(** ** Lines of a playlist *)

(** [text.split('\n')]. *)
Fixpoint split_lines_from (line : jsstring) (text : jsstring) : list jsstring :=
  match text with
  | [] => [line]
  | c :: rest =>
      if (c =? 10)%N then line :: split_lines_from [] rest
      else split_lines_from (line ++ [c]) rest
  end.

Definition split_lines (text : jsstring) : list jsstring := split_lines_from [] text.

Definition single_line (s : jsstring) : Prop := 10%N ∉ s.

Fixpoint starts_with (p s : jsstring) : bool :=
  match p, s with
  | [], _ => true
  | a :: p', c :: s' => (a =? c)%N && starts_with p' s'
  | _ :: _, [] => false
  end.

Definition is_extinf (line : jsstring) : bool := starts_with (js "#EXTINF:") line.

(** A line of a playlist that is a URI: not empty, and neither a tag nor a
    comment. *)
Definition is_uri_line (line : jsstring) : bool :=
  truthy line && negb (starts_with (js "#") line).

(** ** Notions used for the script builder *)

Global Instance Match_eq_dec : EqDecision Match.
Proof. solve_decision. Defined.

Global Instance Action_eq_dec : EqDecision Action.
Proof. solve_decision. Defined.

(** No match has [i] strictly inside its range. *)
Definition boundary (matches : list Match) (i : nat) : Prop :=
  ∀ m, m ∈ matches → ¬ (start m < i < end_ m).

(** The static item for a token, if it has a static clip. *)
Definition static_item (b : HLSBuilder) (token : jsstring) : option Pushed :=
  push_static token <$> getStaticClip b token.

(** What a turn of the loop of [generateScript] is when the matches are
    those of the matcher: a selection for a match, at its start, which pushes
    nothing or a phrase item of a clip of the pool; or a static fallback for
    the token at an index that no match covers. *)
Definition turn_ok (b : HLSBuilder) (tokens : list jsstring) (matches : list Match)
    (t : Turn) : Prop :=
  match turn_action t with
  | SelectPhrase m =>
      m ∈ matches ∧ turn_index t = start m ∧
      ∀ pushed, turn_item t = Some pushed →
        ∃ clip, clip ∈ default [] (phraseClips b !! phrase m) ∧
                pushed = Item (mkItem (join [32%N] (slice tokens (start m) (end_ m)))
                                      (filename clip) (duration clip) phrase_type)
  | StaticFallback token =>
      tokens !! turn_index t = Some token ∧
      (turn_index t ∉ covered_set matches) ∧
      turn_item t = static_item b token
  | Skip => False
  end.

(** Strictly increasing numbers, the first at least [lo]. *)
Fixpoint increasing_from (lo : nat) (l : list nat) : Prop :=
  match l with
  | [] => True
  | x :: rest => lo ≤ x ∧ increasing_from (S x) rest
  end.

(** A manifest without [fixedTokens], and the clock an hour later. *)
Definition no_tokens_builder : HLSBuilder := {|
  phraseMap := ∅;
  phraseClips := ∅;
  staticClips := {| words := None; punctuation := None |};
  fixedTokens := None
|}.


(** Every [#EXTINF] line has the discontinuity tag on the line before it and
    a URI on the line after it. *)
Definition extinf_framed (lines : list jsstring) : Prop :=
  ∀ k line, lines !! k = Some line → is_extinf line = true →
    ∃ url, 1 ≤ k ∧ lines !! (k - 1) = Some (js "#EXT-X-DISCONTINUITY")
           ∧ lines !! (k + 1) = Some url ∧ is_uri_line url = true.

(** The first seven lines of a playlist, and the three lines of the opener. *)
Definition header_lines (env : Env) (script : list ScriptItem) (sessionId : jsstring)
  : list jsstring :=
  [ js "#EXTM3U"; js "#EXT-X-VERSION:3"; js "#EXT-X-TARGETDURATION:10";
    js "#EXT-X-PLAYLIST-TYPE:VOD";
    js "# Session: " ++ sessionId;
    js "# Generated: " ++ now env;
    js "# Clips: " ++ nat_to_js (length script + 1) ].

Definition opener_lines (toFixed : float → nat → jsstring) (env : Env) : list jsstring :=
  [ js "#EXT-X-DISCONTINUITY";
    js "#EXTINF:" ++ toFixed openerDuration 3 ++ js ",";
    openerPath env ].

(** The script of [demo_builder] for a session, and a script whose one item
    has a filename with a line feed in it. *)
Definition demo_script : list ScriptItem :=
  [ mkItem (js "good morning") (js "gm2.ts") 1.25 phrase_type;
    mkItem (js "foo") (js "foo.ts") 0.5 static_type;
    mkItem (js ".") (js "period.ts") 0.25 static_type ].

Definition two_line_script : list ScriptItem :=
  [ mkItem (js "x") (js "a" ++ [10%N] ++ js "#EXTINF:9,") 1 static_type ].

Definition r2_env : Env :=
  {| r2BaseUrl := Some (js "https://pub-0000.r2.dev"); now := js "2025-11-16T10:00:00.000Z" |}.

(** The manifest of the end-to-end scenario: the phrase [hello world] with
    one clip, and the static word [foo]. *)
Definition scenario_builder : HLSBuilder := {|
  phraseMap := {[ js "hello world" := true ]};
  phraseClips := {[ js "hello world" := [demo_clip "hw.ts" 2] ]};
  staticClips := {| words := Some {[ js "foo" := demo_clip "foo.ts" 0.5 ]};
                    punctuation := None |};
  fixedTokens := Some [js "hello"; js "world"; js "foo"]
|}.

(** ** Notions used for the tokenizer *)

(** A token of the tokenizer: a non-empty run of [[\w'-]], or one code unit
    of [[^\w\s'-]]. *)
Definition is_token (t : jsstring) : bool :=
  truthy t
  && (forallb is_run_char t || match t with [c] => is_single_char c | _ => false end).

(** The zero-width code units that the normalizer strips. *)
Definition is_zero_width (c : N) : bool :=
  (c =? 0xfeff)%N || (c =? 0x200b)%N || (c =? 0x200c)%N || (c =? 0x200d)%N.

(** What the first two steps of the normalizer make of one code unit, read
    as one simultaneous replacement: nothing for a zero-width code unit, the
    ASCII counterpart for a key of [quoteMap], the code unit itself otherwise. *)
Definition fold_unit (c : N) : jsstring :=
  if is_zero_width c then []
  else match List.find (λ e, (c =? e.1)%N) quoteMap with
       | Some e => [e.2]
       | None => [c]
       end.

Definition fold_typography (text : jsstring) : jsstring := flat_map fold_unit text.

(** ** Notions used for the script as a whole *)

(** The [text] of what was pushed. *)
Definition pushed_text (p : Pushed) : jsstring :=
  match p with
  | Item item => item_text item
  | NoClipItem text => text
  end.

(** The items of a script that have a clip. *)
Definition clip_items (script : list Pushed) : list ScriptItem := omap item_of script.

(** [getStaticClip] returns a member of [Object.prototype] for the token. *)
Definition inherits_clip (b : HLSBuilder) (token : jsstring) : bool :=
  match getStaticClip b token with
  | Some (Inherited _) => true
  | _ => false
  end.

(** The tokens a turn of [generateScript] stands for. *)
Definition turn_tokens (tokens : list jsstring) (t : Turn) : list jsstring :=
  match turn_action t with
  | SelectPhrase m => slice tokens (start m) (end_ m)
  | StaticFallback token => [token]
  | Skip => []
  end.

(** The match a turn selects a clip for, if any. *)
Definition turn_match (t : Turn) : option Match :=
  match turn_action t with
  | SelectPhrase m => Some m
  | _ => None
  end.

(** [item.type === 'phrase']. *)
Definition is_phrase_item (item : ScriptItem) : bool :=
  match item_type item with
  | phrase_type => true
  | static_type => false
  end.

(** The filenames of the phrase items of a script. *)
Definition phrase_filenames (items : list ScriptItem) : gset jsstring :=
  list_to_set (item_filename <$> List.filter is_phrase_item items).

(** A phrase item repeats the filename of an earlier phrase item only when
    every clip of its phrase is the clip of an earlier phrase item. *)
Definition reuse_only_when_exhausted (b : HLSBuilder) (items : list ScriptItem) : Prop :=
  ∀ k item, items !! k = Some item → is_phrase_item item = true →
    item_filename item ∈ phrase_filenames (take k items) →
    ∀ clip, clip ∈ default [] (phraseClips b !! item_text item) →
            filename clip ∈ phrase_filenames (take k items).

(** ** The server: sessions and routes

    The map [sessions] and the handlers of [POST /generate],
    [GET /:sessionId.m3u8] and [GET /session/:sessionId], and the callback of
    the cleanup timer. A handler takes what it reads from outside as
    arguments (the random session id, [Date.now()]) and returns the map after
    it and its response. *)

(** [CONFIG.sessionTTL], in milliseconds. *)
Definition sessionTTL : Z := 3600000.

Record Session := mkSession {
  created : Z;
  session_playlist : jsstring;
  session_script : list ScriptItem;
  session_tokens : list jsstring;
  session_matches : list Match;
  lastAccessed : option Z
}.

Record Stats := mkStats {
  stats_totalTokens : nat;
  stats_matchedPhrases : nat;
  stats_totalClips : nat;
  stats_phraseClips : nat;
  stats_staticClips : nat;
  stats_totalDuration : float
}.

Record SessionInfo := mkSessionInfo {
  info_sessionId : jsstring;
  info_created : jsstring;
  info_totalTokens : nat;
  info_matchedPhrases : nat;
  info_clips : nat;
  info_duration : float;
  info_script : list ScriptItem
}.

(** What a handler sends: a JSON object ([res.json]) or a text ([res.send])
    with the content type set by [res.type], if any. *)
Inductive Body :=
| GenerateBody (sessionId playlistUrl : jsstring) (stats : Stats)
| ErrorBody (error : jsstring)
| SessionBody (info : SessionInfo)
| TextBody (contentType : option jsstring) (text : jsstring).

Record Response := mkResponse { status : nat; body : Body }.

(** [item.type === 'static']. *)
Definition is_static_item (item : ScriptItem) : bool :=
  match item_type item with
  | static_type => true
  | phrase_type => false
  end.

(** [script.reduce((sum, c) => sum + c.duration, 0)]. *)
Definition sum_durations (items : list ScriptItem) : float :=
  foldl (λ sum c, (sum + item_duration c)%float) 0%float items.

Definition make_stats (result_tokens : list jsstring) (result_matches : list Match)
    (result_script : list ScriptItem) : Stats :=
  mkStats (length result_tokens) (length result_matches) (length result_script)
          (length (List.filter is_phrase_item result_script))
          (length (List.filter is_static_item result_script))
          (sum_durations result_script).

(** The callback of the cleanup timer, run when [Date.now()] is [now]: it
    goes through the entries of the map and deletes the expired ones from it. *)
Definition cleanup (now : Z) (sessions : gmap jsstring Session) : gmap jsstring Session :=
  map_fold (λ sessionId session remaining,
              if (now - created session >? sessionTTL)%Z
              then delete sessionId remaining else remaining)
           sessions sessions.

Section Routes.
Variable hashIndex : jsstring → N.
Variable toFixed : float → nat → jsstring.
(** [new Date(ms).toISOString()]. *)
Variable toISOString : Z → jsstring.

(** [POST /generate]. [sessionId] is [crypto.randomBytes(16).toString('hex')]
    and [now] is [Date.now()] when the session is stored. *)
Definition handle_generate (env : Env) (b : HLSBuilder) (sessionId : jsstring) (now : Z)
    (sessions : gmap jsstring Session) : outcome (gmap jsstring Session * Response) :=
  match generatePlaylist hashIndex toFixed env b sessionId with
  | Ok result =>
      let sessions :=
        <[sessionId := mkSession now (gen_playlist result) (gen_script result)
                         (gen_tokens result) (gen_matches result) None]> sessions in
      let stats := make_stats (gen_tokens result) (gen_matches result) (gen_script result) in
      Ok (sessions,
          mkResponse 200 (GenerateBody sessionId (js "/" ++ sessionId ++ js ".m3u8") stats))
  | Throw error =>
      Ok (sessions, mkResponse 500 (ErrorBody (js "Failed to generate playlist")))
  | Diverge => Diverge
  end.

(** [GET /:sessionId.m3u8], when [Date.now()] is [now]. *)
Definition handle_playlist (sessionId : jsstring) (now : Z)
    (sessions : gmap jsstring Session) : gmap jsstring Session * Response :=
  match sessions !! sessionId with
  | None => (sessions, mkResponse 404 (TextBody None (js "Session not found")))
  | Some session =>
      let session :=
        mkSession (created session) (session_playlist session) (session_script session)
                  (session_tokens session) (session_matches session) (Some now) in
      (<[sessionId := session]> sessions,
       mkResponse 200 (TextBody (Some (js "application/vnd.apple.mpegurl"))
                                (session_playlist session)))
  end.

(** [GET /session/:sessionId]. *)
Definition handle_session (sessionId : jsstring) (sessions : gmap jsstring Session)
  : Response :=
  match sessions !! sessionId with
  | None => mkResponse 404 (ErrorBody (js "Session not found"))
  | Some session =>
      mkResponse 200
        (SessionBody
           (mkSessionInfo sessionId (toISOString (created session))
              (length (session_tokens session)) (length (session_matches session))
              (length (session_script session)) (sum_durations (session_script session))
              (session_script session)))
  end.
End Routes.

(** What happens to the map of sessions between two requests: the cleanup
    timer fires when [Date.now()] is [now], or a playlist is fetched. *)
Inductive Event :=
| CleanupRuns (now : Z)
| PlaylistFetched (sessionId : jsstring) (now : Z).

Definition run_event (sessions : gmap jsstring Session) (e : Event)
  : gmap jsstring Session :=
  match e with
  | CleanupRuns now => cleanup now sessions
  | PlaylistFetched sessionId now => (handle_playlist sessionId now sessions).1
  end.

Definition run_events (events : list Event) (sessions : gmap jsstring Session)
  : gmap jsstring Session :=
  foldl run_event sessions events.

(** The session [sessionId] is in the map as it was stored at time
    [stored], [lastAccessed] apart. *)
Definition alive (sessionId : jsstring) (stored : Z) (playlist : jsstring)
    (sessions : gmap jsstring Session) : Prop :=
  ∃ session, sessions !! sessionId = Some session
             ∧ created session = stored ∧ session_playlist session = playlist.

(** The sessions after one generation with [demo_builder] at time 1000. *)
Definition demo_sessions : gmap jsstring Session :=
  <[js "abc" := mkSession 1000
                  (buildM3U8 toFixed_decimal demo_env demo_script (js "abc"))
                  demo_script [js "good"; js "morning"; js "foo"; js "."]
                  [mkMatch (js "good morning") 0 2] None]> ∅.


(** A manifest without phrases, with the static word [foo], for the text
    [constructor foo]; and one with an empty table of words for the text
    [__proto__]. *)
Definition constructor_builder : HLSBuilder := {|
  phraseMap := ∅;
  phraseClips := ∅;
  staticClips := {| words := Some {[ js "foo" := demo_clip "foo.ts" 0.5 ]};
                    punctuation := None |};
  fixedTokens := Some [js "constructor"; js "foo"]
|}.

Definition proto_builder : HLSBuilder := {|
  phraseMap := ∅;
  phraseClips := ∅;
  staticClips := {| words := Some ∅; punctuation := None |};
  fixedTokens := Some [js "__proto__"]
|}.

Example js_good_morning :
  js "good morning" = [103; 111; 111; 100; 32; 109; 111; 114; 110; 105; 110; 103]%N.
Proof. reflexivity. Qed.

(** ** The phrase matcher *)

Section Matcher.
Variable b : HLSBuilder.

Lemma collect_length toks len : length (collect toks len) ≤ len.
Proof.
  revert toks; induction len as [|n IH]; intros [|t rest]; simpl; try lia.
  destruct (is_punctuation t); simpl; [lia|]. specialize (IH rest). lia.
Qed.

Lemma collect_length_toks toks len : length (collect toks len) ≤ length toks.
Proof.
  revert toks; induction len as [|n IH]; intros [|t rest]; simpl; try lia.
  destruct (is_punctuation t); simpl; [lia|]. specialize (IH rest). lia.
Qed.

Lemma candidate_Some_length toks len c :
  candidate toks len = Some c → len ≤ length toks.
Proof.
  unfold candidate. destruct (Nat.eqb_spec (length (collect toks len)) len) as [E|]; [|done].
  intros _. rewrite <- E. apply collect_length_toks.
Qed.


Lemma join_truthy sep p rest : truthy p = true → truthy (join sep (p :: rest)) = true.
Proof. destruct p; [done|]. destruct rest; done. Qed.

Lemma candidate_truthy tok rest len c :
  truthy tok = true → candidate (tok :: rest) (S len) = Some c → truthy c = true.
Proof.
  unfold candidate. cbn [collect]. destruct (is_punctuation tok); [done|].
  destruct (_ =? _); [|done]. intros Ht [= <-]. exact (join_truthy [32%N] tok (collect rest len) Ht).
Qed.

(** The [for] loop returns the longest length whose candidate is available. *)
Lemma try_lengths_Some toks len c L :
  try_lengths b toks len = Some (c, L) →
  1 ≤ L ≤ len ∧ candidate toks L = Some c ∧ available b c = true ∧
  ∀ L' c', L < L' ≤ len → candidate toks L' = Some c' → available b c' = false.
Proof.
  induction len as [|n IH]; [done|]. cbn [try_lengths].
  destruct (candidate toks (S n)) as [c0|] eqn:Ec.
  - destruct (available b c0) eqn:Ea.
    + intros [= <- <-]. repeat split; try lia; done.
    + intros H. destruct (IH H) as (HL & Hc & Hav & Hmax).
      repeat split; try lia; try done.
      intros L' c' HL' Hc'. destruct (decide (L' = S n)) as [->|].
      * congruence.
      * apply (Hmax L' c'); [lia|done].
  - intros H. destruct (IH H) as (HL & Hc & Hav & Hmax).
    repeat split; try lia; try done.
    intros L' c' HL' Hc'. destruct (decide (L' = S n)) as [->|].
    + congruence.
    + apply (Hmax L' c'); [lia|done].
Qed.



(** *** One turn of the loop *)

Lemma match_step_forward tokens i tok : i < (match_step b tokens i tok).1.
Proof.
  unfold match_step. destruct (is_punctuation tok); simpl; [lia|].
  destruct (try_lengths _ _ _) as [[c L]|] eqn:E; simpl; [|lia].
  apply try_lengths_Some in E. destruct (truthy c); simpl; lia.
Qed.


Lemma match_step_Some tokens i tok i' m :
  match_step b tokens i tok = (i', Some m) →
  start m = i ∧ end_ m = i' ∧ truthy (phrase m) = true ∧
  try_lengths b (drop i tokens) (min maxPhraseLength (length tokens - i))
    = Some (phrase m, i' - i).
Proof.
  unfold match_step. destruct (is_punctuation tok); [done|].
  destruct (try_lengths _ _ _) as [[c L]|] eqn:E; [|done].
  destruct (truthy c) eqn:Ht; [|done]. intros [= <- <-]. simpl.
  repeat split; try done. by replace (i + L - i) with L by lia.
Qed.

(** *** The loop *)

Lemma match_loop_acc fuel tokens i acc :
  match_loop fuel b tokens i acc = acc ++ match_loop fuel b tokens i [].
Proof.
  revert i acc. induction fuel as [|f IH]; intros i acc; simpl.
  - destruct (tokens !! i); by rewrite app_nil_r.
  - destruct (tokens !! i) as [tok|]; [|by rewrite app_nil_r].
    destruct (match_step b tokens i tok) as [i' m].
    rewrite IH, (IH i' (option_list m)). by rewrite app_assoc.
Qed.

Lemma match_loop_unfold fuel tokens i tok :
  tokens !! i = Some tok →
  match_loop (S fuel) b tokens i [] =
    option_list (match_step b tokens i tok).2
    ++ match_loop fuel b tokens (match_step b tokens i tok).1 [].
Proof.
  intros H. simpl. rewrite H. destruct (match_step b tokens i tok) as [i' m].
  by rewrite match_loop_acc.
Qed.

(** The fuel of [greedyMatchPhrases] never runs out: any amount of at
    least [tokens.length - i] gives the same list. *)
Lemma match_loop_fuel f1 f2 tokens i acc :
  length tokens - i ≤ f1 → length tokens - i ≤ f2 →
  match_loop f1 b tokens i acc = match_loop f2 b tokens i acc.
Proof.
  revert f2 i acc. induction f1 as [|f1 IH]; intros f2 i acc H1 H2.
  - assert (tokens !! i = None) as E by (apply lookup_ge_None; lia).
    destruct f2; simpl; by rewrite E.
  - destruct (tokens !! i) as [tok|] eqn:E.
    + pose proof (lookup_lt_Some _ _ _ E). destruct f2 as [|f2]; [lia|].
      simpl. rewrite E. pose proof (match_step_forward tokens i tok).
      destruct (match_step b tokens i tok) as [i' m]. simpl in *.
      apply IH; lia.
    + destruct f2; simpl; by rewrite E.
Qed.

Lemma ordered_from_weaken lo lo' ms : lo' ≤ lo → ordered_from lo ms → ordered_from lo' ms.
Proof. destruct ms; simpl; [done|]. intros ? (? & ? & ?). repeat split; try done. lia. Qed.

Lemma match_loop_ordered fuel tokens i :
  ordered_from i (match_loop fuel b tokens i []).
Proof.
  revert i. induction fuel as [|f IH]; intros i.
  - simpl. by destruct (tokens !! i).
  - destruct (tokens !! i) as [tok|] eqn:E; [|by simpl; rewrite E].
    rewrite (match_loop_unfold _ _ _ _ E).
    pose proof (match_step_forward tokens i tok) as Hfw.
    destruct (match_step b tokens i tok) as [i' [m|]] eqn:Es; simpl in *.
    + apply match_step_Some in Es as (Hs & He & _). rewrite Hs, He.
      repeat split; [lia..|]. apply IH.
    + eapply ordered_from_weaken; [|apply IH]. lia.
Qed.

Lemma ordered_from_elem lo ms m :
  ordered_from lo ms → m ∈ ms → lo ≤ start m ∧ start m < end_ m.
Proof.
  revert lo. induction ms as [|m0 rest IH]; intros lo Ho Hin.
  - by apply elem_of_nil in Hin.
  - destruct Ho as (H1 & H2 & H3). apply elem_of_cons in Hin as [->|Hin]; [done|].
    destruct (IH _ H3 Hin). lia.
Qed.

Lemma ordered_from_lookup lo ms i j mi mj :
  ordered_from lo ms → i < j → ms !! i = Some mi → ms !! j = Some mj →
  end_ mi ≤ start mj.
Proof.
  revert lo i j. induction ms as [|m0 rest IH]; intros lo i j Ho Hij Hi Hj; [done|].
  destruct Ho as (H1 & H2 & H3). destruct j as [|j]; [lia|]. simpl in Hj.
  destruct i as [|i]; simpl in Hi.
  - injection Hi as <-. apply list_elem_of_lookup_2 in Hj.
    by destruct (ordered_from_elem _ _ _ H3 Hj).
  - apply (IH _ i j H3); [lia|done..].
Qed.

(** Every match of the result was pushed by a turn of the loop. *)
Lemma match_loop_elem fuel tokens i m :
  m ∈ match_loop fuel b tokens i [] →
  ∃ tok, tokens !! start m = Some tok ∧
         match_step b tokens (start m) tok = (end_ m, Some m).
Proof.
  revert i. induction fuel as [|f IH]; intros i.
  - simpl. destruct (tokens !! i); intros H; by apply elem_of_nil in H.
  - destruct (tokens !! i) as [tok|] eqn:E.
    + rewrite (match_loop_unfold _ _ _ _ E).
      destruct (match_step b tokens i tok) as [i' [m0|]] eqn:Es; simpl.
      * intros [->|H]%elem_of_cons; [|by eapply IH].
        pose proof Es as Es'. apply match_step_Some in Es as (Hs & He & _).
        exists tok. by rewrite Hs, He.
      * apply IH.
    + simpl. rewrite E. intros H; by apply elem_of_nil in H.
Qed.

End Matcher.

(** The names of the members of [Object.prototype] are words: not empty,
    and made of word characters only. *)
Lemma inherited_word (c : jsstring) :
  is_Some (inherited c) → c ≠ [] ∧ Forall (λ u, is_word_char u = true) c.
Proof.
  unfold inherited. intros [mem Hmem].
  destruct (List.find _ object_prototype) as [e|] eqn:Ef; [|done].
  apply find_some in Ef as [Hin Heq]. apply bool_decide_eq_true_1 in Heq. subst c.
  assert (Forall (λ e : jsstring * Member,
                    e.1 ≠ [] ∧ forallb is_word_char e.1 = true) object_prototype) as Hall.
  { repeat constructor; (discriminate || (vm_compute; reflexivity)). }
  rewrite Forall_forall in Hall. destruct (Hall e (proj2 (list_elem_of_In _ _) Hin)) as [Hne Hw].
  split; [done|]. apply Forall_forall. intros u Hu.
  rewrite forallb_forall in Hw. by apply Hw, list_elem_of_In.
Qed.

Lemma join_space (x y : jsstring) (rest : list jsstring) :
  32%N ∈ join [32%N] (x :: y :: rest).
Proof.
  change (join [32%N] (x :: y :: rest)) with (x ++ [32%N] ++ join [32%N] (y :: rest)).
  apply elem_of_app. right. apply elem_of_cons. by left.
Qed.



(** The phrases the test of line 150 accepts: each table has the phrase as
    its own key (truthy, a pool that is not empty), or lacks it while
    [Object.prototype] has a member of that name (for [phraseClips]: a
    function with parameters). *)
Lemma available_spec b c :
  available b c = true ↔
  (phraseMap b !! c = Some true ∨ (phraseMap b !! c = None ∧ is_Some (inherited c)))
  ∧ ((∃ pool, phraseClips b !! c = Some pool ∧ pool ≠ [])
     ∨ (phraseClips b !! c = None ∧ ∃ arity, inherited c = Some (MemberFunction (S arity)))).
Proof.
  unfold available, get. rewrite andb_true_iff.
  assert (∀ P P' Q Q' : Prop, (P ↔ P') → (Q ↔ Q') → (P ∧ Q ↔ P' ∧ Q')) as Hand by tauto.
  apply Hand; clear Hand.
  - destruct (phraseMap b !! c) as [[]|]; cbn.
    + split; [by left|done].
    + split; [done|]. intros [[=]|[[=] _]].
    + destruct (inherited c); cbn.
      * split; [|done]. intros _. right. split; [done|]. by eexists.
      * split; [done|]. intros [[=]|[_ [? [=]]]].
  - destruct (phraseClips b !! c) as [pool|]; cbn.
    + split.
      * intros H. left. exists pool. split; [done|]. by destruct pool.
      * intros [(pool' & [= <-] & Hne)|[[=] _]]. by destruct pool.
    + destruct (inherited c) as [[[|arity]|]|]; cbn.
      * split; [done|]. intros [(? & [=] & _)|[_ [? [=]]]].
      * split; [|done]. intros _. right. split; [done|]. by exists arity.
      * split; [done|]. intros [(? & [=] & _)|[_ [? [=]]]].
      * split; [done|]. intros [(? & [=] & _)|[_ [? [=]]]].
Qed.





(** C2. In the list the matcher returns, every match has [end > start], no
    two matches have a token index in common, and the matches come in
    increasing order of [start]. *)
Theorem greedyMatchPhrases_disjoint_sorted (b : HLSBuilder) (tokens : list jsstring) :
  let matches := greedyMatchPhrases b tokens in
  (∀ m, m ∈ matches → start m < end_ m)
  ∧ (∀ i j mi mj, i ≠ j → matches !! i = Some mi → matches !! j = Some mj →
       ∀ k, ¬ (in_range_of mi k ∧ in_range_of mj k))
  ∧ (∀ i j mi mj, i < j → matches !! i = Some mi → matches !! j = Some mj →
       start mi < start mj).
Proof.
  intros matches.
  pose proof (match_loop_ordered b (length tokens) tokens 0) as Ho.
  fold (greedyMatchPhrases b tokens) in Ho. fold matches in Ho.
  assert (∀ i j mi mj, i < j → matches !! i = Some mi → matches !! j = Some mj →
            start mi < end_ mi ∧ end_ mi ≤ start mj) as Hlt.
  { intros i j mi mj Hij Hi Hj. split.
    - apply list_elem_of_lookup_2 in Hi. by destruct (ordered_from_elem _ _ _ Ho Hi).
    - by eapply ordered_from_lookup. }
  split; [|split].
  - intros m Hin. by destruct (ordered_from_elem _ _ _ Ho Hin).
  - intros i j mi mj Hne Hi Hj k [[? ?] [? ?]].
    destruct (decide (i < j)).
    + destruct (Hlt i j mi mj); [done..|]. lia.
    + destruct (Hlt j i mj mi); [lia|done..|]. lia.
  - intros i j mi mj Hij Hi Hj. destruct (Hlt i j mi mj); [done..|]. lia.
Qed.

(** ** The clip selector *)

Section Selector.
Variable hashIndex : jsstring → N.

Lemma pool_index_lt (seedStr : jsstring) (pool : list Clip) :
  pool ≠ [] → N.to_nat (hashIndex seedStr mod N.of_nat (length pool))%N < length pool.
Proof.
  intros Hne. assert (length pool ≠ 0) by by destruct pool.
  pose proof (N.mod_lt (hashIndex seedStr) (N.of_nat (length pool))). lia.
Qed.

(** A call with a non-empty pool returns the clip at the hashed index of
    the unused clips when there are any, of the whole pool otherwise. *)
Lemma selectClip_nonempty clips used seedStr :
  clips ≠ [] →
  let unused := filter (λ clip, filename clip ∉ used) clips in
  let pool := if 0 <? length unused then unused else clips in
  ∃ clip, pool !! N.to_nat (hashIndex seedStr mod N.of_nat (length pool))%N = Some clip
          ∧ selectClip hashIndex (Some clips) used seedStr
            = Ok (Some clip, used ∪ {[ filename clip ]})
          ∧ clip ∈ clips.
Proof.
  intros Hne unused pool.
  assert (pool ≠ []) as Hpool.
  { subst pool. destruct (Nat.ltb_spec 0 (length unused)); [|done].
    intros E. rewrite E in *. simpl in *. lia. }
  destruct (lookup_lt_is_Some_2 _ _ (pool_index_lt seedStr pool Hpool)) as [clip Hclip].
  exists clip. split; [done|]. split.
  - unfold selectClip. destruct clips as [|c0 rest]; [done|].
    fold unused. fold pool. by rewrite Hclip.
  - apply list_elem_of_lookup_2 in Hclip. subst pool.
    destruct (0 <? length unused); [|done].
    subst unused. by apply list_elem_of_filter in Hclip as [_ ?].
Qed.
End Selector.

(** C5. [selectClip] returns [null] exactly when the pool is missing or
    empty, and it never throws. For a non-empty pool it returns a clip of the
    pool; when the filename of every clip of the pool is already in
    [usedClips], the clip returned is the one at the hashed index of the
    whole pool. *)
Theorem selectClip_null_iff_empty (hashIndex : jsstring → N)
    (availableClips : option (list Clip)) (usedClips : gset jsstring) (seedStr : jsstring) :
  ((∃ used, selectClip hashIndex availableClips usedClips seedStr = Ok (None, used))
     ↔ availableClips = None ∨ availableClips = Some [])
  ∧ (∃ r, selectClip hashIndex availableClips usedClips seedStr = Ok r)
  ∧ (∀ clips, availableClips = Some clips → clips ≠ [] →
       ∃ clip, clip ∈ clips ∧
         selectClip hashIndex availableClips usedClips seedStr
         = Ok (Some clip, usedClips ∪ {[ filename clip ]}))
  ∧ (∀ clips, availableClips = Some clips → clips ≠ [] →
       (∀ clip, clip ∈ clips → filename clip ∈ usedClips) →
       ∃ clip,
         clips !! N.to_nat (hashIndex seedStr mod N.of_nat (length clips))%N = Some clip ∧
         selectClip hashIndex availableClips usedClips seedStr
         = Ok (Some clip, usedClips ∪ {[ filename clip ]})).
Proof.
  assert (∀ clips, availableClips = Some clips → clips ≠ [] →
            ∃ clip, clip ∈ clips ∧
              selectClip hashIndex availableClips usedClips seedStr
              = Ok (Some clip, usedClips ∪ {[ filename clip ]})) as Hsome.
  { intros clips -> Hne.
    destruct (selectClip_nonempty hashIndex clips usedClips seedStr Hne)
      as (clip & _ & Hsel & Hin). by exists clip. }
  split; [|split; [|split]].
  - split.
    + intros [used Hnull]. destruct availableClips as [[|c0 rest]|]; [by right| |by left].
      destruct (Hsome (c0 :: rest)) as (clip & _ & Hsel); [done..|]. congruence.
    + intros [-> | ->]; by exists usedClips.
  - destruct availableClips as [[|c0 rest]|]; [by eexists| |by eexists].
    destruct (Hsome (c0 :: rest)) as (clip & _ & Hsel); [done..|]. by eexists.
  - done.
  - intros clips -> Hne Hused.
    destruct (selectClip_nonempty hashIndex clips usedClips seedStr Hne)
      as (clip & Hclip & Hsel & _).
    assert (filter (λ clip, filename clip ∉ usedClips) clips = []) as Hnil.
    { destruct (filter _ clips) as [|c rest] eqn:E; [done|].
      assert (c ∈ filter (λ clip, filename clip ∉ usedClips) clips) as Hc
        by (rewrite E; apply elem_of_cons; by left).
      apply list_elem_of_filter in Hc as [Hnot Hc]. by destruct Hnot; apply Hused. }
    simpl in Hclip. rewrite Hnil in Hclip. simpl in Hclip. by exists clip.
Qed.

Lemma selectClip_all_used_example :
  selectClip (λ _, 7%N)
    (Some [demo_clip "a.ts" 1; demo_clip "b.ts" 2; demo_clip "c.ts" 3])
    {[ js "a.ts"; js "b.ts"; js "c.ts" ]} (js "seed")
  = Ok (Some (demo_clip "b.ts" 2), {[ js "a.ts"; js "b.ts"; js "c.ts" ]} ∪ {[ js "b.ts" ]}).
Proof. reflexivity. Qed.

(** ** The static fallback *)

Lemma or_else_None (x : option (Value Clip)) : or_else x None = x.
Proof. by destruct x. Qed.

(** What [getStaticClip] computes: of the three tests on a punctuation token
    only the third changes it, the first two set [punct] to the token they
    compare it with. *)
Lemma getStaticClip_unfold (b : HLSBuilder) (token : jsstring) :
  getStaticClip b token =
  if is_punctuation token then
    let punct := if str_eq token [0x2014%N] || str_eq token [0x2013%N]
                 then [45%N] else token in
    or_else (opt_get (punctuation (staticClips b)) punct)
            (opt_get (punctuation (staticClips b)) (js "."))
  else opt_get (words (staticClips b)) (slugify token).
Proof.
  unfold getStaticClip. destruct (is_punctuation token).
  - rewrite or_else_None. rewrite !orb_diag. unfold str_eq.
    repeat case_bool_decide; simplify_eq; done.
  - by destruct (opt_get _ _).
Qed.

Lemma slugify_lookup (text : jsstring) (i : nat) (c : N) :
  text !! i = Some c →
  slugify text !! i
  = Some (if in_range 97 122 c || in_range 48 57 c then c else 95%N).
Proof. intros H. unfold slugify. by rewrite list_lookup_fmap, H. Qed.

(** C7 (the behaviour of the code at the left double quotation mark).
    The token [U+201C] is punctuation; with a punctuation table that holds a
    clip for the straight double quote and one for the full stop,
    [getStaticClip] returns the clip of the full stop: the token is looked up
    as it is, not as the straight quote. The en and em dash are looked up as
    the hyphen, and a word is looked up by its slug. *)
Theorem getStaticClip_curly_quote_not_folded :
  is_punctuation [0x201c%N] = true
  ∧ opt_get (punctuation (staticClips demo_builder)) [34%N]
    = Some (Own (demo_clip "quote.ts" 0.25))
  ∧ getStaticClip demo_builder [0x201c%N] = Some (Own (demo_clip "period.ts" 0.25))
  ∧ (∀ b, getStaticClip b [0x2013%N]
          = or_else (opt_get (punctuation (staticClips b)) (js "-"))
                    (opt_get (punctuation (staticClips b)) (js ".")))
  ∧ (∀ b, getStaticClip b [0x2014%N]
          = or_else (opt_get (punctuation (staticClips b)) (js "-"))
                    (opt_get (punctuation (staticClips b)) (js ".")))
  ∧ (∀ b token, is_punctuation token = false →
          getStaticClip b token = opt_get (words (staticClips b)) (slugify token)).
Proof.
  repeat split; try reflexivity.
  - intros b. by rewrite getStaticClip_unfold.
  - intros b. by rewrite getStaticClip_unfold.
  - intros b token H. by rewrite getStaticClip_unfold, H.
Qed.

(** ** Tokens made of apostrophes and hyphens *)

Lemma scan_run (run text : jsstring) :
  forallb is_run_char text = true → scan run text = flush (run ++ text).
Proof.
  revert run. induction text as [|c rest IH]; intros run H; simpl.
  - by rewrite app_nil_r.
  - simpl in H. apply andb_true_iff in H as [Hc Hrest]. rewrite Hc.
    rewrite IH by done. by rewrite <- app_assoc.
Qed.

Section QuoteHyphen.
Variable tok : jsstring.
Hypothesis tok_nonempty : tok ≠ [].
Hypothesis tok_chars : Forall (λ c, c = 39%N ∨ c = 45%N) tok.

Lemma quote_hyphen_run : forallb is_run_char tok = true.
Proof.
  apply forallb_forall. intros c Hc. rewrite Forall_forall in tok_chars.
  apply list_elem_of_In in Hc. by destruct (tok_chars c Hc) as [-> | ->].
Qed.

Lemma quote_hyphen_punctuation : is_punctuation tok = true.
Proof.
  unfold is_punctuation. apply andb_true_iff. split.
  - by destruct tok.
  - apply forallb_forall. intros c Hc. rewrite Forall_forall in tok_chars.
    apply list_elem_of_In in Hc. by destruct (tok_chars c Hc) as [-> | ->].
Qed.

Lemma quote_hyphen_not_dash : str_eq tok [0x2014%N] || str_eq tok [0x2013%N] = false.
Proof.
  unfold str_eq. apply orb_false_iff.
  split; apply bool_decide_eq_false; intros E; rewrite E in tok_chars;
    apply Forall_cons in tok_chars as [[H|H] _]; discriminate H.
Qed.
End QuoteHyphen.

(** C10. A non-empty token made only of apostrophes and hyphens is one
    token of the tokenizer, and it is punctuation for the matcher and for
    the static fallback: a turn of the matcher at it moves on by one and
    pushes no match, no phrase candidate starts at it, and [getStaticClip]
    looks it up in [staticClips.punctuation], with the full stop as the
    default, whatever [staticClips.words] holds. *)
Theorem quote_hyphen_token_is_punctuation (tok : jsstring) :
  tok ≠ [] → Forall (λ c, c = 39%N ∨ c = 45%N) tok →
  tokenize tok = [tok]
  ∧ is_punctuation tok = true
  ∧ (∀ b tokens i, match_step b tokens i tok = (i + 1, None))
  ∧ (∀ rest len, candidate (tok :: rest) (S len) = None)
  ∧ (∀ b, getStaticClip b tok
          = or_else (opt_get (punctuation (staticClips b)) tok)
                    (opt_get (punctuation (staticClips b)) (js "."))).
Proof.
  intros Hne Hchars.
  pose proof (quote_hyphen_punctuation tok Hne Hchars) as Hp.
  repeat split.
  - unfold tokenize. rewrite scan_run by by apply quote_hyphen_run.
    simpl. unfold flush. by destruct tok.
  - done.
  - intros b tokens i. unfold match_step. by rewrite Hp.
  - intros rest len. unfold candidate. cbn [collect]. by rewrite Hp.
  - intros b. rewrite getStaticClip_unfold, Hp. cbv zeta.
    by rewrite quote_hyphen_not_dash.
Qed.

Lemma quote_hyphen_token_is_punctuation_witness :
  tokenize (js "--") = [js "--"]
  ∧ is_punctuation (js "--") = true
  ∧ (∀ b tokens i, match_step b tokens i (js "--") = (i + 1, None))
  ∧ (∀ rest len, candidate (js "--" :: rest) (S len) = None)
  ∧ (∀ b, getStaticClip b (js "--")
          = or_else (opt_get (punctuation (staticClips b)) (js "--"))
                    (opt_get (punctuation (staticClips b)) (js "."))).
Proof.
  apply (quote_hyphen_token_is_punctuation (js "--")).
  - discriminate.
  - change (js "--") with [45%N; 45%N].
    constructor; [by right|]. constructor; [by right|]. constructor.
Defined.

(** ** The normalizer *)

(** C8. Normalizing [cafe] (with [U+00E9]), apostrophe, [s], space, and
    [quote] between double quotes gives the four tokens [cafe's], the double
    quote, [quote], the double quote, for every engine whose [normalize]
    decomposes [U+00E9] into [e] and [U+0301] and leaves the other code units
    of the input as they are, and whose [toLowerCase] leaves the lower-case
    text as it is. Each double quote is a punctuation token. *)
Theorem normalize_cafe_quote (normalizeNFD toLowerCase : jsstring → jsstring) :
  normalizeNFD cafe_input
    = js "cafe" ++ [0x301%N] ++ js "'s " ++ [34%N] ++ js "quote" ++ [34%N] →
  toLowerCase (js "cafe's " ++ [34%N] ++ js "quote" ++ [34%N])
    = js "cafe's " ++ [34%N] ++ js "quote" ++ [34%N] →
  normalizeAndTokenize normalizeNFD toLowerCase cafe_input
    = [js "cafe's"; [34%N]; js "quote"; [34%N]]
  ∧ is_punctuation [34%N] = true.
Proof.
  intros Hnfd Hlower. split; [|reflexivity].
  unfold normalizeAndTokenize.
  change (foldl _ _ quoteMap) with cafe_input. rewrite Hnfd.
  change (filter _ _) with (js "cafe's " ++ [34%N] ++ js "quote" ++ [34%N]).
  rewrite Hlower. reflexivity.
Qed.

Lemma normalize_cafe_quote_witness :
  normalizeAndTokenize nfd_latin1 lower_latin1 cafe_input
    = [js "cafe's"; [34%N]; js "quote"; [34%N]]
  ∧ is_punctuation [34%N] = true.
Proof. apply normalize_cafe_quote; reflexivity. Defined.

(** ** The script builder *)

Lemma covered_fold_spec (ms : list Match) (acc : gset nat) (k : nat) :
  k ∈ foldl (λ covered m, covered ∪ set_seq (start m) (end_ m - start m)) acc ms
  ↔ k ∈ acc ∨ ∃ m, m ∈ ms ∧ in_range_of m k.
Proof.
  revert acc. induction ms as [|m0 rest IH]; intros acc; simpl.
  - split; [by left|]. intros [?|(m & Hm & _)]; [done|]. by apply elem_of_nil in Hm.
  - rewrite IH, elem_of_union, elem_of_set_seq. unfold in_range_of. split.
    + intros [[?|?]|(m & Hm & ?)].
      * by left.
      * right. exists m0. split; [apply elem_of_cons; by left|lia].
      * right. exists m. split; [apply elem_of_cons; by right|done].
    + intros [?|(m & Hm & ?)]; [by left; left|].
      apply elem_of_cons in Hm as [->|Hm].
      * left. right. lia.
      * right. by exists m.
Qed.

Lemma covered_set_spec (matches : list Match) (k : nat) :
  k ∈ covered_set matches ↔ ∃ m, m ∈ matches ∧ in_range_of m k.
Proof.
  unfold covered_set. rewrite covered_fold_spec. split; [|by right].
  intros [H|H]; [|done]. by apply not_elem_of_empty in H.
Qed.

Lemma ordered_apart lo ms m m' :
  ordered_from lo ms → m ∈ ms → m' ∈ ms → start m < start m' → end_ m ≤ start m'.
Proof.
  intros Ho [i Hi]%list_elem_of_lookup_1 [j Hj]%list_elem_of_lookup_1 Hlt.
  destruct (lt_eq_lt_dec i j) as [[Hij| ->]|Hji].
  - by eapply ordered_from_lookup.
  - rewrite Hi in Hj. injection Hj as ->. lia.
  - pose proof (ordered_from_lookup _ _ _ _ _ _ Ho Hji Hj Hi).
    pose proof (ordered_from_elem _ _ _ Ho (list_elem_of_lookup_2 _ _ _ Hj)). lia.
Qed.

Lemma ordered_start_inj lo ms m m' :
  ordered_from lo ms → m ∈ ms → m' ∈ ms → start m = start m' → m = m'.
Proof.
  intros Ho [i Hi]%list_elem_of_lookup_1 [j Hj]%list_elem_of_lookup_1 Heq.
  pose proof (ordered_from_elem _ _ _ Ho (list_elem_of_lookup_2 _ _ _ Hi)).
  pose proof (ordered_from_elem _ _ _ Ho (list_elem_of_lookup_2 _ _ _ Hj)).
  destruct (lt_eq_lt_dec i j) as [[Hij| ->]|Hji].
  - pose proof (ordered_from_lookup _ _ _ _ _ _ Ho Hij Hi Hj). lia.
  - congruence.
  - pose proof (ordered_from_lookup _ _ _ _ _ _ Ho Hji Hj Hi). lia.
Qed.

Lemma increasing_from_weaken lo lo' l :
  lo' ≤ lo → increasing_from lo l → increasing_from lo' l.
Proof. destruct l; simpl; [done|]. intros ? [? ?]. split; [lia|done]. Qed.

Lemma increasing_from_elem lo l x : increasing_from lo l → x ∈ l → lo ≤ x.
Proof.
  revert lo. induction l as [|y rest IH]; intros lo Hinc Hx.
  - by apply elem_of_nil in Hx.
  - destruct Hinc as [? Hrest]. apply elem_of_cons in Hx as [->|Hx]; [done|].
    specialize (IH _ Hrest Hx). lia.
Qed.

(** In a list of turns with increasing indices, the turns at an index that
    occurs are one turn. *)
Lemma increasing_filter_index lo (T : list Turn) j :
  increasing_from lo (turn_index <$> T) → j ∈ turn_index <$> T →
  ∃ t, filter (λ t, turn_index t = j) T = [t].
Proof.
  revert lo. induction T as [|t0 rest IH]; intros lo Hinc Hj.
  - by apply elem_of_nil in Hj.
  - cbn [fmap list_fmap] in *. destruct Hinc as [Hlo Hrest].
    destruct (decide (turn_index t0 = j)) as [E|Hne].
    + exists t0. rewrite filter_cons_True by done. f_equal.
      destruct (filter _ rest) as [|t1 rest'] eqn:Ef; [done|].
      assert (t1 ∈ filter (λ t, turn_index t = j) rest) as Ht1
        by (rewrite Ef; apply elem_of_cons; by left).
      apply list_elem_of_filter in Ht1 as [Ht1 Hin].
      assert (turn_index t1 ∈ turn_index <$> rest) as Hin'
        by (apply list_elem_of_fmap; by exists t1).
      pose proof (increasing_from_elem _ _ _ Hrest Hin'). lia.
    + rewrite filter_cons_False by done. apply (IH _ Hrest).
      apply elem_of_cons in Hj as [Hj|Hj]; [congruence|done].
Qed.

(** *** The turns of the loop, one by one *)

Lemma selectClip_singleton (hashIndex : jsstring → N) (c : Clip) (used : gset jsstring) (seedStr : jsstring) :
  selectClip hashIndex (Some [c]) used seedStr = Ok (Some c, used ∪ {[ filename c ]}).
Proof.
  unfold selectClip.
  assert ((if 0 <? length (filter (λ clip, filename clip ∉ used) [c])
           then filter (λ clip, filename clip ∉ used) [c] else [c]) = [c]) as ->.
  { destruct (decide (filename c ∉ used)).
    - by rewrite filter_cons_True.
    - by rewrite filter_cons_False. }
  cbn [length]. change (N.of_nat 1) with 1%N. by rewrite N.mod_1_r.
Qed.

Lemma script_loop_end (hashIndex : jsstring → N) fuel b tokens matches covered seed i st :
  tokens !! i = None →
  script_loop hashIndex fuel b tokens matches covered seed i st = Ok st.
Proof. intros E. destruct fuel; simpl; by rewrite E. Qed.

Lemma script_loop_phrase (hashIndex : jsstring → N) fuel b tokens matches covered seed i st tok m pool clip used :
  tokens !! i = Some tok →
  List.find (λ m, start m =? i) matches = Some m →
  phraseClips b !! phrase m = Some pool →
  selectClip hashIndex (Some pool) (usedClips st) (seed ++ phrase m) = Ok (clip, used) →
  script_loop hashIndex (S fuel) b tokens matches covered seed i st
  = let item := (λ c, Item (mkItem (join [32%N] (slice tokens (start m) (end_ m)))
                                   (filename c) (duration c) phrase_type)) <$> clip in
    script_loop hashIndex fuel b tokens matches covered seed (end_ m)
      (mkState (script st ++ option_list item) used
               (turns st ++ [mkTurn i (SelectPhrase m) item])).
Proof.
  intros E Ef Hpool Hsel. cbn [script_loop]. unfold get. by rewrite E, Ef, Hpool, Hsel.
Qed.

(** The turn at the start of a match whose phrase has no pool of its own
    and names a function of [Object.prototype] with parameters: [selectClip]
    throws. *)
Lemma script_loop_inherited (hashIndex : jsstring → N) fuel b tokens matches covered seed i st tok m arity :
  tokens !! i = Some tok →
  List.find (λ m, start m =? i) matches = Some m →
  phraseClips b !! phrase m = None →
  inherited (phrase m) = Some (MemberFunction (S arity)) →
  script_loop hashIndex (S fuel) b tokens matches covered seed i st = Throw TypeError.
Proof.
  intros E Ef Hpool Hin. cbn [script_loop]. unfold get. by rewrite E, Ef, Hpool, Hin.
Qed.

Lemma script_loop_static (hashIndex : jsstring → N) fuel b tokens matches covered seed i st tok :
  tokens !! i = Some tok →
  List.find (λ m, start m =? i) matches = None →
  bool_decide (i ∉ covered) = true →
  script_loop hashIndex (S fuel) b tokens matches covered seed i st
  = script_loop hashIndex fuel b tokens matches covered seed (i + 1)
      (mkState (script st ++ option_list (static_item b tok)) (usedClips st)
               (turns st ++ [mkTurn i (StaticFallback tok) (static_item b tok)])).
Proof. intros E Ef Hc. cbn [script_loop]. by rewrite E, Ef, Hc. Qed.

Section ScriptBuilder.
Variable hashIndex : jsstring → N.
Variable b : HLSBuilder.
Variable tokens : list jsstring.
Variable matches : list Match.
Variable seed : jsstring.
Hypothesis matches_ordered : ordered_from 0 matches.

Lemma find_start_Some i m :
  List.find (λ m, start m =? i) matches = Some m → m ∈ matches ∧ start m = i.
Proof.
  intros [Hin Heq]%find_some. split; [by apply list_elem_of_In|].
  by apply Nat.eqb_eq.
Qed.

Lemma find_start_None i :
  List.find (λ m, start m =? i) matches = None → ∀ m, m ∈ matches → start m ≠ i.
Proof.
  intros Hnone m Hm%list_elem_of_In.
  apply Nat.eqb_neq. apply (find_none _ _ Hnone m Hm).
Qed.

Lemma matches_positive m : m ∈ matches → start m < end_ m.
Proof. intros Hm. by destruct (ordered_from_elem _ _ _ matches_ordered Hm). Qed.

Lemma boundary_start : boundary matches 0.
Proof. intros m _. lia. Qed.

Lemma boundary_after_match m : m ∈ matches → boundary matches (end_ m).
Proof.
  intros Hm m' Hm' [H1 H2].
  pose proof (matches_positive m Hm). pose proof (matches_positive m' Hm').
  destruct (lt_eq_lt_dec (start m) (start m')) as [[Hlt|Heq]|Hgt].
  - pose proof (ordered_apart _ _ _ _ matches_ordered Hm Hm' Hlt). lia.
  - pose proof (ordered_start_inj _ _ _ _ matches_ordered Hm Hm' Heq). subst. lia.
  - pose proof (ordered_apart _ _ _ _ matches_ordered Hm' Hm Hgt). lia.
Qed.

Lemma boundary_succ i :
  boundary matches i → (∀ m, m ∈ matches → start m ≠ i) → boundary matches (S i).
Proof.
  intros Hb Hns m Hm [H1 H2]. specialize (Hb m Hm). specialize (Hns m Hm). lia.
Qed.

Lemma boundary_uncovered i :
  boundary matches i → (∀ m, m ∈ matches → start m ≠ i) → i ∉ covered_set matches.
Proof.
  intros Hb Hns (m & Hm & [H1 H2])%covered_set_spec.
  specialize (Hb m Hm). specialize (Hns m Hm). lia.
Qed.

(** A token index inside a match belongs to that match only. *)
Lemma in_range_unique m m' k :
  m ∈ matches → m' ∈ matches → in_range_of m k → in_range_of m' k → m = m'.
Proof.
  intros Hm Hm' [H1 H2] [H3 H4].
  destruct (lt_eq_lt_dec (start m) (start m')) as [[Hlt|Heq]|Hgt].
  - pose proof (ordered_apart _ _ _ _ matches_ordered Hm Hm' Hlt). lia.
  - by apply (ordered_start_inj _ _ _ _ matches_ordered).
  - pose proof (ordered_apart _ _ _ _ matches_ordered Hm' Hm Hgt). lia.
Qed.

Hypothesis matches_own : ∀ m, m ∈ matches → is_Some (phraseClips b !! phrase m).

Lemma selectClip_Some_ok clips used seedStr :
  ∃ clip used', selectClip hashIndex (Some clips) used seedStr = Ok (clip, used')
                ∧ ∀ c, clip = Some c → c ∈ clips.
Proof.
  destruct (decide (clips = [])) as [->|Hne].
  - exists None, used. by split.
  - destruct (selectClip_nonempty hashIndex clips used seedStr Hne)
      as (clip & _ & Hsel & Hin).
    exists (Some clip), (used ∪ {[ filename clip ]}). split; [done|].
    by intros c [= <-].
Qed.

(** The loop from a position that is not strictly inside a match: it
    returns, and its turns are selections at the starts of matches and
    fallbacks at the indices no match covers, each index once, in order. *)
Lemma script_loop_turns fuel : ∀ i st,
  boundary matches i → length tokens - i ≤ fuel →
  ∃ st' T,
    script_loop hashIndex fuel b tokens matches (covered_set matches) seed i st = Ok st'
    ∧ turns st' = turns st ++ T
    ∧ script st' = script st ++ omap turn_item T
    ∧ Forall (turn_ok b tokens matches) T
    ∧ increasing_from i (turn_index <$> T)
    ∧ ∀ j, i ≤ j < length tokens →
        (j ∈ turn_index <$> T
         ↔ j ∉ covered_set matches ∨ ∃ m, m ∈ matches ∧ start m = j).
Proof.
  assert (∀ fuel i st, tokens !! i = None →
    ∃ st' T,
      script_loop hashIndex fuel b tokens matches (covered_set matches) seed i st = Ok st'
      ∧ turns st' = turns st ++ T
      ∧ script st' = script st ++ omap turn_item T
      ∧ Forall (turn_ok b tokens matches) T
      ∧ increasing_from i (turn_index <$> T)
      ∧ ∀ j, i ≤ j < length tokens →
          (j ∈ turn_index <$> T
           ↔ j ∉ covered_set matches ∨ ∃ m, m ∈ matches ∧ start m = j)) as Hend.
  { intros fu i st E. exists st, []. pose proof (lookup_ge_None_1 _ _ E).
    destruct fu; simpl; rewrite E, !app_nil_r; repeat split; try done; intros; lia. }
  induction fuel as [|f IH]; intros i st Hb Hfuel.
  { apply Hend. apply lookup_ge_None. lia. }
  destruct (tokens !! i) as [tok|] eqn:E; [|by apply Hend].
  pose proof (lookup_lt_Some _ _ _ E) as Hlt.
  cbn [script_loop]. rewrite E.
  destruct (List.find _ matches) as [m|] eqn:Ef.
  - destruct (find_start_Some _ _ Ef) as [Hm Hs].
    pose proof (matches_positive m Hm) as Hpos.
    destruct (matches_own m Hm) as [pool Hpool].
    destruct (selectClip_Some_ok pool (usedClips st) (seed ++ phrase m))
      as (clip & used' & Hsel & Hclip).
    unfold get. rewrite Hpool, Hsel. cbn [mbind outcome_bind].
    set (item := (λ c, Item (mkItem (join [32%N] (slice tokens (start m) (end_ m)))
                                    (filename c) (duration c) phrase_type)) <$> clip).
    destruct (IH (end_ m)
                (mkState (script st ++ option_list item) used'
                         (turns st ++ [mkTurn i (SelectPhrase m) item])))
      as (st' & T' & Hrun & Ht & Hsc & Hok & Hinc & Hmem).
    { by apply boundary_after_match. }
    { lia. }
    exists st', (mkTurn i (SelectPhrase m) item :: T').
    split; [done|]. cbn [turns script] in Ht, Hsc.
    split; [by rewrite Ht, <- app_assoc|].
    split; [rewrite Hsc, <- app_assoc; by destruct item|].
    split.
    { constructor; [|done]. unfold turn_ok. cbn [turn_action turn_index turn_item].
      split; [done|]. split; [done|]. intros it Hit. subst item.
      destruct clip as [c|]; [|done]. injection Hit as <-.
      exists c. rewrite Hpool. split; [by apply Hclip|done]. }
    split.
    { cbn. split; [done|]. eapply increasing_from_weaken; [|done]. lia. }
    intros j Hj. cbn [fmap list_fmap turn_index]. rewrite elem_of_cons.
    destruct (decide (j = i)) as [->|Hne].
    { split; [|by left]. intros _. right. by exists m. }
    destruct (decide (end_ m ≤ j)) as [Hge|Hin].
    { rewrite <- (Hmem j) by lia. split; [|by right].
      intros [?|?]; [lia|done]. }
    split.
    + intros [?|Hj']; [done|]. pose proof (increasing_from_elem _ _ _ Hinc Hj'). lia.
    + intros [Hnc|(m' & Hm' & Hs')].
      * destruct Hnc. apply covered_set_spec. exists m. split; [done|].
        unfold in_range_of. lia.
      * assert (start m < start m') as Hlt' by lia.
        pose proof (ordered_apart _ _ _ _ matches_ordered Hm Hm' Hlt'). lia.
  - pose proof (find_start_None _ Ef) as Hns.
    pose proof (boundary_uncovered i Hb Hns) as Hunc.
    rewrite bool_decide_eq_true_2 by done.
    destruct (IH (i + 1)
                (mkState (script st ++ option_list (static_item b tok)) (usedClips st)
                         (turns st ++ [mkTurn i (StaticFallback tok) (static_item b tok)])))
      as (st' & T' & Hrun & Ht & Hsc & Hok & Hinc & Hmem).
    { rewrite Nat.add_1_r. by apply boundary_succ. }
    { lia. }
    exists st', (mkTurn i (StaticFallback tok) (static_item b tok) :: T').
    split; [done|]. cbn [turns script] in Ht, Hsc.
    split; [by rewrite Ht, <- app_assoc|].
    split; [rewrite Hsc, <- app_assoc; by destruct (static_item b tok)|].
    split.
    { constructor; [|done]. unfold turn_ok. by cbn. }
    split.
    { cbn. split; [done|]. eapply increasing_from_weaken; [|done]. lia. }
    intros j Hj. cbn [fmap list_fmap turn_index]. rewrite elem_of_cons.
    destruct (decide (j = i)) as [->|Hne].
    { split; [|by left]. intros _. by left. }
    rewrite <- (Hmem j) by lia. split; [|by right]. intros [?|?]; [lia|done].
Qed.
End ScriptBuilder.

Lemma filter_narrow {A} (P Q : A → Prop) `{∀ x, Decision (P x)} `{∀ x, Decision (Q x)}
    (l : list A) :
  (∀ x, x ∈ l → P x → Q x) → filter P l = filter P (filter Q l).
Proof.
  induction l as [|x rest IH]; intros Himp; [done|].
  assert (filter P rest = filter P (filter Q rest)) as IH'.
  { apply IH. intros y Hy. apply Himp, elem_of_cons. by right. }
  destruct (decide (Q x)) as [HQ|HQ].
  - rewrite (filter_cons_True Q) by done.
    destruct (decide (P x)).
    + rewrite !filter_cons_True by done. by f_equal.
    + by rewrite !filter_cons_False by done.
  - rewrite (filter_cons_False Q) by done.
    rewrite filter_cons_False; [done|].
    intros HP. apply HQ, Himp; [apply elem_of_cons; by left|done].
Qed.

Lemma greedy_start_in_bounds b tokens m :
  m ∈ greedyMatchPhrases b tokens → start m < length tokens.
Proof.
  intros (tok & Htok & _)%match_loop_elem. by apply lookup_lt_Some in Htok.
Qed.

(** What the matcher guarantees of each of its matches. *)
Lemma greedy_match_facts (b : HLSBuilder) (tokens : list jsstring) (m : Match) :
  m ∈ greedyMatchPhrases b tokens →
  start m < end_ m ∧ end_ m ≤ length tokens
  ∧ available b (phrase m) = true
  ∧ phrase m = join [32%N] (slice tokens (start m) (end_ m)).
Proof.
  intros Hin. apply match_loop_elem in Hin as (tok & Htok & Hstep).
  apply match_step_Some in Hstep as (_ & _ & _ & E).
  apply try_lengths_Some in E as (HL & Hc & Hav & _).
  pose proof (candidate_Some_length _ _ _ Hc) as Hlen. rewrite length_drop in Hlen.
  pose proof (lookup_lt_Some _ _ _ Htok) as Hlt.
  split; [lia|]. split; [lia|]. split; [done|].
  unfold candidate in Hc. unfold slice.
  destruct (Nat.eqb_spec (length (collect (drop (start m) tokens) (end_ m - start m)))
              (end_ m - start m)) as [Hcl|]; [|done].
  injection Hc as <-. f_equal. revert Hcl.
  generalize (drop (start m) tokens) (end_ m - start m). clear.
  intros toks len. revert toks.
  induction len as [|n IH]; intros [|t rest]; cbn; try done.
  destruct (is_punctuation t); [done|]. cbn. intros [= Hn]. by rewrite IH.
Qed.

Lemma find_start_beyond (lo i : nat) (ms : list Match) :
  ordered_from lo ms → i < lo → List.find (λ m, start m =? i) ms = None.
Proof.
  revert lo. induction ms as [|m rest IH]; intros lo Ho Hlt; [done|].
  destruct Ho as (H1 & H2 & H3). cbn [List.find].
  destruct (Nat.eqb_spec (start m) i); [lia|]. apply (IH (end_ m)); [done|lia].
Qed.

Lemma find_start_split (i : nat) (done rem : list Match) :
  Forall (λ m, start m < end_ m ∧ end_ m ≤ i) done → ordered_from i rem →
  List.find (λ m, start m =? i) (done ++ rem)
  = match rem with
    | m :: _ => if start m =? i then Some m else None
    | [] => None
    end.
Proof.
  intros Hdone Hrem. induction Hdone as [|d done [Hd1 Hd2] _ IH]; cbn [app List.find].
  - destruct rem as [|m rest]; [done|]. cbn [List.find].
    destruct Hrem as (H1 & H2 & H3).
    destruct (Nat.eqb_spec (start m) i); [done|]. apply (find_start_beyond (end_ m)); [done|lia].
  - destruct (Nat.eqb_spec (start d) i); [lia|done].
Qed.

Lemma slice_drop (tokens : list jsstring) (i j : nat) :
  i ≤ j → slice tokens i j ++ drop j tokens = drop i tokens.
Proof.
  intros Hij. unfold slice. replace j with (i + (j - i)) at 2 by lia.
  rewrite <- drop_drop. apply take_drop.
Qed.

(** The pool of an available phrase that has one of its own is not empty. *)
Lemma available_pool b c pool :
  available b c = true → phraseClips b !! c = Some pool → pool ≠ [].
Proof.
  intros [_ [(pool' & Hp & Hne)|[Hp _]]]%available_spec Hpool; congruence.
Qed.

(** An available phrase without a pool of its own names a function of
    [Object.prototype] that has parameters. *)
Lemma available_inherited b c :
  available b c = true → phraseClips b !! c = None →
  ∃ arity, inherited c = Some (MemberFunction (S arity)).
Proof.
  intros [_ [(pool' & Hp & Hne)|[_ Hin]]]%available_spec Hpool; [congruence|done].
Qed.

Lemma punctuation_not_inherited (key : jsstring) :
  is_punctuation key = true → inherited key = None.
Proof.
  intros Hp. destruct (inherited key) as [mem|] eqn:E; [|done].
  destruct (inherited_word key) as [Hne Hw]; [by eexists|].
  destruct key as [|c rest]; [done|]. apply Forall_cons in Hw as [Hc _].
  unfold is_punctuation in Hp. cbn in Hp. by rewrite Hc in Hp.
Qed.

Lemma opt_get_punctuation (o : option (gmap jsstring Clip)) (key : jsstring) :
  is_punctuation key = true →
  opt_get o key = Own <$> (o ≫= (λ table, table !! key)).
Proof.
  intros Hp. unfold opt_get, get. destruct o as [table|]; [|done]. cbn.
  destruct (table !! key); [done|]. by rewrite punctuation_not_inherited.
Qed.

(** [getStaticClip] returns a member of [Object.prototype] only for a word
    whose slug names one. *)
Lemma inherits_clip_false (b : HLSBuilder) (tok : jsstring) :
  inherited (slugify tok) = None → inherits_clip b tok = false.
Proof.
  intros Hslug. unfold inherits_clip. rewrite getStaticClip_unfold.
  destruct (is_punctuation tok) eqn:Hp; cbv zeta.
  - assert (is_punctuation (if str_eq tok [0x2014%N] || str_eq tok [0x2013%N]
                            then [45%N] else tok) = true) as Hkey
      by (by destruct (_ || _)).
    rewrite (opt_get_punctuation _ _ Hkey), (opt_get_punctuation _ (js ".") eq_refl).
    destruct (punctuation (staticClips b)) as [table|]; [|done].
    cbn [mbind option_bind].
    destruct (table !! _) as [c|]; cbn [fmap option_fmap option_map or_else]; [done|].
    by destruct (table !! js ".").
  - unfold opt_get, get. destruct (words (staticClips b)) as [table|]; [|done].
    cbn [mbind option_bind]. destruct (table !! slugify tok); [done|]. by rewrite Hslug.
Qed.

(** A match whose phrase names a member of [Object.prototype] is one token,
    the token at its start. *)
Lemma inherited_phrase_token (b : HLSBuilder) (tokens : list jsstring) (m : Match) :
  m ∈ greedyMatchPhrases b tokens → is_Some (inherited (phrase m)) →
  end_ m = start m + 1 ∧ tokens !! start m = Some (phrase m).
Proof.
  intros Hm [_ Hw]%inherited_word.
  destruct (greedy_match_facts b tokens m Hm) as (Hpos & Hend & _ & Hjoin).
  assert (length (slice tokens (start m) (end_ m)) = end_ m - start m) as Hsl.
  { unfold slice. rewrite length_take, length_drop. lia. }
  destruct (lookup_lt_is_Some_2 tokens (start m) ltac:(lia)) as [tok Htok].
  assert (slice tokens (start m) (end_ m) = tok :: slice tokens (S (start m)) (end_ m)) as Hcons.
  { unfold slice. rewrite (drop_S _ _ _ Htok).
    replace (end_ m - start m) with (S (end_ m - S (start m))) by lia. done. }
  rewrite Hcons in Hsl, Hjoin.
  destruct (slice tokens (S (start m)) (end_ m)) as [|y rest]; cbn in Hsl.
  - split; [lia|]. by rewrite Hjoin.
  - rewrite Hjoin in Hw. rewrite Forall_forall in Hw.
    by specialize (Hw _ (join_space tok y rest)).
Qed.

(** When no token is the name of a member of [Object.prototype], every
    match has a pool of its own. *)
Lemma greedy_own_pools (b : HLSBuilder) (tokens : list jsstring) :
  Forall (λ tok, inherited tok = None) tokens →
  ∀ m, m ∈ greedyMatchPhrases b tokens → is_Some (phraseClips b !! phrase m).
Proof.
  intros Hnames m Hm. destruct (phraseClips b !! phrase m) as [pool|] eqn:Hpool; [by eexists|].
  destruct (greedy_match_facts b tokens m Hm) as (_ & _ & Hav & _).
  destruct (available_inherited b _ Hav Hpool) as [arity Hin].
  destruct (inherited_phrase_token b tokens m Hm) as [_ Htok]; [by eexists|].
  rewrite Forall_forall in Hnames.
  rewrite (Hnames _ (list_elem_of_lookup_2 _ _ _ Htok)) in Hin. done.
Qed.

Section ScriptThrows.
Variable hashIndex : jsstring → N.
Variable b : HLSBuilder.
Variable tokens : list jsstring.
Variable matches : list Match.
Variable seed : jsstring.
Hypothesis matches_bounds : ∀ m, m ∈ matches → end_ m ≤ length tokens.
Hypothesis matches_available : ∀ m, m ∈ matches → available b (phrase m) = true.

(** The loop from position [i], when the matches that end at or before [i]
    are [done] and the others, [rem], start at or after [i]: when a match
    of [rem] has no pool of its own, the loop throws at the first of them,
    in [selectClip]. *)
Lemma script_loop_throws fuel : ∀ i st done rem,
  matches = done ++ rem →
  Forall (λ m, start m < end_ m ∧ end_ m ≤ i) done →
  ordered_from i rem →
  length tokens - i ≤ fuel →
  (∃ m, m ∈ rem ∧ phraseClips b !! phrase m = None) →
  script_loop hashIndex fuel b tokens matches (covered_set matches) seed i st
  = Throw TypeError.
Proof.
  assert (∀ i rem, ordered_from i rem → (∀ m, m ∈ rem → m ∈ matches) →
            (∃ m, m ∈ rem ∧ phraseClips b !! phrase m = None) → i < length tokens)
    as Hinside.
  { intros i rem Ho Hsub (m & Hm & _).
    pose proof (ordered_from_elem _ _ _ Ho Hm). specialize (matches_bounds m (Hsub m Hm)). lia. }
  induction fuel as [|f IH]; intros i st done rem Hsplit Hdone Hrem Hfuel Hbad.
  { assert (i < length tokens); [|lia]. apply (Hinside i rem); [done| |done].
    intros m Hm. rewrite Hsplit. apply elem_of_app. by right. }
  assert (i < length tokens) as Hlt.
  { apply (Hinside i rem); [done| |done].
    intros m Hm. rewrite Hsplit. apply elem_of_app. by right. }
  destruct (lookup_lt_is_Some_2 tokens i Hlt) as [tok E].
  pose proof (find_start_split i done rem Hdone Hrem) as Hfind.
  rewrite <- Hsplit in Hfind.
  destruct rem as [|m rest].
  { destruct Hbad as (m & Hm & _). by apply elem_of_nil in Hm. }
  destruct Hrem as (H1 & H2 & H3).
  assert (m ∈ matches) as Hm by (rewrite Hsplit; apply elem_of_app; right;
                                 apply elem_of_cons; by left).
  destruct (Nat.eqb_spec (start m) i) as [Hs|Hs].
  - destruct (phraseClips b !! phrase m) as [pool|] eqn:Hpool.
    + destruct (selectClip_nonempty hashIndex pool (usedClips st) (seed ++ phrase m)
                  (available_pool b _ pool (matches_available m Hm) Hpool))
        as (clip & _ & Hsel & _).
      rewrite (script_loop_phrase _ _ _ _ _ _ _ _ _ tok m pool (Some clip)
                 (usedClips st ∪ {[ filename clip ]})) by done.
      cbv zeta. apply (IH _ _ (done ++ [m]) rest).
      * by rewrite <- app_assoc.
      * apply Forall_app. split.
        -- eapply Forall_impl; [exact Hdone|]. intros d [? ?]. cbn. lia.
        -- repeat constructor; lia.
      * done.
      * lia.
      * destruct Hbad as (m' & [->|Hm']%elem_of_cons & Hnone); [congruence|].
        by exists m'.
    + destruct (available_inherited b _ (matches_available m Hm) Hpool) as [arity Hin].
      by apply (script_loop_inherited _ _ _ _ _ _ _ _ _ tok m arity).
  - assert (i ∉ covered_set matches) as Hunc.
    { intros (m' & Hm' & [H4 H5])%covered_set_spec. rewrite Hsplit in Hm'.
      apply elem_of_app in Hm' as [Hm'|Hm'].
      - rewrite Forall_forall in Hdone. specialize (Hdone m' Hm'). lia.
      - assert (ordered_from i (m :: rest)) as Ho by (cbn; done).
        pose proof (ordered_from_elem _ _ _ Ho Hm') as [H6 H7].
        apply elem_of_cons in Hm' as [->|Hm']; [lia|].
        pose proof (ordered_from_elem _ _ _ H3 Hm'). lia. }
    rewrite (script_loop_static _ _ _ _ _ _ _ _ _ tok) by
      (try done; by apply bool_decide_eq_true_2).
    apply (IH _ _ done (m :: rest)); [done| | |lia|done].
    + eapply Forall_impl; [exact Hdone|]. intros d [? ?]. cbn. lia.
    + cbn. split; [lia|done].
Qed.
End ScriptThrows.

(** With the matches of the matcher, [generateScript] returns when every
    match has a pool of its own in [phraseClips]. *)
Lemma generateScript_run_turns hashIndex b tokens sessionId :
  let matches := greedyMatchPhrases b tokens in
  (∀ m, m ∈ matches → is_Some (phraseClips b !! phrase m)) →
  ∃ st,
    generateScript_run hashIndex b tokens matches sessionId = Ok st
    ∧ script st = omap turn_item (turns st)
    ∧ Forall (turn_ok b tokens matches) (turns st)
    ∧ increasing_from 0 (turn_index <$> turns st)
    ∧ ∀ j, j < length tokens →
        (j ∈ turn_index <$> turns st
         ↔ j ∉ covered_set matches ∨ ∃ m, m ∈ matches ∧ start m = j).
Proof.
  intros matches Hown.
  pose proof (match_loop_ordered b (length tokens) tokens 0) as Ho.
  fold (greedyMatchPhrases b tokens) in Ho. fold matches in Ho.
  destruct (script_loop_turns hashIndex b tokens matches sessionId Ho Hown (length tokens) 0
              (mkState [] ∅ [])) as (st & T & Hrun & Ht & Hsc & Hok & Hinc & Hmem).
  { apply boundary_start. }
  { lia. }
  exists st. cbn in Ht, Hsc. subst T. repeat split; try done.
  - apply Hmem. lia.
  - apply Hmem. lia.
Qed.

(** With the matches of the matcher, [generateScript] throws when a match
    has no pool of its own in [phraseClips]. *)
Lemma generateScript_run_throws hashIndex b tokens sessionId :
  let matches := greedyMatchPhrases b tokens in
  (∃ m, m ∈ matches ∧ phraseClips b !! phrase m = None) →
  generateScript_run hashIndex b tokens matches sessionId = Throw TypeError.
Proof.
  intros matches Hbad.
  pose proof (match_loop_ordered b (length tokens) tokens 0) as Ho.
  fold (greedyMatchPhrases b tokens) in Ho. fold matches in Ho.
  apply (script_loop_throws hashIndex b tokens matches sessionId) with (done := []) (rem := matches);
    try done.
  - intros m Hm. by destruct (greedy_match_facts b tokens m Hm) as (_ & ? & _).
  - intros m Hm. by destruct (greedy_match_facts b tokens m Hm) as (_ & _ & ? & _).
  - lia.
Qed.

(** C3 (what the code does). With the matches the matcher returns for the
    tokens: when every match has a pool of its own in [phraseClips], the
    script builder returns, the script is what its turns pushed, in order,
    and for every token index [i]: if [i] lies in the range of a match, every
    turn at [i] is the selection for that match at its start (so there is no
    fallback for [i]), and there is exactly one selection for the match,
    which pushes at most one item, a phrase item; otherwise there is exactly
    one turn at [i], the static fallback for the token, which pushes the
    static item of the token if it has one. When a match has no pool of its
    own (its phrase names a member of [Object.prototype]), the script builder
    throws a [TypeError] and the indices after that match are not handled:
    so it is for the tokens [constructor], [foo] and a manifest without
    phrases. Every match has a pool of its own when no token is the name of
    a member of [Object.prototype]. *)
Theorem generateScript_coverage (hashIndex : jsstring → N) (b : HLSBuilder)
    (tokens : list jsstring) (sessionId : jsstring) :
  let matches := greedyMatchPhrases b tokens in
  ((∀ m, m ∈ matches → is_Some (phraseClips b !! phrase m)) →
   ∃ st,
     generateScript_run hashIndex b tokens matches sessionId = Ok st
     ∧ generateScript hashIndex b tokens matches sessionId = Ok (script st)
     ∧ script st = omap turn_item (turns st)
     ∧ ∀ i tok, tokens !! i = Some tok →
         ((∃ m, m ∈ matches ∧ in_range_of m i) →
          ∃ m item,
            m ∈ matches ∧ in_range_of m i
            ∧ (∀ t, t ∈ turns st → turn_index t = i →
                 i = start m ∧ turn_action t = SelectPhrase m)
            ∧ filter (λ t, turn_action t = SelectPhrase m) (turns st)
              = [mkTurn (start m) (SelectPhrase m) item]
            ∧ (∀ pushed, item = Some pushed →
                 ∃ it, pushed = Item it ∧ item_type it = phrase_type))
         ∧ ((∀ m, m ∈ matches → ¬ in_range_of m i) →
            filter (λ t, turn_index t = i) (turns st)
            = [mkTurn i (StaticFallback tok) (static_item b tok)]))
  ∧ ((∃ m, m ∈ matches ∧ phraseClips b !! phrase m = None) →
     generateScript hashIndex b tokens matches sessionId = Throw TypeError)
  ∧ (Forall (λ tok, inherited tok = None) tokens →
     ∀ m, m ∈ matches → is_Some (phraseClips b !! phrase m))
  ∧ greedyMatchPhrases constructor_builder [js "constructor"; js "foo"]
    = [mkMatch (js "constructor") 0 1]
  ∧ generateScript hashIndex constructor_builder [js "constructor"; js "foo"]
      (greedyMatchPhrases constructor_builder [js "constructor"; js "foo"]) sessionId
    = Throw TypeError.
Proof.
  intros matches. split; [|split; [|split; [|split]]].
  2: { intros Hbad. unfold generateScript. unfold matches in *.
       by rewrite (generateScript_run_throws hashIndex b tokens sessionId Hbad). }
  2: { apply greedy_own_pools. }
  2: { vm_compute. reflexivity. }
  2: { unfold generateScript.
       rewrite (generateScript_run_throws hashIndex constructor_builder); [done|].
       exists (mkMatch (js "constructor") 0 1). split; [|reflexivity].
       change (greedyMatchPhrases constructor_builder [js "constructor"; js "foo"])
         with [mkMatch (js "constructor") 0 1].
       apply elem_of_cons. by left. }
  intros Hown.
  destruct (generateScript_run_turns hashIndex b tokens sessionId Hown)
    as (st & Hrun & Hsc & Hok & Hinc & Hmem).
  fold matches in Hrun, Hok, Hmem.
  pose proof (match_loop_ordered b (length tokens) tokens 0) as Ho.
  fold (greedyMatchPhrases b tokens) in Ho. fold matches in Ho.
  rewrite Forall_forall in Hok.
  exists st. split; [done|]. split; [unfold generateScript; by rewrite Hrun|].
  split; [done|]. intros i tok Htok. pose proof (lookup_lt_Some _ _ _ Htok) as Hi.
  split.
  - intros (m & Hm & Hin).
    pose proof (matches_positive matches Ho m Hm) as Hpos.
    pose proof (greedy_start_in_bounds b tokens m Hm) as Hsb.
    assert (start m ∈ turn_index <$> turns st) as Hidx.
    { apply Hmem; [done|]. right. by exists m. }
    destruct (increasing_filter_index _ _ _ Hinc Hidx) as [t0 Hf].
    assert (t0 ∈ turns st ∧ turn_index t0 = start m) as [Ht0 Ht0i].
    { assert (t0 ∈ filter (λ t, turn_index t = start m) (turns st)) as H0
        by (rewrite Hf; apply elem_of_cons; by left).
      apply list_elem_of_filter in H0. tauto. }
    assert (∀ t, t ∈ turns st → ∀ k, in_range_of m k → turn_index t = k →
              k = start m ∧ turn_action t = SelectPhrase m) as Hturn.
    { intros t Ht k Hk Hti. specialize (Hok t Ht).
      unfold turn_ok in Hok. destruct (turn_action t) as [m'|tok'|]; [| |done].
      - destruct Hok as (Hm' & Hs' & _).
        pose proof (matches_positive matches Ho m' Hm').
        assert (m = m') as <-.
        { apply (in_range_unique matches Ho m m' k); try done.
          unfold in_range_of. lia. }
        split; [lia|done].
      - destruct Hok as (_ & Hnc & _). destruct Hnc. apply covered_set_spec.
        exists m. split; [done|]. by rewrite Hti. }
    destruct (Hturn t0 Ht0 (start m)) as [_ Hact]; [unfold in_range_of; lia|done|].
    exists m, (turn_item t0). split; [done|]. split; [done|]. split; [|split].
    + intros t Ht Hti. by apply (Hturn t Ht i).
    + rewrite (filter_narrow _ (λ t, turn_index t = start m)).
      * rewrite Hf. rewrite filter_cons_True by done.
        destruct t0; cbn in *; by subst.
      * intros t Ht Hta. specialize (Hok t Ht).
        unfold turn_ok in Hok. rewrite Hta in Hok. tauto.
    + intros it Hit. specialize (Hok t0 Ht0).
      unfold turn_ok in Hok. rewrite Hact in Hok.
      destruct Hok as (_ & _ & Hitem). destruct (Hitem it Hit) as (clip & _ & ->).
      by eexists.
  - intros Hnone.
    assert (i ∉ covered_set matches) as Hnc.
    { intros (m & Hm & Hin)%covered_set_spec. by apply (Hnone m). }
    assert (i ∈ turn_index <$> turns st) as Hidx by (apply Hmem; [done|by left]).
    destruct (increasing_filter_index _ _ _ Hinc Hidx) as [t0 Hf].
    assert (t0 ∈ turns st ∧ turn_index t0 = i) as [Ht0 Ht0i].
    { assert (t0 ∈ filter (λ t, turn_index t = i) (turns st)) as H0
        by (rewrite Hf; apply elem_of_cons; by left).
      apply list_elem_of_filter in H0. tauto. }
    rewrite Hf. f_equal.
    specialize (Hok t0 Ht0). unfold turn_ok in Hok.
    destruct t0 as [idx act item]. cbn in *. subst idx.
    destruct act as [m'|tok'|]; [| |done].
    + destruct Hok as (Hm' & Hs' & _).
      pose proof (matches_positive matches Ho m' Hm').
      destruct (Hnone m' Hm'). unfold in_range_of. lia.
    + destruct Hok as (Htok' & _ & Hitem). rewrite Htok in Htok'.
      injection Htok' as <-. by rewrite Hitem.
Qed.

Lemma generateScript_coverage_example :
  turns <$> generateScript_run sum_hash demo_builder
              [js "good"; js "morning"; js "foo"; js "."]
              (greedyMatchPhrases demo_builder [js "good"; js "morning"; js "foo"; js "."])
              (js "abc")
  = Ok [ mkTurn 0 (SelectPhrase (mkMatch (js "good morning") 0 2))
           (Some (Item (mkItem (js "good morning") (js "gm2.ts") 1.25 phrase_type)));
         mkTurn 2 (StaticFallback (js "foo"))
           (Some (Item (mkItem (js "foo") (js "foo.ts") 0.5 static_type)));
         mkTurn 3 (StaticFallback (js "."))
           (Some (Item (mkItem (js ".") (js "period.ts") 0.25 static_type))) ].
Proof. vm_compute. reflexivity. Qed.

(** The token [__proto__] has no match and reads [Object.prototype] as its
    static clip: an item without filename and duration is pushed. *)
Lemma generateScript_proto_example :
  greedyMatchPhrases proto_builder [js "__proto__"] = []
  ∧ getStaticClip proto_builder (js "__proto__") = Some (Inherited MemberPrototype)
  ∧ generateScript sum_hash proto_builder [js "__proto__"]
      (greedyMatchPhrases proto_builder [js "__proto__"]) (js "abc")
    = Ok [NoClipItem (js "__proto__")].
Proof. repeat split; vm_compute; reflexivity. Qed.

(** The names of the members of [Object.prototype] that the test of line
    150 accepts when the tables of the manifest are empty: the functions
    that have parameters. *)
Lemma available_members_example :
  List.filter (available constructor_builder) (fst <$> object_prototype)
  = [ js "constructor"; js "__defineGetter__"; js "__defineSetter__";
      js "hasOwnProperty"; js "__lookupGetter__"; js "__lookupSetter__";
      js "isPrototypeOf"; js "propertyIsEnumerable" ].
Proof. vm_compute. reflexivity. Qed.

(** ** The driver *)

Lemma script_items_fmap (items : list ScriptItem) :
  script_items (Item <$> items) = Ok items.
Proof.
  unfold script_items. by rewrite (mapM_fmap_Some item_of Item items).
Qed.

Lemma clip_items_fmap (items : list ScriptItem) : clip_items (Item <$> items) = items.
Proof. unfold clip_items. induction items as [|it items IH]; cbn; [done|]. by f_equal. Qed.

Lemma script_items_NoClipItem (script : list Pushed) (text : jsstring) :
  NoClipItem text ∈ script → script_items script = Throw TypeError.
Proof.
  intros Hin. unfold script_items. rewrite (mapM_None_2 item_of script); [done|].
  apply Exists_exists. by exists (NoClipItem text).
Qed.

Lemma script_all_items (script : list Pushed) :
  (∀ text, NoClipItem text ∉ script) → script = Item <$> clip_items script.
Proof.
  unfold clip_items. induction script as [|p script IH]; intros Hall; [done|].
  destruct p as [item|text].
  - cbn. f_equal. apply IH. intros text Hin. apply (Hall text), elem_of_cons. by right.
  - destruct (Hall text). apply elem_of_cons. by left.
Qed.

(** The script holds an item without filename and duration exactly when
    [getStaticClip] returns a member of [Object.prototype] for a token that
    no match covers. *)
Lemma script_NoClipItem_iff (b : HLSBuilder) (tokens : list jsstring) (matches : list Match)
    (st : ScriptState) :
  ordered_from 0 matches →
  script st = omap turn_item (turns st) →
  Forall (turn_ok b tokens matches) (turns st) →
  (∀ j, j < length tokens →
     (j ∈ turn_index <$> turns st
      ↔ j ∉ covered_set matches ∨ ∃ m, m ∈ matches ∧ start m = j)) →
  (∃ text, NoClipItem text ∈ script st)
  ↔ ∃ i tok, tokens !! i = Some tok ∧ (i ∉ covered_set matches)
             ∧ inherits_clip b tok = true.
Proof.
  intros Ho Hsc Hok Hmem. rewrite Forall_forall in Hok. rewrite Hsc. split.
  - intros (text & Hin). apply list_elem_of_omap in Hin as (t & Ht & Hitem).
    specialize (Hok t Ht). unfold turn_ok in Hok.
    destruct (turn_action t) as [m|tok|]; [| |done].
    + destruct Hok as (_ & _ & Hphrase). by destruct (Hphrase _ Hitem) as (clip & _ & ?).
    + destruct Hok as (Htok & Hunc & Hstatic). exists (turn_index t), tok.
      split; [done|]. split; [done|]. rewrite Hitem in Hstatic.
      unfold static_item in Hstatic. unfold inherits_clip.
      by destruct (getStaticClip b tok) as [[c|mem]|].
  - intros (i & tok & Htok & Hunc & Hinh).
    pose proof (lookup_lt_Some _ _ _ Htok) as Hlt.
    assert (i ∈ turn_index <$> turns st) as Hi by (apply Hmem; [done|by left]).
    apply list_elem_of_fmap in Hi as (t & -> & Ht).
    specialize (Hok t Ht). unfold turn_ok in Hok.
    destruct (turn_action t) as [m|tok'|]; [| |done].
    + destruct Hok as (Hm & Hs & _). destruct Hunc. apply covered_set_spec.
      exists m. split; [done|]. pose proof (ordered_from_elem _ _ _ Ho Hm).
      unfold in_range_of. lia.
    + destruct Hok as (Htok' & _ & Hstatic). rewrite Htok in Htok'. injection Htok' as <-.
      exists tok. apply list_elem_of_omap. exists t. split; [done|].
      rewrite Hstatic. unfold static_item. unfold inherits_clip in Hinh.
      by destruct (getStaticClip b tok) as [[c|mem]|].
Qed.

(** What [generatePlaylist] does with [fixedTokens]: it throws in
    [selectClip] when a match has no pool of its own, it throws in
    [buildM3U8] when the static clip of a token that no match covers is a
    member of [Object.prototype], and it returns otherwise. *)
Lemma generatePlaylist_outcome (hashIndex : jsstring → N) (toFixed : float → nat → jsstring)
    (env : Env) (b : HLSBuilder) (sessionId : jsstring) (tokens : list jsstring) :
  fixedTokens b = Some tokens →
  let matches := greedyMatchPhrases b tokens in
  ((∃ m, m ∈ matches ∧ phraseClips b !! phrase m = None) →
   generatePlaylist hashIndex toFixed env b sessionId = Throw TypeError)
  ∧ ((∀ m, m ∈ matches → is_Some (phraseClips b !! phrase m)) →
     (∃ i tok, tokens !! i = Some tok ∧ (i ∉ covered_set matches)
               ∧ inherits_clip b tok = true) →
     generatePlaylist hashIndex toFixed env b sessionId = Throw TypeError)
  ∧ ((∀ m, m ∈ matches → is_Some (phraseClips b !! phrase m)) →
     (∀ i tok, tokens !! i = Some tok → (i ∉ covered_set matches) →
               inherits_clip b tok = false) →
     ∃ script,
       generateScript hashIndex b tokens matches sessionId = Ok (Item <$> script)
       ∧ generatePlaylist hashIndex toFixed env b sessionId
         = Ok (mkGenerated (buildM3U8 toFixed env script sessionId) script tokens matches)).
Proof.
  intros Htok matches.
  pose proof (match_loop_ordered b (length tokens) tokens 0) as Ho.
  fold (greedyMatchPhrases b tokens) in Ho. fold matches in Ho.
  unfold generatePlaylist, generateScript. rewrite Htok. fold matches.
  split; [|split].
  - intros Hbad. unfold matches in *.
    by rewrite (generateScript_run_throws hashIndex b tokens sessionId Hbad).
  - intros Hown Hinh.
    destruct (generateScript_run_turns hashIndex b tokens sessionId Hown)
      as (st & Hrun & Hsc & Hok & _ & Hmem).
    fold matches in Hrun, Hok, Hmem. rewrite Hrun. cbn.
    destruct (proj2 (script_NoClipItem_iff b tokens matches st Ho Hsc Hok Hmem) Hinh)
      as [text Hin].
    by rewrite (script_items_NoClipItem _ text Hin).
  - intros Hown Hclean.
    destruct (generateScript_run_turns hashIndex b tokens sessionId Hown)
      as (st & Hrun & Hsc & Hok & _ & Hmem).
    fold matches in Hrun, Hok, Hmem. rewrite Hrun. cbn.
    assert (script st = Item <$> clip_items (script st)) as Hitems.
    { apply script_all_items. intros text Hin.
      assert (∃ text, NoClipItem text ∈ script st) as Hex by by exists text.
      destruct (proj1 (script_NoClipItem_iff b tokens matches st Ho Hsc Hok Hmem) Hex)
        as (i & tok & Hi & Hunc & Hinh).
      by rewrite (Hclean i tok Hi Hunc) in Hinh. }
    exists (clip_items (script st)). split; [by f_equal|].
    rewrite Hitems at 1. by rewrite script_items_fmap.
Qed.

(** C9 (what the code does). Without [fixedTokens], [generatePlaylist]
    throws the error [No fixed text available in manifest] and makes no
    playlist. With [fixedTokens] it returns, with the playlist of the script
    of the matches of the matcher, when every match has a pool of its own
    and no token outside the matches reads a member of [Object.prototype]
    as its static clip; otherwise it throws a [TypeError], in [selectClip]
    or in [buildM3U8]. It returns when no token and no slug of a token is
    the name of a member of [Object.prototype]. It throws for the manifests
    of [constructor_builder] and [proto_builder], which have [fixedTokens]. *)
Theorem generatePlaylist_fails_only_without_tokens (hashIndex : jsstring → N)
    (toFixed : float → nat → jsstring) (env : Env) (b : HLSBuilder) (sessionId : jsstring) :
  (fixedTokens b = None →
     generatePlaylist hashIndex toFixed env b sessionId
     = Throw (Error (js "No fixed text available in manifest")))
  ∧ (∀ tokens, fixedTokens b = Some tokens →
       let matches := greedyMatchPhrases b tokens in
       ((∃ m, m ∈ matches ∧ phraseClips b !! phrase m = None) →
        generatePlaylist hashIndex toFixed env b sessionId = Throw TypeError)
       ∧ ((∀ m, m ∈ matches → is_Some (phraseClips b !! phrase m)) →
          (∃ i tok, tokens !! i = Some tok ∧ (i ∉ covered_set matches)
                    ∧ inherits_clip b tok = true) →
          generatePlaylist hashIndex toFixed env b sessionId = Throw TypeError)
       ∧ ((∀ m, m ∈ matches → is_Some (phraseClips b !! phrase m)) →
          (∀ i tok, tokens !! i = Some tok → (i ∉ covered_set matches) →
                    inherits_clip b tok = false) →
          ∃ script,
            generateScript hashIndex b tokens matches sessionId = Ok (Item <$> script)
            ∧ generatePlaylist hashIndex toFixed env b sessionId
              = Ok (mkGenerated (buildM3U8 toFixed env script sessionId) script tokens
                                matches)))
  ∧ (∀ tokens, fixedTokens b = Some tokens →
       Forall (λ tok, inherited tok = None ∧ inherited (slugify tok) = None) tokens →
       ∃ result, generatePlaylist hashIndex toFixed env b sessionId = Ok result)
  ∧ generatePlaylist hashIndex toFixed env b sessionId ≠ Diverge
  ∧ is_Some (fixedTokens constructor_builder)
  ∧ generatePlaylist hashIndex toFixed env constructor_builder sessionId = Throw TypeError
  ∧ is_Some (fixedTokens proto_builder)
  ∧ generatePlaylist hashIndex toFixed env proto_builder sessionId = Throw TypeError.
Proof.
  split; [|split; [|split; [|split; [|split; [|split; [|split]]]]]].
  - intros Hnone. unfold generatePlaylist. by rewrite Hnone.
  - intros tokens Htok. by apply generatePlaylist_outcome.
  - intros tokens Htok Hnames.
    destruct (generatePlaylist_outcome hashIndex toFixed env b sessionId tokens Htok)
      as (_ & _ & Hok).
    destruct Hok as (script & _ & Hgen); [| |by eexists].
    + apply greedy_own_pools. eapply Forall_impl; [exact Hnames|]. by intros tok [? _].
    + intros i tok Hi _. apply inherits_clip_false.
      rewrite Forall_forall in Hnames.
      by destruct (Hnames tok (list_elem_of_lookup_2 _ _ _ Hi)).
  - destruct (fixedTokens b) as [tokens|] eqn:Htok.
    2: { unfold generatePlaylist. by rewrite Htok. }
    destruct (generatePlaylist_outcome hashIndex toFixed env b sessionId tokens Htok)
      as (Hthrow & _ & _).
    destruct (decide (Forall (λ m, is_Some (phraseClips b !! phrase m))
                        (greedyMatchPhrases b tokens))) as [Hown|Hbad].
    + rewrite Forall_forall in Hown.
      destruct (generateScript_run_turns hashIndex b tokens sessionId Hown) as (st & Hrun & _).
      unfold generatePlaylist, generateScript, script_items. rewrite Htok, Hrun. cbn.
      by destruct (mapM item_of (script st)).
    + apply not_Forall_Exists in Hbad; [|apply _].
      apply Exists_exists in Hbad as (m & Hm & Hnone). cbn in Hnone.
      apply eq_None_not_Some in Hnone. rewrite Hthrow; [done|]. by exists m.
  - by eexists.
  - apply (proj1 (generatePlaylist_outcome hashIndex toFixed env constructor_builder sessionId
                    [js "constructor"; js "foo"] eq_refl)).
    exists (mkMatch (js "constructor") 0 1). split; [|reflexivity].
    change (greedyMatchPhrases constructor_builder [js "constructor"; js "foo"])
      with [mkMatch (js "constructor") 0 1].
    apply elem_of_cons. by left.
  - by eexists.
  - apply (proj1 (proj2 (generatePlaylist_outcome hashIndex toFixed env proto_builder
                           sessionId [js "__proto__"] eq_refl))).
    + change (greedyMatchPhrases proto_builder [js "__proto__"]) with (@nil Match).
      by intros m Hm%elem_of_nil.
    + exists 0, (js "__proto__"). split; [done|]. split; [|reflexivity].
      change (greedyMatchPhrases proto_builder [js "__proto__"]) with (@nil Match).
      apply not_elem_of_empty.
Qed.

(** ** The clock *)







(** ** The serializer *)

Lemma single_line_check (s : jsstring) :
  forallb (λ c, negb (c =? 10)%N) s = true → single_line s.
Proof.
  intros H Hin. rewrite forallb_forall in H.
  apply list_elem_of_In, H in Hin. done.
Qed.

Lemma single_line_app (s t : jsstring) :
  single_line s → single_line t → single_line (s ++ t).
Proof. unfold single_line. intros ? ?. by apply not_elem_of_app. Qed.

Lemma single_line_digits (d : Decimal.uint) :
  single_line (js (NilEmpty.string_of_uint d)).
Proof.
  unfold single_line. induction d; cbn;
    try (apply not_elem_of_cons; split; [discriminate|done]).
  apply not_elem_of_nil.
Qed.

Lemma single_line_number (d : Decimal.uint) :
  single_line (js (NilZero.string_of_uint d)).
Proof.
  destruct d; try apply (single_line_digits (_ d)).
  by apply single_line_check.
Qed.

Lemma single_line_nat (n : nat) : single_line (nat_to_js n).
Proof. apply single_line_number. Qed.

Lemma single_line_fixed_digits (n : N) (digits : nat) :
  single_line (fixed_digits n digits).
Proof.
  unfold fixed_digits. destruct (digits =? 0); [apply single_line_number|].
  set (m := replicate _ _ ++ _).
  assert (single_line m) as Hm.
  { apply single_line_app; [|apply single_line_number].
    intros [? _]%elem_of_replicate. discriminate. }
  repeat apply single_line_app.
  - intros Hin. apply Hm. by apply (subseteq_take _ _ _ Hin).
  - by apply single_line_check.
  - intros Hin. apply Hm. by apply (subseteq_drop _ _ _ Hin).
Qed.

Lemma single_line_toFixed_decimal (x : float) (digits : nat) :
  single_line (toFixed_decimal x digits).
Proof.
  unfold toFixed_decimal. destruct (Prim2SF x) as [s|[]| |[] m e];
    try (by apply single_line_check);
    try apply single_line_fixed_digits.
  apply single_line_app; [by apply single_line_check|apply single_line_fixed_digits].
Qed.

(** *** Splitting what was joined *)

Lemma split_lines_from_single (line s rest : jsstring) :
  single_line s →
  split_lines_from line (s ++ rest) = split_lines_from (line ++ s) rest.
Proof.
  revert line. induction s as [|c s IH]; intros line Hs; cbn.
  - by rewrite app_nil_r.
  - apply not_elem_of_cons in Hs as [Hc Hs].
    destruct (N.eqb_spec c 10) as [->|_]; [done|].
    rewrite IH by done. by rewrite <- app_assoc.
Qed.

Lemma split_lines_from_join (line p : jsstring) (rest : list jsstring) :
  Forall single_line (p :: rest) →
  split_lines_from line (join [10%N] (p :: rest)) = (line ++ p) :: rest.
Proof.
  revert line p. induction rest as [|q r IH]; intros line p H.
  - cbn [join]. rewrite <- (app_nil_r p) at 1.
    rewrite split_lines_from_single; [done|]. by apply Forall_cons in H as [? _].
  - change (join [10%N] (p :: q :: r)) with (p ++ 10%N :: join [10%N] (q :: r)).
    apply Forall_cons in H as [Hp Hrest].
    rewrite split_lines_from_single by done. cbn [split_lines_from].
    change (10 =? 10)%N with true. cbv iota. f_equal. by rewrite IH.
Qed.

Lemma split_lines_join (lines : list jsstring) :
  lines ≠ [] → Forall single_line lines → split_lines (join [10%N] lines) = lines.
Proof.
  destruct lines as [|p rest]; [done|]. intros _ H.
  unfold split_lines. by rewrite split_lines_from_join.
Qed.

(** *** The lines of a playlist *)

Lemma segments_lines toFixed env script total :
  (segments toFixed env script total).1 = concat (segment_lines toFixed env <$> script).
Proof.
  revert total. induction script as [|item rest IH]; intros total; [done|].
  cbn [segments]. specialize (IH (total + item_duration item)%float).
  destruct (segments toFixed env rest _) as [ls t]. cbn in *. by rewrite IH.
Qed.

Lemma playlist_lines_layout toFixed env script sessionId :
  ∃ total,
    playlist_lines toFixed env script sessionId
    = header_lines env script sessionId
      ++ opener_lines toFixed env
      ++ concat (segment_lines toFixed env <$> script)
      ++ [ js "#EXT-X-ENDLIST"; js "# Total duration: " ++ toFixed total 1 ++ js "s" ].
Proof.
  unfold playlist_lines.
  pose proof (segments_lines toFixed env script (0 + openerDuration)%float) as Hs.
  destruct (segments toFixed env script _) as [ls total]. cbn [fst] in Hs. subst ls.
  exists total. by rewrite <- !app_assoc.
Qed.

Lemma header_lines_tags env script sessionId :
  Forall (λ line, is_extinf line = false ∧ is_uri_line line = false)
    (header_lines env script sessionId).
Proof. repeat constructor. Qed.

Lemma uri_not_extinf (url : jsstring) : is_uri_line url = true → is_extinf url = false.
Proof.
  unfold is_uri_line, is_extinf. destruct url as [|c s]; [done|].
  change (js "#EXTINF:") with (35%N :: js "EXTINF:"). change (js "#") with [35%N].
  cbn [starts_with truthy]. by destruct (35 =? c)%N.
Qed.

Lemma uri_prefix (u rest : jsstring) :
  truthy u = true → starts_with (js "#") u = false → is_uri_line (u ++ rest) = true.
Proof.
  destruct u as [|c u']; [done|]. intros _. unfold is_uri_line.
  change (js "#") with [35%N]. cbn [app starts_with truthy].
  by destruct (35 =? c)%N.
Qed.

Section Serializer.
Variable toFixed : float → nat → jsstring.
Variable env : Env.
Hypothesis base_single_line : ∀ u, r2BaseUrl env = Some u → single_line u.
Hypothesis base_not_tag : ∀ u, r2BaseUrl env = Some u → starts_with (js "#") u = false.
Hypothesis toFixed_single_line : ∀ x digits, single_line (toFixed x digits).

Lemma configured_base_Some u :
  configured_base env = Some u → r2BaseUrl env = Some u ∧ truthy u = true.
Proof.
  unfold configured_base. destruct (r2BaseUrl env) as [v|]; [|done].
  destruct (truthy v) eqn:E; [|done]. by intros [= <-].
Qed.

Lemma openerPath_uri : is_uri_line (openerPath env) = true.
Proof.
  unfold openerPath. destruct (configured_base env) as [u|] eqn:E; [|done].
  apply configured_base_Some in E as [Hu Ht]. apply uri_prefix; [done|by apply base_not_tag].
Qed.

Lemma clipPath_uri item : is_uri_line (clipPath env item) = true.
Proof.
  unfold clipPath. destruct (configured_base env) as [u|] eqn:E.
  - apply configured_base_Some in E as [Hu Ht].
    destruct (item_type item); (apply uri_prefix; [done|by apply base_not_tag]).
  - by destruct (item_type item).
Qed.

Lemma openerPath_single_line : single_line (openerPath env).
Proof.
  unfold openerPath. destruct (configured_base env) as [u|] eqn:E.
  - apply configured_base_Some in E as [Hu Ht].
    apply single_line_app; [by apply base_single_line|by apply single_line_check].
  - by apply single_line_check.
Qed.

Lemma clipPath_single_line item :
  single_line (item_filename item) → single_line (clipPath env item).
Proof.
  intros Hf. unfold clipPath. destruct (configured_base env) as [u|] eqn:E.
  - apply configured_base_Some in E as [Hu Ht].
    destruct (item_type item);
      (apply single_line_app; [by apply base_single_line|];
       apply single_line_app; [by apply single_line_check|done]).
  - destruct (item_type item);
      (apply single_line_app; [by apply single_line_check|done]).
Qed.

Lemma extinf_line_single_line x :
  single_line (js "#EXTINF:" ++ toFixed x 3 ++ js ",").
Proof.
  apply single_line_app; [by apply single_line_check|].
  apply single_line_app; [apply toFixed_single_line|by apply single_line_check].
Qed.

Lemma segments_single_line script :
  Forall (λ item, single_line (item_filename item)) script →
  Forall single_line (concat (segment_lines toFixed env <$> script)).
Proof.
  induction 1 as [|item rest Hitem Hrest IH]; [constructor|].
  cbn. repeat constructor; try done.
  - by apply single_line_check.
  - apply extinf_line_single_line.
  - by apply clipPath_single_line.
Qed.
End Serializer.

(** *** The lines around [#EXTINF] *)

Lemma extinf_framed_app (l1 l2 : list jsstring) :
  extinf_framed l1 → extinf_framed l2 → extinf_framed (l1 ++ l2).
Proof.
  intros H1 H2 k line Hk He. destruct (decide (k < length l1)) as [Hlt|Hge].
  - rewrite lookup_app_l in Hk by done.
    destruct (H1 k line Hk He) as (url & Hk1 & Hprev & Hnext & Huri).
    exists url. split; [done|]. split; [|split; [|done]].
    + rewrite lookup_app_l; [done|lia].
    + rewrite lookup_app_l; [done|]. by apply lookup_lt_Some in Hnext.
  - rewrite lookup_app_r in Hk by lia.
    destruct (H2 _ line Hk He) as (url & Hk1 & Hprev & Hnext & Huri).
    exists url. split; [lia|]. split; [|split; [|done]].
    + rewrite lookup_app_r by lia.
      by replace (k - 1 - length l1) with (k - length l1 - 1) by lia.
    + rewrite lookup_app_r by lia.
      by replace (k + 1 - length l1) with (k - length l1 + 1) by lia.
Qed.

Lemma extinf_framed_none (l : list jsstring) :
  Forall (λ line, is_extinf line = false) l → extinf_framed l.
Proof.
  intros H k line Hk He. rewrite Forall_forall in H.
  specialize (H line (list_elem_of_lookup_2 _ _ _ Hk)). congruence.
Qed.

Lemma extinf_framed_segment (d url : jsstring) :
  is_uri_line url = true →
  extinf_framed [js "#EXT-X-DISCONTINUITY"; js "#EXTINF:" ++ d; url].
Proof.
  intros Hu k line Hk He. destruct k as [|[|[|k]]]; cbn in Hk; [| | |done].
  - injection Hk as <-. discriminate He.
  - exists url. by repeat split.
  - injection Hk as <-. rewrite uri_not_extinf in He; done.
Qed.

Lemma extinf_framed_segments toFixed env (script : list ScriptItem) :
  (∀ item, is_uri_line (clipPath env item) = true) →
  extinf_framed (concat (segment_lines toFixed env <$> script)).
Proof.
  intros Huri. induction script as [|item rest IH].
  - by apply extinf_framed_none.
  - cbn [fmap list_fmap concat]. apply extinf_framed_app; [|done].
    unfold segment_lines. apply extinf_framed_segment, Huri.
Qed.

Lemma count_extinf_segments toFixed env (script : list ScriptItem) :
  (∀ item, is_uri_line (clipPath env item) = true) →
  length (List.filter is_extinf (concat (segment_lines toFixed env <$> script)))
  = length script
  ∧ length (List.filter is_uri_line (concat (segment_lines toFixed env <$> script)))
    = length script.
Proof.
  intros Huri. induction script as [|item rest [IH1 IH2]]; [done|].
  cbn [fmap list_fmap concat segment_lines app List.filter].
  rewrite (uri_not_extinf _ (Huri item)), (Huri item).
  change (is_extinf (js "#EXT-X-DISCONTINUITY")) with false.
  change (is_uri_line (js "#EXT-X-DISCONTINUITY")) with false.
  change (is_extinf (js "#EXTINF:" ++ ?d)) with true.
  change (is_uri_line (js "#EXTINF:" ++ ?d)) with false.
  cbn [length]. by rewrite IH1, IH2.
Qed.

Lemma lookup_last_two {A} (pre : list A) (a b : A) :
  (pre ++ [a; b]) !! (length (pre ++ [a; b]) - 2) = Some a
  ∧ (pre ++ [a; b]) !! (length (pre ++ [a; b]) - 1) = Some b.
Proof.
  rewrite length_app. cbn [length]. split; rewrite lookup_app_r by lia.
  - by replace (length pre + 2 - 2 - length pre) with 0 by lia.
  - by replace (length pre + 2 - 1 - length pre) with 1 by lia.
Qed.

(** C6 (as amended). When the session id, the time stamp, the configured
    base URL, the filenames of the script and the strings [toFixed] prints
    hold no line feed, and the base URL does not start with [#]: the lines of
    the playlist string are the lines [buildM3U8] joined; the first is
    [#EXTM3U]; the last but one is [#EXT-X-ENDLIST] and the last is the
    comment with the total duration; every [#EXTINF] line comes right after a
    [#EXT-X-DISCONTINUITY] line and right before a URI line; and there are
    [script.length + 1] [#EXTINF] lines and as many URI lines, that is
    [script.length] segments after the opener. *)
Theorem buildM3U8_structure (toFixed : float → nat → jsstring) (env : Env)
    (script : list ScriptItem) (sessionId : jsstring) :
  single_line sessionId →
  single_line (now env) →
  (∀ u, r2BaseUrl env = Some u → single_line u ∧ starts_with (js "#") u = false) →
  Forall (λ item, single_line (item_filename item)) script →
  (∀ x digits, single_line (toFixed x digits)) →
  let lines := split_lines (buildM3U8 toFixed env script sessionId) in
  lines = playlist_lines toFixed env script sessionId
  ∧ lines !! 0 = Some (js "#EXTM3U")
  ∧ (∃ total,
       lines !! (length lines - 2) = Some (js "#EXT-X-ENDLIST")
       ∧ lines !! (length lines - 1)
         = Some (js "# Total duration: " ++ toFixed total 1 ++ js "s"))
  ∧ extinf_framed lines
  ∧ length (List.filter is_extinf lines) = length script + 1
  ∧ length (List.filter is_uri_line lines) = length script + 1.
Proof.
  intros Hsid Hnow Hbase Hfiles Hfixed lines.
  assert (∀ u, r2BaseUrl env = Some u → single_line u) as Hb1 by (intros u Hu; by apply Hbase).
  assert (∀ u, r2BaseUrl env = Some u → starts_with (js "#") u = false) as Hb2
    by (intros u Hu; by apply Hbase).
  destruct (playlist_lines_layout toFixed env script sessionId) as [total Hlayout].
  assert (lines = playlist_lines toFixed env script sessionId) as Hlines.
  { subst lines. unfold buildM3U8. apply split_lines_join.
    - rewrite Hlayout. discriminate.
    - rewrite Hlayout. repeat (apply Forall_app; split).
      + repeat constructor; try (by apply single_line_check).
        * apply single_line_app; [by apply single_line_check|done].
        * apply single_line_app; [by apply single_line_check|done].
        * apply single_line_app; [by apply single_line_check|apply single_line_nat].
      + repeat constructor.
        * by apply single_line_check.
        * by apply extinf_line_single_line.
        * by apply openerPath_single_line.
      + by apply segments_single_line.
      + repeat constructor; [by apply single_line_check|].
        apply single_line_app; [by apply single_line_check|].
        apply single_line_app; [done|by apply single_line_check]. }
  rewrite Hlines. clear lines Hlines. rewrite Hlayout.
  pose proof (openerPath_uri env Hb1 Hb2) as Hopener.
  pose proof (clipPath_uri env Hb1 Hb2) as Hclip.
  destruct (count_extinf_segments toFixed env script Hclip) as [Hc1 Hc2].
  pose proof (header_lines_tags env script sessionId) as Hheader.
  assert (List.filter is_extinf (header_lines env script sessionId) = []
          ∧ List.filter is_uri_line (header_lines env script sessionId) = []) as [Hh1 Hh2].
  { split; reflexivity. }
  assert (length (List.filter is_extinf (opener_lines toFixed env)) = 1
          ∧ length (List.filter is_uri_line (opener_lines toFixed env)) = 1) as [Ho1 Ho2].
  { unfold opener_lines. cbn [List.filter].
    rewrite (uri_not_extinf _ Hopener), Hopener. split; reflexivity. }
  split; [done|]. split; [done|]. split; [|split; [|split]].
  - exists total. rewrite !app_assoc. apply lookup_last_two.
  - apply extinf_framed_app.
    { apply extinf_framed_none. eapply Forall_impl; [exact Hheader|]. by intros line [? _]. }
    apply extinf_framed_app; [by apply extinf_framed_segment|].
    apply extinf_framed_app; [by apply extinf_framed_segments|].
    apply extinf_framed_none. by repeat constructor.
  - rewrite !List.filter_app, !length_app, Hc1, Hh1, Ho1. cbn [length].
    change (length (List.filter is_extinf [_; _])) with 0. lia.
  - rewrite !List.filter_app, !length_app, Hc2, Hh2, Ho2. cbn [length].
    change (length (List.filter is_uri_line [_; _])) with 0. lia.
Qed.

Lemma buildM3U8_structure_witness :
  let lines := split_lines (buildM3U8 toFixed_decimal r2_env demo_script (js "abc")) in
  lines = playlist_lines toFixed_decimal r2_env demo_script (js "abc")
  ∧ lines !! 0 = Some (js "#EXTM3U")
  ∧ (∃ total,
       lines !! (length lines - 2) = Some (js "#EXT-X-ENDLIST")
       ∧ lines !! (length lines - 1)
         = Some (js "# Total duration: " ++ toFixed_decimal total 1 ++ js "s"))
  ∧ extinf_framed lines
  ∧ length (List.filter is_extinf lines) = length demo_script + 1
  ∧ length (List.filter is_uri_line lines) = length demo_script + 1.
Proof.
  apply (buildM3U8_structure toFixed_decimal r2_env demo_script (js "abc")).
  - by apply single_line_check.
  - by apply single_line_check.
  - intros u [= <-]. split; [by apply single_line_check|reflexivity].
  - repeat constructor; by apply single_line_check.
  - apply single_line_toFixed_decimal.
Defined.

(** C6 (the claim as stated fails). The playlist of the empty script ends
    with the comment line of the total duration, not with [#EXT-X-ENDLIST],
    which is the line before it. And when a filename holds a line feed
    followed by [#EXTINF:9,], the playlist has an [#EXTINF] line whose
    previous line is not [#EXT-X-DISCONTINUITY]. *)
Lemma buildM3U8_ends_with_comment :
  let lines := split_lines (buildM3U8 toFixed_decimal demo_env [] (js "abc")) in
  let lines' := split_lines (buildM3U8 toFixed_decimal demo_env two_line_script (js "abc")) in
  last lines = Some (js "# Total duration: 8.1s")
  ∧ last lines ≠ Some (js "#EXT-X-ENDLIST")
  ∧ lines !! (length lines - 2) = Some (js "#EXT-X-ENDLIST")
  ∧ lines' !! 13 = Some (js "#EXTINF:9,")
  ∧ is_extinf (js "#EXTINF:9,") = true
  ∧ lines' !! 12 = Some (js "/hls_clips/static/a")
  ∧ ¬ extinf_framed lines'.
Proof.
  cbv zeta.
  assert (split_lines (buildM3U8 toFixed_decimal demo_env two_line_script (js "abc")) !! 13
          = Some (js "#EXTINF:9,")) as H13 by (vm_compute; reflexivity).
  assert (split_lines (buildM3U8 toFixed_decimal demo_env two_line_script (js "abc")) !! 12
          = Some (js "/hls_clips/static/a")) as H12 by (vm_compute; reflexivity).
  repeat split; try (vm_compute; reflexivity); try done.
  intros Hframed. destruct (Hframed 13 _ H13 eq_refl) as (url & _ & Hprev & _).
  cbn [Nat.sub] in Hprev. rewrite H12 in Hprev. vm_compute in Hprev. discriminate.
Qed.

(** ** Further properties *)

Example tokenize_double_hyphen :
  tokenize (js "wait -- what's that?")
  = [js "wait"; js "--"; js "what's"; js "that"; js "?"].
Proof. reflexivity. Qed.

(** X1. The end-to-end scenario: with the phrase [hello world] (one clip,
    [hw.ts], 2 seconds) and the static word [foo] ([foo.ts], 0.5 seconds),
    the tokens [hello], [world], [foo] give the script of the phrase item
    followed by the static item, whatever the hash of the seed; the durations
    of the script add up to 2.5. *)
Theorem end_to_end_scenario (hashIndex : jsstring → N) (sessionId : jsstring) :
  let tokens := [js "hello"; js "world"; js "foo"] in
  greedyMatchPhrases scenario_builder tokens = [mkMatch (js "hello world") 0 2]
  ∧ generateScript hashIndex scenario_builder tokens
      (greedyMatchPhrases scenario_builder tokens) sessionId
    = Ok [ Item (mkItem (js "hello world") (js "hw.ts") 2 phrase_type);
           Item (mkItem (js "foo") (js "foo.ts") 0.5 static_type) ]
  ∧ (2 + 0.5 = 2.5)%float.
Proof.
  cbv zeta.
  assert (greedyMatchPhrases scenario_builder [js "hello"; js "world"; js "foo"]
          = [mkMatch (js "hello world") 0 2]) as -> by (vm_compute; reflexivity).
  split; [done|]. split; [|reflexivity].
  unfold generateScript, generateScript_run. cbn [length].
  erewrite script_loop_phrase;
    [|reflexivity|reflexivity|reflexivity
     |apply (selectClip_singleton hashIndex (demo_clip "hw.ts" 2))].
  erewrite script_loop_static; [|reflexivity|reflexivity|by vm_compute].
  rewrite script_loop_end by reflexivity.
  vm_compute. reflexivity.
Qed.

(** X2. A phrase is matched only when the test of line 150 accepts it:
    every match the matcher returns has a truthy entry of its own in
    [phraseMap], or none while [Object.prototype] has a member of that name;
    and a pool of its own in [phraseClips] that is not empty, or none while
    [Object.prototype] has a function with parameters of that name, as for
    the one token [constructor]. Such a name is one token. A phrase that is
    no such name has entries of its own in both tables. The phrase of a
    match is the tokens of its range joined with spaces, none of them
    punctuation. *)
Theorem matched_phrase_has_clips (b : HLSBuilder) (tokens : list jsstring) (m : Match) :
  m ∈ greedyMatchPhrases b tokens →
  (phraseMap b !! phrase m = Some true
   ∨ (phraseMap b !! phrase m = None ∧ is_Some (inherited (phrase m))))
  ∧ ((∃ pool, phraseClips b !! phrase m = Some pool ∧ pool ≠ [])
     ∨ (phraseClips b !! phrase m = None
        ∧ ∃ arity, inherited (phrase m) = Some (MemberFunction (S arity))))
  ∧ (is_Some (inherited (phrase m)) → end_ m = start m + 1)
  ∧ (inherited (phrase m) = None →
     phraseMap b !! phrase m = Some true
     ∧ ∃ pool, phraseClips b !! phrase m = Some pool ∧ pool ≠ [])
  ∧ end_ m ≤ length tokens
  ∧ phrase m = join [32%N] (slice tokens (start m) (end_ m))
  ∧ Forall (λ tok, is_punctuation tok = false) (slice tokens (start m) (end_ m))
  ∧ greedyMatchPhrases constructor_builder [js "constructor"; js "foo"]
    = [mkMatch (js "constructor") 0 1].
Proof.
  intros Hin. apply match_loop_elem in Hin as (tok & Htok & Hstep).
  apply match_step_Some in Hstep as (_ & _ & _ & E).
  apply try_lengths_Some in E as (HL & Hc & Hav & _).
  apply available_spec in Hav as [Hmap Hpool].
  pose proof (candidate_Some_length _ _ _ Hc) as Hlen. rewrite length_drop in Hlen.
  pose proof (lookup_lt_Some _ _ _ Htok) as Hlt.
  assert (phrase m = join [32%N] (slice tokens (start m) (end_ m))
          ∧ Forall (λ tok, is_punctuation tok = false) (slice tokens (start m) (end_ m)))
    as [Hjoin Hwords].
  { unfold candidate in Hc. unfold slice.
    destruct (Nat.eqb_spec (length (collect (drop (start m) tokens) (end_ m - start m)))
                (end_ m - start m)) as [Hcl|]; [|done].
    injection Hc as Hc.
    assert (∀ toks len, length (collect toks len) = len →
              collect toks len = take len toks
              ∧ Forall (λ tok, is_punctuation tok = false) (take len toks)) as Hcollect.
    { clear. intros toks len. revert toks.
      induction len as [|n IH]; intros [|t rest]; cbn; try done.
      destruct (is_punctuation t) eqn:Ep; [done|]. cbn. intros [= Hn].
      destruct (IH rest Hn) as [-> ?]. split; [done|]. by constructor. }
    destruct (Hcollect _ _ Hcl) as [Heq Hall]. rewrite Heq in Hc. done. }
  split; [done|]. split; [done|]. split; [|split; [|split; [lia|]]].
  - intros [_ Hw]%inherited_word.
    assert (length (slice tokens (start m) (end_ m)) = end_ m - start m) as Hsl.
    { unfold slice. rewrite length_take, length_drop. lia. }
    destruct (slice tokens (start m) (end_ m)) as [|x [|y rest]]; cbn in Hsl; [lia..|].
    rewrite Hjoin in Hw. rewrite Forall_forall in Hw.
    by specialize (Hw _ (join_space x y rest)).
  - intros Hnone. rewrite Hnone in Hmap, Hpool. split.
    + destruct Hmap as [|[_ []]]; done.
    + destruct Hpool as [|[_ [? ?]]]; done.
  - split; [done|]. split; [done|]. vm_compute. reflexivity.
Qed.

Lemma matched_phrase_has_clips_witness :
  (phraseMap demo_builder !! js "good morning" = Some true
   ∨ (phraseMap demo_builder !! js "good morning" = None
      ∧ is_Some (inherited (js "good morning"))))
  ∧ ((∃ pool, phraseClips demo_builder !! js "good morning" = Some pool ∧ pool ≠ [])
     ∨ (phraseClips demo_builder !! js "good morning" = None
        ∧ ∃ arity, inherited (js "good morning") = Some (MemberFunction (S arity))))
  ∧ (is_Some (inherited (js "good morning")) → 2 = 0 + 1)
  ∧ (inherited (js "good morning") = None →
     phraseMap demo_builder !! js "good morning" = Some true
     ∧ ∃ pool, phraseClips demo_builder !! js "good morning" = Some pool ∧ pool ≠ [])
  ∧ 2 ≤ length [js "good"; js "morning"; js "foo"; js "."]
  ∧ js "good morning" = join [32%N] (slice [js "good"; js "morning"; js "foo"; js "."] 0 2)
  ∧ Forall (λ tok, is_punctuation tok = false)
      (slice [js "good"; js "morning"; js "foo"; js "."] 0 2)
  ∧ greedyMatchPhrases constructor_builder [js "constructor"; js "foo"]
    = [mkMatch (js "constructor") 0 1].
Proof.
  apply (matched_phrase_has_clips demo_builder
           [js "good"; js "morning"; js "foo"; js "."] (mkMatch (js "good morning") 0 2)).
  change (greedyMatchPhrases _ _) with [mkMatch (js "good morning") 0 2].
  apply elem_of_cons. by left.
Defined.

(** ** More on the clip selector *)

(** X3. [selectClip] prefers unused clips: when the pool holds a clip whose
    filename is not in [usedClips], the clip it returns is such a clip, at
    the hashed index of the unused clips in pool order. In every case the
    set after the call is the set before plus the filename returned. *)
Theorem selectClip_prefers_unused (hashIndex : jsstring → N) (clips : list Clip)
    (usedClips : gset jsstring) (seedStr : jsstring) (fresh : Clip) :
  fresh ∈ clips → (filename fresh ∉ usedClips) →
  let unused := filter (λ clip, filename clip ∉ usedClips) clips in
  ∃ clip,
    selectClip hashIndex (Some clips) usedClips seedStr
    = Ok (Some clip, usedClips ∪ {[ filename clip ]})
    ∧ unused !! N.to_nat (hashIndex seedStr mod N.of_nat (length unused))%N = Some clip
    ∧ clip ∈ clips
    ∧ filename clip ∉ usedClips.
Proof.
  intros Hin Hfresh unused.
  assert (clips ≠ []) as Hne by (intros ->; by apply elem_of_nil in Hin).
  assert (fresh ∈ unused) as Hfu by (apply list_elem_of_filter; by split).
  assert ((0 <? length unused) = true) as Hpos.
  { apply Nat.ltb_lt. destruct unused; [by apply elem_of_nil in Hfu|cbn; lia]. }
  destruct (selectClip_nonempty hashIndex clips usedClips seedStr Hne)
    as (clip & Hclip & Hsel & Hc).
  cbv zeta in Hclip. fold unused in Hclip. rewrite Hpos in Hclip.
  exists clip. split; [done|]. split; [done|]. split; [done|].
  apply list_elem_of_lookup_2 in Hclip. by apply list_elem_of_filter in Hclip as [? _].
Qed.

Lemma selectClip_prefers_unused_witness :
  ∃ clip,
    selectClip sum_hash (Some [demo_clip "a.ts" 1; demo_clip "b.ts" 2; demo_clip "c.ts" 3])
      {[ js "a.ts"; js "b.ts" ]} (js "seed")
    = Ok (Some clip, {[ js "a.ts"; js "b.ts" ]} ∪ {[ filename clip ]})
    ∧ filter (λ clip, filename clip ∉ ({[ js "a.ts"; js "b.ts" ]} : gset jsstring))
        [demo_clip "a.ts" 1; demo_clip "b.ts" 2; demo_clip "c.ts" 3]
      !! N.to_nat (sum_hash (js "seed")
                   mod N.of_nat (length (filter
                         (λ clip, filename clip ∉ ({[ js "a.ts"; js "b.ts" ]} : gset jsstring))
                         [demo_clip "a.ts" 1; demo_clip "b.ts" 2; demo_clip "c.ts" 3])))%N
      = Some clip
    ∧ clip ∈ [demo_clip "a.ts" 1; demo_clip "b.ts" 2; demo_clip "c.ts" 3]
    ∧ filename clip ∉ ({[ js "a.ts"; js "b.ts" ]} : gset jsstring).
Proof.
  apply (selectClip_prefers_unused sum_hash
           [demo_clip "a.ts" 1; demo_clip "b.ts" 2; demo_clip "c.ts" 3]
           {[ js "a.ts"; js "b.ts" ]} (js "seed") (demo_clip "c.ts" 3)).
  - apply elem_of_cons; right. apply elem_of_cons; right. apply elem_of_cons; by left.
  - intros H. apply (bool_decide_eq_true_2 _) in H. vm_compute in H. discriminate H.
Defined.

(** ** More on the tokenizer *)

Lemma run_char_not_space (c : N) : is_run_char c = true → is_space_char c = false.
Proof.
  unfold is_run_char, is_word_char, is_space_char, in_range. intros H.
  apply not_true_iff_false. intros Hs.
  repeat (rewrite orb_true_iff in H || rewrite andb_true_iff in H
          || rewrite N.leb_le in H || rewrite N.eqb_eq in H).
  repeat (rewrite orb_true_iff in Hs || rewrite andb_true_iff in Hs
          || rewrite N.leb_le in Hs || rewrite N.eqb_eq in Hs).
  lia.
Qed.

Lemma single_char_not_space (c : N) : is_single_char c = true → is_space_char c = false.
Proof.
  unfold is_single_char.
  by destruct (is_word_char c), (is_space_char c), (c =? 39)%N, (c =? 45)%N.
Qed.

Lemma single_char_not_run (c : N) : is_single_char c = true → is_run_char c = false.
Proof.
  unfold is_single_char, is_run_char.
  by destruct (is_word_char c), (is_space_char c), (c =? 39)%N, (c =? 45)%N.
Qed.

Lemma other_char_is_space (c : N) :
  is_run_char c = false → is_single_char c = false → is_space_char c = true.
Proof.
  unfold is_single_char, is_run_char.
  by destruct (is_word_char c), (is_space_char c), (c =? 39)%N, (c =? 45)%N.
Qed.

Lemma flush_concat (run : jsstring) : concat (flush run) = run.
Proof. unfold flush. destruct run; [done|]. cbn. by rewrite app_nil_r. Qed.

Lemma flush_tokens (run : jsstring) :
  forallb is_run_char run = true → Forall (λ t, is_token t = true) (flush run).
Proof.
  intros H. unfold flush. destruct run as [|c r]; [constructor|].
  cbn [truthy]. repeat constructor. unfold is_token. cbn [truthy andb]. by rewrite H.
Qed.

Lemma scan_tokens (run text : jsstring) :
  forallb is_run_char run = true →
  concat (scan run text) = run ++ List.filter (λ c, negb (is_space_char c)) text
  ∧ Forall (λ t, is_token t = true) (scan run text).
Proof.
  revert run. induction text as [|c rest IH]; intros run Hrun; cbn [scan List.filter].
  - rewrite flush_concat, app_nil_r. split; [done|]. by apply flush_tokens.
  - destruct (is_run_char c) eqn:Ec.
    + rewrite (run_char_not_space c Ec). cbn [negb].
      destruct (IH (run ++ [c])) as [IH1 IH2].
      { rewrite forallb_app, Hrun. cbn. by rewrite Ec. }
      split; [|done]. by rewrite IH1, <- app_assoc.
    + destruct (IH []) as [IH1 IH2]; [done|].
      rewrite !concat_app, flush_concat, IH1. cbn [app].
      destruct (is_single_char c) eqn:Es.
      * rewrite (single_char_not_space c Es). cbn. split; [done|].
        apply Forall_app. split; [by apply flush_tokens|].
        constructor; [|done]. unfold is_token. cbn. by rewrite Es, orb_true_r.
      * rewrite (other_char_is_space c Ec Es). cbn. split; [done|].
        apply Forall_app. split; [by apply flush_tokens|done].
Qed.

(** X4. The tokenizer loses white space only: the tokens, put end to end,
    are the text without its white space; and every token is a non-empty run
    of [[\w'-]] or one code unit of [[^\w\s'-]] (so no token is empty and
    none holds white space). *)
Theorem tokenize_loses_only_whitespace (text : jsstring) :
  concat (tokenize text) = List.filter (λ c, negb (is_space_char c)) text
  ∧ Forall (λ t, is_token t = true) (tokenize text).
Proof. unfold tokenize. by destruct (scan_tokens [] text). Qed.

Lemma scan_run_prefix (run t rest : jsstring) :
  forallb is_run_char t = true → scan run (t ++ rest) = scan (run ++ t) rest.
Proof.
  revert run. induction t as [|c t IH]; intros run H; cbn.
  - by rewrite app_nil_r.
  - cbn in H. apply andb_true_iff in H as [Hc Ht]. rewrite Hc, IH by done.
    by rewrite <- app_assoc.
Qed.

Lemma scan_space (run rest : jsstring) :
  scan run (32%N :: rest) = flush run ++ scan [] rest.
Proof. reflexivity. Qed.

Lemma tokenize_join (toks : list jsstring) :
  Forall (λ t, is_token t = true) toks → tokenize (join [32%N] toks) = toks.
Proof.
  unfold tokenize. induction 1 as [|t rest Ht Hrest IH]; [done|].
  unfold is_token in Ht. apply andb_true_iff in Ht as [Hne Hshape].
  assert (∀ X, scan [] (t ++ 32%N :: X) = t :: scan [] X) as Hmid.
  { intros X. apply orb_true_iff in Hshape as [Hrun|Hsingle].
    - rewrite scan_run_prefix by done. cbn [app]. rewrite scan_space.
      unfold flush. by rewrite Hne.
    - destruct t as [|c [|c' t']]; try done. cbn [app scan].
      by rewrite (single_char_not_run c Hsingle), Hsingle. }
  assert (scan [] t = [t]) as Hend.
  { apply orb_true_iff in Hshape as [Hrun|Hsingle].
    - rewrite scan_run by done. unfold flush. cbn [app]. by rewrite Hne.
    - destruct t as [|c [|c' t']]; try done. cbn [scan].
      by rewrite (single_char_not_run c Hsingle), Hsingle. }
  destruct rest as [|q r]; [done|].
  change (join [32%N] (t :: q :: r)) with (t ++ 32%N :: join [32%N] (q :: r)).
  by rewrite Hmid, IH.
Qed.

(** X5. Tokenizing is idempotent through the text: the tokens of a text,
    joined with single spaces and tokenized again, are the same tokens. *)
Theorem tokenize_idempotent (text : jsstring) :
  tokenize (join [32%N] (tokenize text)) = tokenize text.
Proof. apply tokenize_join. unfold tokenize. by destruct (scan_tokens [] text). Qed.

(** ** More on the normalizer *)

Lemma replaceAll_app (old : N) (new a b : jsstring) :
  replaceAll old new (a ++ b) = replaceAll old new a ++ replaceAll old new b.
Proof. unfold replaceAll. apply flat_map_app. Qed.

Lemma replaceAll_unit (old : N) (new : jsstring) (c : N) :
  replaceAll old new [c] = if (c =? old)%N then new else [c].
Proof. unfold replaceAll. cbn. apply app_nil_r. Qed.

Lemma foldl_replace_app (qm : list (N * N)) (a b : jsstring) :
  foldl (λ t '(oldChar, newChar), replaceAll oldChar [newChar] t) (a ++ b) qm
  = foldl (λ t '(oldChar, newChar), replaceAll oldChar [newChar] t) a qm
    ++ foldl (λ t '(oldChar, newChar), replaceAll oldChar [newChar] t) b qm.
Proof.
  revert a b. induction qm as [|[k n] tl IH]; intros a b; [done|].
  cbn [foldl]. by rewrite replaceAll_app, IH.
Qed.

(** A code unit that is no key of the table goes through the table unchanged. *)
Lemma foldl_replace_other (qm : list (N * N)) (c : N) :
  (∀ e, e ∈ qm → c ≠ e.1) →
  foldl (λ t '(oldChar, newChar), replaceAll oldChar [newChar] t) [c] qm = [c].
Proof.
  induction qm as [|[k n] tl IH]; intros Hc; [done|].
  cbn [foldl]. rewrite replaceAll_unit.
  destruct (N.eqb_spec c k) as [->|_].
  - destruct (Hc (k, n)); [apply elem_of_cons; by left|done].
  - apply IH. intros e He. apply Hc, elem_of_cons. by right.
Qed.

(** When no value of the table is a key of it, the replacements one after
    the other are one simultaneous replacement. *)
Lemma foldl_replace_find (qm : list (N * N)) (c : N) :
  (∀ e e', e ∈ qm → e' ∈ qm → e.2 ≠ e'.1) →
  foldl (λ t '(oldChar, newChar), replaceAll oldChar [newChar] t) [c] qm
  = match List.find (λ e, (c =? e.1)%N) qm with
    | Some e => [e.2]
    | None => [c]
    end.
Proof.
  induction qm as [|[k n] tl IH]; intros Hqm; [done|].
  cbn [foldl List.find fst]. rewrite replaceAll_unit.
  destruct (N.eqb_spec c k) as [->|_].
  - cbn [snd]. apply foldl_replace_other. intros e He.
    apply (Hqm (k, n) e); apply elem_of_cons; [by left|by right].
  - apply IH. intros e e' He He'. apply Hqm; apply elem_of_cons; by right.
Qed.

Lemma quoteMap_values_not_keys (e e' : N * N) :
  e ∈ quoteMap → e' ∈ quoteMap → e.2 ≠ e'.1.
Proof.
  intros He He'.
  assert (forallb (λ e, forallb (λ e', negb (e.2 =? e'.1)%N) quoteMap) quoteMap = true)
    as Hall by reflexivity.
  rewrite forallb_forall in Hall. apply list_elem_of_In in He, He'.
  specialize (Hall e He). rewrite forallb_forall in Hall. specialize (Hall e' He').
  apply negb_true_iff, N.eqb_neq in Hall. done.
Qed.

(** The first two steps of the normalizer on one code unit. *)
Lemma fold_steps_unit (c : N) :
  foldl (λ t '(oldChar, newChar), replaceAll oldChar [newChar] t)
    (replaceAll 0x200d []
       (replaceAll 0x200c [] (replaceAll 0x200b [] (replaceAll 0xfeff [] [c]))))
    quoteMap
  = fold_unit c.
Proof.
  unfold fold_unit, is_zero_width. rewrite replaceAll_unit.
  destruct (N.eqb_spec c 0xfeff) as [->|_]; [reflexivity|]. rewrite replaceAll_unit.
  destruct (N.eqb_spec c 0x200b) as [->|_]; [reflexivity|]. rewrite replaceAll_unit.
  destruct (N.eqb_spec c 0x200c) as [->|_]; [reflexivity|]. rewrite replaceAll_unit.
  destruct (N.eqb_spec c 0x200d) as [->|_]; [reflexivity|]. cbn [orb].
  apply foldl_replace_find, quoteMap_values_not_keys.
Qed.

Lemma fold_steps (text : jsstring) :
  foldl (λ t '(oldChar, newChar), replaceAll oldChar [newChar] t)
    (replaceAll 0x200d []
       (replaceAll 0x200c [] (replaceAll 0x200b [] (replaceAll 0xfeff [] text))))
    quoteMap
  = fold_typography text.
Proof.
  induction text as [|c rest IH]; [done|].
  change (c :: rest) with ([c] ++ rest).
  rewrite !replaceAll_app, foldl_replace_app, IH, fold_steps_unit.
  unfold fold_typography. cbn [flat_map app]. done.
Qed.

(** What comes out of the folding is neither a zero-width code unit nor a
    key of [quoteMap]. *)
Lemma fold_unit_out (c x : N) :
  x ∈ fold_unit c →
  is_zero_width x = false ∧ List.find (λ e, (x =? e.1)%N) quoteMap = None.
Proof.
  unfold fold_unit. destruct (is_zero_width c) eqn:Ez.
  { intros H. by apply elem_of_nil in H. }
  destruct (List.find _ quoteMap) as [e|] eqn:Ef.
  - intros ->%list_elem_of_singleton. apply find_some in Ef as [Hin _].
    cbn in Hin. repeat (destruct Hin as [<-|Hin]; [by split|]). done.
  - intros ->%list_elem_of_singleton. by split.
Qed.

Lemma fold_typography_idempotent (text : jsstring) :
  fold_typography (fold_typography text) = fold_typography text.
Proof.
  unfold fold_typography. induction text as [|c rest IH]; [done|].
  cbn [flat_map]. rewrite flat_map_app, IH. f_equal.
  assert (∀ l, (∀ x, x ∈ l → fold_unit x = [x]) → flat_map fold_unit l = l) as Hstable.
  { clear. induction l as [|x l IHl]; intros H; [done|]. cbn [flat_map].
    rewrite (H x) by (apply elem_of_cons; by left).
    cbn. f_equal. apply IHl. intros y Hy. apply H, elem_of_cons. by right. }
  apply Hstable. intros x Hx. destruct (fold_unit_out c x Hx) as [Hz Hf].
  unfold fold_unit. by rewrite Hz, Hf.
Qed.

(** X6. The first two steps of the normalizer (zero-width code units
    stripped, then one [replaceAll] per entry of [quoteMap]) act as one
    simultaneous replacement of code units, [fold_typography]; doing them
    twice changes nothing more; so, with any engine, a text and the same
    text written with the ASCII quotes, apostrophes and hyphens (and without
    zero-width code units) give the same tokens. *)
Theorem normalize_folds_typography (normalizeNFD toLowerCase : jsstring → jsstring)
    (text : jsstring) :
  normalizeAndTokenize normalizeNFD toLowerCase text
  = tokenize (toLowerCase (filter (λ c, is_combining_mark c = false)
                             (normalizeNFD (fold_typography text))))
  ∧ fold_typography (fold_typography text) = fold_typography text
  ∧ normalizeAndTokenize normalizeNFD toLowerCase (fold_typography text)
    = normalizeAndTokenize normalizeNFD toLowerCase text
  ∧ Forall (λ c, is_zero_width c = false
                 ∧ List.find (λ e, (c =? e.1)%N) quoteMap = None)
      (fold_typography text).
Proof.
  assert (∀ t, normalizeAndTokenize normalizeNFD toLowerCase t
               = tokenize (toLowerCase (filter (λ c, is_combining_mark c = false)
                                          (normalizeNFD (fold_typography t))))) as Hn.
  { intros t. unfold normalizeAndTokenize. cbv zeta. by rewrite fold_steps. }
  split; [apply Hn|]. split; [apply fold_typography_idempotent|]. split.
  - by rewrite !Hn, fold_typography_idempotent.
  - apply Forall_forall. intros x Hx. unfold fold_typography in Hx.
    apply list_elem_of_In, in_flat_map in Hx as (c & _ & Hx).
    apply (fold_unit_out c x). by apply list_elem_of_In.
Qed.

Example fold_typography_example :
  fold_typography ([0xfeff; 0x201c]%N ++ js "it" ++ [0x2019%N] ++ js "s" ++ [0x201d; 0x200b; 0x2014]%N)
  = [34%N] ++ js "it's" ++ [34%N] ++ js "-".
Proof. reflexivity. Qed.

(** ** More on the static fallback *)

(** Code units of [[a-z0-9]]. *)
Lemma slug_unit_stable (c : N) :
  let slug := if in_range 97 122 c || in_range 48 57 c then c else 95%N in
  (if in_range 97 122 slug || in_range 48 57 slug then slug else 95%N) = slug.
Proof. cbv zeta. destruct (in_range 97 122 c || in_range 48 57 c) eqn:E; [by rewrite E|done]. Qed.

(** X7. [slugify] keeps the length of the text, keeps the code units of
    [[a-z0-9]] and makes every other code unit an underscore; it is
    idempotent; and two texts that agree wherever either has a code unit of
    [[a-z0-9]] have the same slug. *)
Theorem slugify_properties (text : jsstring) :
  length (slugify text) = length text
  ∧ Forall (λ c, in_range 97 122 c || in_range 48 57 c || (c =? 95)%N = true) (slugify text)
  ∧ slugify (slugify text) = slugify text
  ∧ (Forall (λ c, in_range 97 122 c || in_range 48 57 c = true) text → slugify text = text)
  ∧ (∀ other, length other = length text →
       (∀ i c d, text !! i = Some c → other !! i = Some d →
                 in_range 97 122 c || in_range 48 57 c = true
                 ∨ in_range 97 122 d || in_range 48 57 d = true → c = d) →
       slugify other = slugify text).
Proof.
  unfold slugify. split; [apply length_fmap|]. split; [|split; [|split]].
  - apply Forall_fmap, Forall_forall. intros c _. cbn.
    destruct (in_range 97 122 c || in_range 48 57 c) eqn:E; [by rewrite E|done].
  - rewrite <- list_fmap_compose. apply list_fmap_ext. intros i c _. cbn.
    apply slug_unit_stable.
  - intros H. rewrite <- (list_fmap_id text) at 2. apply Forall_fmap_ext_1.
    eapply Forall_impl; [exact H|]. intros c Hc. cbn in *. by rewrite Hc.
  - intros other Hlen Hagree. apply list_eq. intros i. rewrite !list_lookup_fmap.
    destruct (text !! i) as [c|] eqn:Ec, (other !! i) as [d|] eqn:Ed; cbn.
    + f_equal.
      destruct (in_range 97 122 c || in_range 48 57 c) eqn:E1,
               (in_range 97 122 d || in_range 48 57 d) eqn:E2; try done.
      * symmetry. apply (Hagree i c d); [done..|by left].
      * assert (c = d) as -> by (apply (Hagree i c d); [done..|by left]). congruence.
      * assert (c = d) as -> by (apply (Hagree i c d); [done..|by right]). congruence.
    + apply lookup_lt_Some in Ec. apply lookup_ge_None in Ed. lia.
    + apply lookup_lt_Some in Ed. apply lookup_ge_None in Ec. lia.
    + done.
Qed.

(** The only members of [Object.prototype] whose name is a slug. *)
Lemma inherited_slug (token : jsstring) (mem : Member) :
  inherited (slugify token) = Some mem →
  (slugify token = js "constructor" ∧ mem = MemberFunction 1)
  ∨ (slugify token = js "__proto__" ∧ mem = MemberPrototype).
Proof.
  assert (forallb (λ c, in_range 97 122 c || in_range 48 57 c || (c =? 95)%N) (slugify token)
          = true) as Hslug.
  { apply forallb_forall. intros c [u [-> _]]%list_elem_of_In%list_elem_of_fmap.
    by destruct (in_range 97 122 u || in_range 48 57 u) eqn:E; [rewrite E|]. }
  unfold inherited. destruct (List.find _ object_prototype) as [e|] eqn:Ef; [|done].
  apply find_some in Ef as [Hin Heq]. apply bool_decide_eq_true_1 in Heq.
  rewrite Heq in Hslug |- *. clear Heq. cbn [fmap option_fmap option_map]. intros [= <-].
  assert (Forall (λ e : jsstring * Member,
                    forallb (λ c, in_range 97 122 c || in_range 48 57 c || (c =? 95)%N) e.1
                    = true →
                    (e.1 = js "constructor" ∧ e.2 = MemberFunction 1)
                    ∨ (e.1 = js "__proto__" ∧ e.2 = MemberPrototype)) object_prototype)
    as Hall.
  { unfold object_prototype.
    repeat (apply Forall_cons; split;
            [cbn [fst snd]; intros H;
             first [ by left | by right | (vm_compute in H; discriminate H) ]|]).
    by apply Forall_nil. }
  rewrite Forall_forall in Hall. by apply (Hall e (proj2 (list_elem_of_In _ _) Hin)).
Qed.

(** X8. With a clip for the full stop in [staticClips.punctuation],
    [getStaticClip] finds a clip for every punctuation token, and what it
    returns for a punctuation token is a clip of that table. A word token
    gets what [staticClips.words] reads at its slug and nothing else: the
    clip the table has for the slug; without one, the member of
    [Object.prototype] of that name when the slug is [constructor] or
    [__proto__]; and [null] otherwise, whatever the punctuation table
    holds. *)
Theorem getStaticClip_fallbacks (b : HLSBuilder) (token : jsstring) :
  (is_punctuation token = true →
   is_Some (opt_get (punctuation (staticClips b)) (js ".")) →
   is_Some (getStaticClip b token))
  ∧ (is_punctuation token = true →
     ∀ value, getStaticClip b token = Some value →
       ∃ table key clip, punctuation (staticClips b) = Some table
                         ∧ table !! key = Some clip ∧ value = Own clip)
  ∧ (is_punctuation token = false →
     getStaticClip b token = opt_get (words (staticClips b)) (slugify token))
  ∧ (is_punctuation token = false →
     ∀ clip, getStaticClip b token = Some (Own clip) ↔
             ∃ table, words (staticClips b) = Some table
                      ∧ table !! slugify token = Some clip)
  ∧ (is_punctuation token = false →
     ∀ member, getStaticClip b token = Some (Inherited member) ↔
               (∃ table, words (staticClips b) = Some table
                         ∧ table !! slugify token = None)
               ∧ ((slugify token = js "constructor" ∧ member = MemberFunction 1)
                  ∨ (slugify token = js "__proto__" ∧ member = MemberPrototype)))
  ∧ getStaticClip proto_builder (js "__proto__") = Some (Inherited MemberPrototype).
Proof.
  rewrite getStaticClip_unfold. destruct (is_punctuation token) eqn:Hp; cbv zeta.
  - split; [|split; [|repeat split; try done; vm_compute; reflexivity]].
    + intros _ [dflt Hd]. rewrite Hd.
      match goal with |- context [or_else ?x _] => destruct x end; by eexists.
    + intros _ value.
      assert (is_punctuation (if str_eq token [0x2014%N] || str_eq token [0x2013%N]
                              then [45%N] else token) = true) as Hkey
        by (by destruct (_ || _)).
      rewrite (opt_get_punctuation _ _ Hkey), (opt_get_punctuation _ (js ".") eq_refl).
      destruct (punctuation (staticClips b)) as [table|]; [|done].
      cbn [mbind option_bind].
      destruct (table !! _) as [c|] eqn:E1; cbn [fmap option_fmap option_map or_else].
      * intros [= <-]. by eexists table, _, c.
      * destruct (table !! js ".") as [c|] eqn:E2;
          cbn [fmap option_fmap option_map or_else]; [|done].
        intros [= <-]. by eexists table, _, c.
  - split; [done|]. split; [done|]. split; [done|].
    unfold opt_get, get. split; [|split; [|vm_compute; reflexivity]].
    + intros _ clip. destruct (words (staticClips b)) as [table|]; cbn [mbind option_bind].
      2: { split; [done|]. by intros (? & [=] & _). }
      destruct (table !! slugify token) as [c|] eqn:Ew.
      * split; [intros [= <-]; by exists table|]. intros (? & [= <-] & Hc). congruence.
      * split; [by destruct (inherited _)|]. intros (? & [= <-] & Hc). congruence.
    + intros _ member. destruct (words (staticClips b)) as [table|]; cbn [mbind option_bind].
      2: { split; [done|]. by intros [(? & [=] & _) _]. }
      destruct (table !! slugify token) as [c|] eqn:Ew.
      { split; [done|]. intros [(? & [= <-] & Hc) _]. congruence. }
      destruct (inherited (slugify token)) as [mem|] eqn:E;
        cbn [fmap option_fmap option_map].
      * pose proof (inherited_slug token mem E) as Hslug. split.
        -- intros [= <-]. split; [by exists table|done].
        -- intros [_ Hmember]. f_equal. f_equal.
           destruct Hslug as [[Hs ->]|[Hs ->]], Hmember as [[Hs' ->]|[Hs' ->]]; try done;
             rewrite Hs in Hs'; discriminate Hs'.
      * split; [done|]. intros [_ [[Hs _]|[Hs _]]]; rewrite Hs in E; vm_compute in E; done.
Qed.

(** ** The script as a whole *)

Section ScriptTrace.
Variable hashIndex : jsstring → N.
Variable b : HLSBuilder.
Variable tokens : list jsstring.
Variable matches : list Match.
Variable seed : jsstring.
Hypothesis matches_ordered : ordered_from 0 matches.
Hypothesis matches_bounds : ∀ m, m ∈ matches → end_ m ≤ length tokens.
Hypothesis matches_pools :
  ∀ m, m ∈ matches → ∃ pool, phraseClips b !! phrase m = Some pool ∧ pool ≠ [].

(** The loop from position [i], when the matches that end at or before [i]
    are [done] and the others, [rem], start at or after [i]: it selects a
    clip for each match of [rem], in order, and gets one; and the tokens of
    its turns, end to end, are the tokens from [i] on. *)
Lemma script_loop_trace fuel : ∀ i st done rem,
  matches = done ++ rem →
  Forall (λ m, start m < end_ m ∧ end_ m ≤ i) done →
  ordered_from i rem →
  length tokens - i ≤ fuel →
  ∃ st' T,
    script_loop hashIndex fuel b tokens matches (covered_set matches) seed i st = Ok st'
    ∧ turns st' = turns st ++ T
    ∧ omap turn_match T = rem
    ∧ concat (turn_tokens tokens <$> T) = drop i tokens
    ∧ Forall (λ t, turn_action t ≠ Skip
                   ∧ ∀ m, turn_action t = SelectPhrase m → is_Some (turn_item t)) T.
Proof.
  induction fuel as [|f IH]; intros i st done rem Hsplit Hdone Hrem Hfuel.
  - assert (tokens !! i = None) as E by (apply lookup_ge_None; lia).
    exists st, []. rewrite script_loop_end by done. rewrite app_nil_r.
    split; [done|]. split; [done|]. split; [|split; [|done]].
    + destruct rem as [|m rest]; [done|]. destruct Hrem as (H1 & H2 & _).
      assert (m ∈ matches) as Hm by (rewrite Hsplit; apply elem_of_app; right;
                                     apply elem_of_cons; by left).
      specialize (matches_bounds m Hm). lia.
    + cbn. rewrite drop_ge; [done|lia].
  - destruct (tokens !! i) as [tok|] eqn:E.
    2: { exists st, []. rewrite script_loop_end by done. rewrite app_nil_r.
         pose proof (lookup_ge_None_1 _ _ E).
         split; [done|]. split; [done|]. split; [|split; [|done]].
         - destruct rem as [|m rest]; [done|]. destruct Hrem as (H1 & H2 & _).
           assert (m ∈ matches) as Hm by (rewrite Hsplit; apply elem_of_app; right;
                                          apply elem_of_cons; by left).
           specialize (matches_bounds m Hm). lia.
         - cbn. rewrite drop_ge; [done|lia]. }
    pose proof (lookup_lt_Some _ _ _ E) as Hlt.
    pose proof (find_start_split i done rem Hdone Hrem) as Hfind.
    rewrite <- Hsplit in Hfind.
    destruct rem as [|m rest].
    + (* no match is left: a static fallback *)
      assert (i ∉ covered_set matches) as Hunc.
      { intros (m & Hm & [H1 H2])%covered_set_spec. rewrite Hsplit, app_nil_r in Hm.
        rewrite Forall_forall in Hdone. specialize (Hdone m Hm). lia. }
      rewrite (script_loop_static _ _ _ _ _ _ _ _ _ tok) by
        (try done; by apply bool_decide_eq_true_2).
      destruct (IH (i + 1)
                  (mkState (script st ++ option_list (static_item b tok)) (usedClips st)
                           (turns st ++ [mkTurn i (StaticFallback tok) (static_item b tok)]))
                  done []) as (st' & T' & Hrun & Ht & Hm' & Hc & Hemit); [done| |done|lia|].
      { eapply Forall_impl; [exact Hdone|]. intros m [? ?]. cbn. lia. }
      exists st', (mkTurn i (StaticFallback tok) (static_item b tok) :: T').
      split; [done|]. cbn [turns] in Ht. split; [by rewrite Ht, <- app_assoc|].
      split; [done|]. split.
      * cbn. rewrite Hc. replace (i + 1) with (S i) by lia. symmetry. by apply drop_S.
      * constructor; [|done]. cbn. split; [done|]. by intros m.
    + destruct Hrem as (H1 & H2 & H3).
      assert (m ∈ matches) as Hm by (rewrite Hsplit; apply elem_of_app; right;
                                     apply elem_of_cons; by left).
      destruct (Nat.eqb_spec (start m) i) as [Hs|Hs].
      * (* the next match starts here: a selection *)
        destruct (matches_pools m Hm) as (pool & Hpool & Hne).
        destruct (selectClip_nonempty hashIndex pool (usedClips st) (seed ++ phrase m) Hne)
          as (clip & _ & Hsel & _).
        rewrite (script_loop_phrase _ _ _ _ _ _ _ _ _ tok m pool (Some clip)
                   (usedClips st ∪ {[ filename clip ]})) by done.
        cbv zeta. cbn [fmap option_fmap option_map].
        set (item := Item (mkItem _ _ _ _)).
        destruct (IH (end_ m)
                    (mkState (script st ++ option_list (Some item))
                             (usedClips st ∪ {[ filename clip ]})
                             (turns st ++ [mkTurn i (SelectPhrase m) (Some item)]))
                    (done ++ [m]) rest) as (st' & T' & Hrun & Ht & Hm' & Hc & Hemit).
        { by rewrite <- app_assoc. }
        { apply Forall_app. split.
          - eapply Forall_impl; [exact Hdone|]. intros d [? ?]. cbn. lia.
          - repeat constructor; lia. }
        { done. }
        { lia. }
        exists st', (mkTurn i (SelectPhrase m) (Some item) :: T').
        split; [done|]. cbn [turns] in Ht. split; [by rewrite Ht, <- app_assoc|].
        split; [cbn; by rewrite Hm'|]. split.
        -- cbn [fmap list_fmap concat]. unfold turn_tokens at 1. cbn [turn_action].
           rewrite Hc, Hs. apply slice_drop. lia.
        -- constructor; [|done]. cbn. split; [done|]. intros _ _. by eexists.
      * (* the next match starts later: a static fallback *)
        assert (i ∉ covered_set matches) as Hunc.
        { intros (m' & Hm' & [H4 H5])%covered_set_spec. rewrite Hsplit in Hm'.
          apply elem_of_app in Hm' as [Hm'|Hm'].
          - rewrite Forall_forall in Hdone. specialize (Hdone m' Hm'). lia.
          - assert (ordered_from i (m :: rest)) as Ho by (cbn; done).
            pose proof (ordered_from_elem _ _ _ Ho Hm') as [H6 H7].
            apply elem_of_cons in Hm' as [->|Hm']; [lia|].
            pose proof (ordered_from_elem _ _ _ H3 Hm'). lia. }
        rewrite (script_loop_static _ _ _ _ _ _ _ _ _ tok) by
          (try done; by apply bool_decide_eq_true_2).
        destruct (IH (i + 1)
                    (mkState (script st ++ option_list (static_item b tok)) (usedClips st)
                             (turns st ++ [mkTurn i (StaticFallback tok) (static_item b tok)]))
                    done (m :: rest))
          as (st' & T' & Hrun & Ht & Hm' & Hc & Hemit); [done| | |lia|].
        { eapply Forall_impl; [exact Hdone|]. intros d [? ?]. cbn. lia. }
        { cbn. split; [lia|done]. }
        exists st', (mkTurn i (StaticFallback tok) (static_item b tok) :: T').
        split; [done|]. cbn [turns] in Ht. split; [by rewrite Ht, <- app_assoc|].
        split; [done|]. split.
        -- cbn. rewrite Hc. replace (i + 1) with (S i) by lia. symmetry. by apply drop_S.
        -- constructor; [|done]. cbn. split; [done|]. by intros m'.
Qed.
End ScriptTrace.

(** The facts about the turns of [generateScript] put together, for the
    matches of the matcher, when each has a pool of its own. *)
Lemma generateScript_run_trace (hashIndex : jsstring → N) (b : HLSBuilder)
    (tokens : list jsstring) (sessionId : jsstring) :
  let matches := greedyMatchPhrases b tokens in
  (∀ m, m ∈ matches → is_Some (phraseClips b !! phrase m)) →
  ∃ st,
    generateScript_run hashIndex b tokens matches sessionId = Ok st
    ∧ script st = omap turn_item (turns st)
    ∧ Forall (turn_ok b tokens matches) (turns st)
    ∧ omap turn_match (turns st) = matches
    ∧ concat (turn_tokens tokens <$> turns st) = tokens
    ∧ Forall (λ t, turn_action t ≠ Skip
                   ∧ ∀ m, turn_action t = SelectPhrase m → is_Some (turn_item t))
        (turns st).
Proof.
  intros matches Hown.
  destruct (generateScript_run_turns hashIndex b tokens sessionId Hown)
    as (st & Hrun & Hsc & Hok & _).
  fold matches in Hrun, Hok.
  pose proof (match_loop_ordered b (length tokens) tokens 0) as Ho.
  fold (greedyMatchPhrases b tokens) in Ho. fold matches in Ho.
  assert (∀ m, m ∈ matches → end_ m ≤ length tokens) as Hbounds
    by (intros m Hm; by destruct (greedy_match_facts b tokens m Hm) as (_ & ? & _)).
  assert (∀ m, m ∈ matches → ∃ pool, phraseClips b !! phrase m = Some pool ∧ pool ≠ [])
    as Hpools.
  { intros m Hm. destruct (Hown m Hm) as [pool Hpool]. exists pool. split; [done|].
    destruct (greedy_match_facts b tokens m Hm) as (_ & _ & Hav & _).
    by apply (available_pool b (phrase m)). }
  destruct (script_loop_trace hashIndex b tokens matches sessionId Hbounds Hpools
              (length tokens) 0 (mkState [] ∅ []) [] matches)
    as (st' & T & Hrun' & Ht & Hm & Hc & Hemit); [done|constructor|done|lia|].
  unfold generateScript_run in Hrun. rewrite Hrun in Hrun'. injection Hrun' as <-.
  cbn in Ht. subst T. exists st. by rewrite drop_0 in Hc.
Qed.

Lemma length_omap_le {A B} (f : A → option B) (l : list A) :
  length (omap f l) ≤ length l.
Proof. induction l as [|x l IH]; cbn; [done|]. destruct (f x); cbn; lia. Qed.

Lemma length_concat_ge {A} (ls : list (list A)) :
  Forall (λ l, l ≠ []) ls → length ls ≤ length (concat ls).
Proof.
  induction 1 as [|l ls Hl _ IH]; cbn; [done|]. rewrite length_app.
  destruct l; [done|]. cbn. lia.
Qed.

Lemma join_app (sep : jsstring) (a b : list jsstring) :
  a ≠ [] → b ≠ [] → join sep (a ++ b) = join sep a ++ sep ++ join sep b.
Proof.
  intros Ha Hb. induction a as [|x a IH]; [done|].
  destruct a as [|y a].
  - cbn [app]. destruct b; [done|]. done.
  - change (join sep ((x :: y :: a) ++ b)) with (x ++ sep ++ join sep ((y :: a) ++ b)).
    rewrite IH by done. cbn [join]. by rewrite <- !app_assoc.
Qed.

Lemma join_concat (sep : jsstring) (ls : list (list jsstring)) :
  Forall (λ l, l ≠ []) ls → join sep (join sep <$> ls) = join sep (concat ls).
Proof.
  induction 1 as [|l ls Hl Hls IH]; [done|].
  destruct ls as [|l' ls'].
  - cbn. by rewrite app_nil_r.
  - change (join sep (join sep <$> l :: l' :: ls'))
      with (join sep l ++ sep ++ join sep (join sep <$> l' :: ls')).
    rewrite IH. change (concat (l :: l' :: ls')) with (l ++ concat (l' :: ls')).
    rewrite (join_app sep l (concat (l' :: ls'))); [done|done|].
    apply Forall_cons in Hls as [Hl' _]. by destruct l'.
Qed.

Lemma slice_nonempty (tokens : list jsstring) (i j : nat) :
  i < j → j ≤ length tokens → slice tokens i j ≠ [].
Proof.
  intros Hij Hj E. apply (f_equal length) in E. unfold slice in E.
  rewrite length_take, length_drop in E. cbn in E. lia.
Qed.

(** The phrase items of the script, for the matches of the matcher. *)
Lemma generateScript_phrase_items (hashIndex : jsstring → N) (b : HLSBuilder)
    (tokens : list jsstring) (sessionId : jsstring) :
  (∀ m, m ∈ greedyMatchPhrases b tokens → is_Some (phraseClips b !! phrase m)) →
  ∃ script,
    generateScript hashIndex b tokens (greedyMatchPhrases b tokens) sessionId = Ok script
    ∧ item_text <$> List.filter is_phrase_item (clip_items script)
      = phrase <$> greedyMatchPhrases b tokens
    ∧ length (List.filter is_phrase_item (clip_items script))
      = length (greedyMatchPhrases b tokens)
    ∧ length script ≤ length tokens.
Proof.
  intros Hown. set (matches := greedyMatchPhrases b tokens).
  destruct (generateScript_run_trace hashIndex b tokens sessionId Hown)
    as (st & Hrun & Hsc & Hok & Hm & Hc & Hemit).
  fold matches in Hrun, Hok, Hm.
  exists (script st). split; [unfold generateScript; by rewrite Hrun|].
  assert (item_text <$> List.filter is_phrase_item (clip_items (script st))
          = phrase <$> matches) as Htexts.
  { rewrite Hsc, <- Hm. clear Hm Hc Hsc Hrun. unfold clip_items.
    induction (turns st) as [|t T IH]; [done|].
    apply Forall_cons in Hok as [Hok1 Hok], Hemit as [[_ Hemit1] Hemit].
    specialize (IH Hok Hemit). unfold turn_ok in Hok1. cbn [omap list_omap].
    unfold turn_match at 1. destruct (turn_action t) as [m|tok|] eqn:Ea; [| |done].
    - destruct (Hemit1 m eq_refl) as [it Hit]. rewrite Hit.
      destruct Hok1 as (Hmm & _ & Hitem). destruct (Hitem it Hit) as (clip & _ & ->).
      cbn [omap list_omap item_of List.filter is_phrase_item item_type].
      cbn [fmap list_fmap item_text]. rewrite IH. f_equal. symmetry.
      by destruct (greedy_match_facts b tokens m Hmm) as (_ & _ & _ & ?).
    - destruct Hok1 as (_ & _ & Hitem). rewrite Hitem. unfold static_item.
      destruct (getStaticClip b tok) as [[c|mem]|]; cbn; done. }
  split; [done|]. split.
  - apply (f_equal length) in Htexts. by rewrite !length_fmap in Htexts.
  - rewrite Hsc. etransitivity; [apply length_omap_le|].
    assert (length (turns st) ≤ length (concat (turn_tokens tokens <$> turns st))) as Hle;
      [|by rewrite Hc in Hle].
    rewrite <- (length_fmap (turn_tokens tokens) (turns st)) at 1.
    apply length_concat_ge. apply Forall_fmap.
    rewrite Forall_forall in Hok, Hemit. apply Forall_forall. intros t Ht. cbn.
    specialize (Hok t Ht). destruct (Hemit t Ht) as [Hns _].
    unfold turn_ok in Hok. unfold turn_tokens.
    destruct (turn_action t) as [m|tok|]; [|done|done].
    destruct Hok as (Hmm & _).
    destruct (greedy_match_facts b tokens m Hmm) as (? & ? & _). by apply slice_nonempty.
Qed.

(** X9. With the matches of the matcher, each with a pool of its own in
    [phraseClips], every match gets exactly one phrase item: the script
    builder returns, the texts of the phrase items of the script are the
    phrases of the matches, in order (so there are as many phrase items as
    matches), and the script has at most as many items as there are tokens. *)
Theorem phrase_items_are_the_matches (hashIndex : jsstring → N) (b : HLSBuilder)
    (tokens : list jsstring) (sessionId : jsstring) :
  (∀ m, m ∈ greedyMatchPhrases b tokens → is_Some (phraseClips b !! phrase m)) →
  ∃ script,
    generateScript hashIndex b tokens (greedyMatchPhrases b tokens) sessionId = Ok script
    ∧ item_text <$> List.filter is_phrase_item (clip_items script)
      = phrase <$> greedyMatchPhrases b tokens
    ∧ length (List.filter is_phrase_item (clip_items script))
      = length (greedyMatchPhrases b tokens)
    ∧ length script ≤ length tokens.
Proof. apply generateScript_phrase_items. Qed.

Lemma phrase_items_are_the_matches_witness :
  ∃ script,
    generateScript sum_hash demo_builder [js "good"; js "morning"; js "foo"; js "."]
      (greedyMatchPhrases demo_builder [js "good"; js "morning"; js "foo"; js "."])
      (js "abc") = Ok script
    ∧ item_text <$> List.filter is_phrase_item (clip_items script)
      = phrase <$> greedyMatchPhrases demo_builder [js "good"; js "morning"; js "foo"; js "."]
    ∧ length (List.filter is_phrase_item (clip_items script))
      = length (greedyMatchPhrases demo_builder [js "good"; js "morning"; js "foo"; js "."])
    ∧ length script ≤ length [js "good"; js "morning"; js "foo"; js "."].
Proof.
  apply (phrase_items_are_the_matches sum_hash demo_builder
           [js "good"; js "morning"; js "foo"; js "."] (js "abc")).
  change (greedyMatchPhrases demo_builder [js "good"; js "morning"; js "foo"; js "."])
    with [mkMatch (js "good morning") 0 2].
  intros m [->|[]%elem_of_nil]%elem_of_cons. by eexists.
Defined.

(** X10. With the matches of the matcher, each with a pool of its own in
    [phraseClips], the turns of the script builder go through the tokens
    once, in order: the tokens the turns stand for, end to end, are the
    tokens. When every token that no match covers has a static clip, no token
    is dropped, and the texts of the script items, joined with spaces, are
    the tokens joined with spaces. *)
Theorem script_reads_back_tokens (hashIndex : jsstring → N) (b : HLSBuilder)
    (tokens : list jsstring) (sessionId : jsstring) :
  (∀ m, m ∈ greedyMatchPhrases b tokens → is_Some (phraseClips b !! phrase m)) →
  ∃ st,
    generateScript_run hashIndex b tokens (greedyMatchPhrases b tokens) sessionId = Ok st
    ∧ concat (turn_tokens tokens <$> turns st) = tokens
    ∧ ((∀ i tok, tokens !! i = Some tok →
                 (∀ m, m ∈ greedyMatchPhrases b tokens → ¬ in_range_of m i) →
                 is_Some (getStaticClip b tok)) →
       length (script st) = length (turns st)
       ∧ join [32%N] (pushed_text <$> script st) = join [32%N] tokens).
Proof.
  intros Hown. set (matches := greedyMatchPhrases b tokens).
  destruct (generateScript_run_trace hashIndex b tokens sessionId Hown)
    as (st & Hrun & Hsc & Hok & Hm & Hc & Hemit).
  fold matches in Hrun, Hok, Hm.
  exists st. split; [done|]. split; [done|]. intros Hstatic.
  assert (Forall (λ t, turn_tokens tokens t ≠ []
                       ∧ ∃ it, turn_item t = Some it
                               ∧ pushed_text it = join [32%N] (turn_tokens tokens t))
            (turns st)) as Hall.
  { rewrite Forall_forall in Hok, Hemit. apply Forall_forall. intros t Ht.
    specialize (Hok t Ht). destruct (Hemit t Ht) as [_ Hsome].
    unfold turn_ok in Hok. unfold turn_tokens.
    destruct (turn_action t) as [m|tok|]; [| |done].
    - destruct Hok as (Hmm & _ & Hitem). destruct (Hsome m eq_refl) as [it Hit].
      destruct (greedy_match_facts b tokens m Hmm) as (? & ? & _).
      split; [by apply slice_nonempty|]. exists it. split; [done|].
      by destruct (Hitem it Hit) as (clip & _ & ->).
    - destruct Hok as (Htok & Hnc & Hitem). split; [done|].
      destruct (Hstatic (turn_index t) tok Htok) as [c Hclip].
      { intros m Hmm Hin. apply Hnc, covered_set_spec. by exists m. }
      rewrite Hitem. unfold static_item. rewrite Hclip. eexists. split; [done|].
      by destruct c. }
  assert (omap turn_item (turns st)
          = (λ t, default (NoClipItem []) (turn_item t)) <$> turns st
          ∧ pushed_text <$> omap turn_item (turns st)
            = join [32%N] <$> (turn_tokens tokens <$> turns st)
          ∧ Forall (λ l, l ≠ []) (turn_tokens tokens <$> turns st)) as (Hmap & Htexts & Hne).
  { clear Hrun Hsc Hok Hm Hc Hemit Hstatic.
    induction Hall as [|t T (Hnt & it & Hit & Htx) _ (IH1 & IH2 & IH3)]; [done|].
    cbn [omap list_omap fmap list_fmap]. rewrite Hit. cbn [fmap list_fmap default].
    rewrite IH1 at 1. rewrite IH2, Htx. repeat split; try done. by constructor. }
  split.
  - rewrite Hsc, Hmap. by rewrite length_fmap.
  - rewrite Hsc, Htexts, join_concat by done. by rewrite Hc.
Qed.

Lemma script_reads_back_tokens_witness :
  ∃ st,
    generateScript_run sum_hash demo_builder [js "good"; js "morning"; js "foo"; js "."]
      (greedyMatchPhrases demo_builder [js "good"; js "morning"; js "foo"; js "."])
      (js "abc") = Ok st
    ∧ concat (turn_tokens [js "good"; js "morning"; js "foo"; js "."] <$> turns st)
      = [js "good"; js "morning"; js "foo"; js "."]
    ∧ ((∀ i tok, [js "good"; js "morning"; js "foo"; js "."] !! i = Some tok →
                 (∀ m, m ∈ greedyMatchPhrases demo_builder
                             [js "good"; js "morning"; js "foo"; js "."] →
                       ¬ in_range_of m i) →
                 is_Some (getStaticClip demo_builder tok)) →
       length (script st) = length (turns st)
       ∧ join [32%N] (pushed_text <$> script st)
         = join [32%N] [js "good"; js "morning"; js "foo"; js "."]).
Proof.
  apply (script_reads_back_tokens sum_hash demo_builder
           [js "good"; js "morning"; js "foo"; js "."] (js "abc")).
  change (greedyMatchPhrases demo_builder [js "good"; js "morning"; js "foo"; js "."])
    with [mkMatch (js "good morning") 0 2].
  intros m [->|[]%elem_of_nil]%elem_of_cons. by eexists.
Defined.

(** *** Reuse of clips within a script *)

(** A property of the script and of [usedClips] that every turn keeps holds
    when the loop returns. *)
Lemma script_loop_invariant (hashIndex : jsstring → N) (b : HLSBuilder)
    (tokens : list jsstring) (matches : list Match) (covered : gset nat)
    (seed : jsstring) (Inv : list Pushed → gset jsstring → Prop) :
  (∀ items used m clip used',
     m ∈ matches →
     selectClip hashIndex (Some (default [] (phraseClips b !! phrase m))) used
       (seed ++ phrase m) = Ok (clip, used') →
     Inv items used →
     Inv (items ++ option_list
            ((λ c, Item (mkItem (join [32%N] (slice tokens (start m) (end_ m)))
                                (filename c) (duration c) phrase_type)) <$> clip)) used') →
  (∀ items used tok, Inv items used → Inv (items ++ option_list (static_item b tok)) used) →
  ∀ fuel i st st',
    script_loop hashIndex fuel b tokens matches covered seed i st = Ok st' →
    Inv (script st) (usedClips st) → Inv (script st') (usedClips st').
Proof.
  intros Hphrase Hstatic. induction fuel as [|f IH]; intros i st st'.
  - cbn. destruct (tokens !! i); [done|]. by intros [= <-].
  - cbn [script_loop]. destruct (tokens !! i) as [tok|]; [|by intros [= <-]].
    destruct (List.find _ matches) as [m|] eqn:Ef.
    + apply find_some in Ef as [Hin%list_elem_of_In _].
      specialize (Hphrase (script st) (usedClips st) m).
      unfold get. destruct (phraseClips b !! phrase m) as [pool|] eqn:Hpool; cbn [default] in *.
      * destruct (selectClip hashIndex (Some pool) (usedClips st) (seed ++ phrase m))
          as [[clip used']|e|] eqn:Hsel; cbn; [|done..].
        intros Hrun Hinv. apply (IH _ _ _ Hrun). cbn. by apply Hphrase.
      * destruct (inherited (phrase m)) as [[[|arity]|]|]; cbn; try done.
        -- intros Hrun Hinv. apply (IH _ _ _ Hrun). cbn. by rewrite app_nil_r.
        -- intros Hrun Hinv. apply (IH _ _ _ Hrun). cbn. by rewrite app_nil_r.
    + destruct (bool_decide _).
      * intros Hrun Hinv. apply (IH _ _ _ Hrun). cbn. by apply Hstatic.
      * intros Hrun Hinv. by apply (IH _ _ _ Hrun).
Qed.

Lemma phrase_filenames_app (a c : list ScriptItem) :
  phrase_filenames (a ++ c) = phrase_filenames a ∪ phrase_filenames c.
Proof.
  unfold phrase_filenames. by rewrite List.filter_app, fmap_app, list_to_set_app_L.
Qed.

Lemma selectClip_fresh_or_exhausted (hashIndex : jsstring → N) (clips : list Clip)
    (used : gset jsstring) (seedStr : jsstring) (clip : option Clip) (used' : gset jsstring) :
  selectClip hashIndex (Some clips) used seedStr = Ok (clip, used') →
  match clip with
  | None => clips = [] ∧ used' = used
  | Some c => used' = used ∪ {[ filename c ]}
              ∧ c ∈ clips
              ∧ (filename c ∉ used ∨ ∀ c', c' ∈ clips → filename c' ∈ used)
  end.
Proof.
  destruct (decide (clips = [])) as [->|Hne].
  { cbn. by intros [= <- <-]. }
  destruct (selectClip_nonempty hashIndex clips used seedStr Hne)
    as (c & Hc & Hsel & Hin).
  rewrite Hsel. intros [= <- <-]. split; [done|]. split; [done|].
  cbv zeta in Hc. apply list_elem_of_lookup_2 in Hc.
  destruct (filter _ clips) as [|u rest] eqn:Ef.
  - right. intros c' Hc'. destruct (decide (filename c' ∈ used)) as [|Hn]; [done|].
    assert (c' ∈ filter (λ clip, filename clip ∉ used) clips) as Hf
      by (apply list_elem_of_filter; by split).
    rewrite Ef in Hf. by apply elem_of_nil in Hf.
  - left. cbn in Hc. rewrite <- Ef in Hc. by apply list_elem_of_filter in Hc as [? _].
Qed.

Lemma reuse_only_when_exhausted_snoc (b : HLSBuilder) (items : list ScriptItem)
    (item : ScriptItem) :
  reuse_only_when_exhausted b items →
  (is_phrase_item item = true →
   item_filename item ∈ phrase_filenames items →
   ∀ clip, clip ∈ default [] (phraseClips b !! item_text item) →
           filename clip ∈ phrase_filenames items) →
  reuse_only_when_exhausted b (items ++ [item]).
Proof.
  intros Hold Hnew k it Hk Hph Hin clip Hclip.
  destruct (decide (k < length items)) as [Hlt|Hge].
  - rewrite lookup_app_l in Hk by done.
    rewrite take_app_le in Hin |- * by lia. by apply (Hold k it).
  - rewrite lookup_app_r in Hk by lia.
    destruct (k - length items) as [|n] eqn:En; [|by destruct n].
    injection Hk as <-. assert (k = length items) as -> by lia.
    rewrite take_app_length in Hin |- *. by apply Hnew.
Qed.

(** X11. Reuse avoidance within one script, with the matches of the
    matcher: a phrase item has the filename of an earlier phrase item only
    when every clip of its phrase has already been used by an earlier phrase
    item. So the clips chosen for a phrase are pairwise different until its
    pool is exhausted. *)
Theorem script_reuses_only_when_exhausted (hashIndex : jsstring → N) (b : HLSBuilder)
    (tokens : list jsstring) (sessionId : jsstring) (script : list Pushed) :
  generateScript hashIndex b tokens (greedyMatchPhrases b tokens) sessionId = Ok script →
  reuse_only_when_exhausted b (clip_items script).
Proof.
  unfold generateScript, generateScript_run.
  destruct (script_loop _ _ _ _ _ _ _ _ _) as [st'| |] eqn:Hrun; cbn; [|done..].
  intros [= <-].
  pose proof (script_loop_invariant hashIndex b tokens (greedyMatchPhrases b tokens)
                (covered_set (greedyMatchPhrases b tokens)) sessionId
                (λ pushed used, used = phrase_filenames (clip_items pushed)
                                ∧ reuse_only_when_exhausted b (clip_items pushed))) as Hinv.
  cbv beta in Hinv. eapply Hinv; [| |exact Hrun|].
  - (* a selection *)
    intros its used m clip used' Hm Hsel [-> Hreuse].
    apply selectClip_fresh_or_exhausted in Hsel. unfold clip_items in *.
    destruct clip as [c|]; cbn [fmap option_fmap option_map option_list].
    + destruct Hsel as (-> & Hc & Hfresh).
      destruct (greedy_match_facts b tokens m Hm) as (_ & _ & _ & Hphrase).
      rewrite omap_app. cbn [omap list_omap item_of]. split.
      * rewrite phrase_filenames_app. f_equal. unfold phrase_filenames. cbn.
        by rewrite union_empty_r_L.
      * apply reuse_only_when_exhausted_snoc; [done|]. cbn [item_text item_filename].
        rewrite <- Hphrase. intros _ Hused clip Hclip.
        destruct Hfresh as [Hf|Hall]; [done|by apply Hall].
    + destruct Hsel as [_ ->]. by rewrite app_nil_r.
  - (* a static fallback *)
    intros its used tok [-> Hreuse]. unfold static_item, clip_items in *.
    destruct (getStaticClip b tok) as [[c|mem]|]; cbn; rewrite ?app_nil_r, ?omap_app;
      cbn [omap list_omap item_of]; rewrite ?app_nil_r; [|done..].
    split.
    + rewrite phrase_filenames_app. unfold phrase_filenames at 3. cbn.
      by rewrite union_empty_r_L.
    + apply reuse_only_when_exhausted_snoc; [done|]. by cbn.
  - split; [done|]. intros k it Hk. done.
Qed.

Lemma script_reuses_only_when_exhausted_witness :
  reuse_only_when_exhausted demo_builder
    [ mkItem (js "good morning") (js "gm1.ts") 1.5 phrase_type;
      mkItem (js "good morning") (js "gm2.ts") 1.25 phrase_type;
      mkItem (js "good morning") (js "gm1.ts") 1.5 phrase_type ].
Proof.
  apply (script_reuses_only_when_exhausted sum_hash demo_builder
           [js "good"; js "morning"; js "good"; js "morning"; js "good"; js "morning"]
           (js "seed")
           [ Item (mkItem (js "good morning") (js "gm1.ts") 1.5 phrase_type);
             Item (mkItem (js "good morning") (js "gm2.ts") 1.25 phrase_type);
             Item (mkItem (js "good morning") (js "gm1.ts") 1.5 phrase_type) ]).
  vm_compute. reflexivity.
Defined.

(** ** The server *)

Lemma script_items_Ok (script : list Pushed) (items : list ScriptItem) :
  script_items script = Ok items → script = Item <$> items.
Proof.
  unfold script_items. destruct (mapM item_of script) as [items'|] eqn:E; [|done].
  intros [= <-]. apply mapM_Some_1 in E.
  induction E as [|p item script items' Hp _ IH]; [done|].
  destruct p as [it|text]; [|done]. injection Hp as ->. cbn. by f_equal.
Qed.

(** What a result of [generatePlaylist] is made of. *)
Lemma generatePlaylist_Ok (hashIndex : jsstring → N) (toFixed : float → nat → jsstring)
    (env : Env) (b : HLSBuilder) (sessionId : jsstring) (result : Generated) :
  generatePlaylist hashIndex toFixed env b sessionId = Ok result →
  ∃ tokens,
    fixedTokens b = Some tokens
    ∧ generateScript hashIndex b tokens (greedyMatchPhrases b tokens) sessionId
      = Ok (Item <$> gen_script result)
    ∧ gen_tokens result = tokens
    ∧ gen_matches result = greedyMatchPhrases b tokens
    ∧ gen_playlist result = buildM3U8 toFixed env (gen_script result) sessionId
    ∧ ∀ m, m ∈ greedyMatchPhrases b tokens → is_Some (phraseClips b !! phrase m).
Proof.
  intros Hgen. destruct (fixedTokens b) as [tokens|] eqn:Htok.
  2: { unfold generatePlaylist in Hgen. by rewrite Htok in Hgen. }
  exists tokens. split; [done|].
  assert (∀ m, m ∈ greedyMatchPhrases b tokens → is_Some (phraseClips b !! phrase m)) as Hown.
  { intros m Hm. destruct (phraseClips b !! phrase m) eqn:Hpool; [by eexists|].
    destruct (generatePlaylist_outcome hashIndex toFixed env b sessionId tokens Htok)
      as (Hthrow & _). rewrite Hthrow in Hgen; [done|]. by exists m. }
  unfold generatePlaylist in Hgen. rewrite Htok in Hgen.
  destruct (generateScript _ _ _ _ _) as [pushed| |]; cbn in Hgen; [|done..].
  destruct (script_items pushed) as [items| |] eqn:Hitems; cbn in Hgen; [|done..].
  injection Hgen as <-. cbn. apply script_items_Ok in Hitems. by subst pushed.
Qed.

(** X13. [POST /generate] answers 500 with the fixed message [Failed to
    generate playlist] (not the message of the error) and stores nothing
    when [generatePlaylist] throws: when the manifest has no [fixedTokens],
    when a match has no pool of its own in [phraseClips] (its phrase names a
    member of [Object.prototype], as the token [constructor] does), and when
    the static clip of a token outside the matches is such a member. In the
    one case left it answers 200 and stores the session. *)
Theorem generate_failure (hashIndex : jsstring → N) (toFixed : float → nat → jsstring)
    (env : Env) (b : HLSBuilder) (sessionId : jsstring) (now : Z)
    (sessions : gmap jsstring Session) :
  (fixedTokens b = None →
   handle_generate hashIndex toFixed env b sessionId now sessions
   = Ok (sessions, mkResponse 500 (ErrorBody (js "Failed to generate playlist"))))
  ∧ (∀ tokens, fixedTokens b = Some tokens →
       ((∃ m, m ∈ greedyMatchPhrases b tokens ∧ phraseClips b !! phrase m = None) →
        handle_generate hashIndex toFixed env b sessionId now sessions
        = Ok (sessions, mkResponse 500 (ErrorBody (js "Failed to generate playlist"))))
       ∧ ((∀ m, m ∈ greedyMatchPhrases b tokens → is_Some (phraseClips b !! phrase m)) →
          (∃ i tok, tokens !! i = Some tok
                    ∧ (i ∉ covered_set (greedyMatchPhrases b tokens))
                    ∧ inherits_clip b tok = true) →
          handle_generate hashIndex toFixed env b sessionId now sessions
          = Ok (sessions, mkResponse 500 (ErrorBody (js "Failed to generate playlist"))))
       ∧ ((∀ m, m ∈ greedyMatchPhrases b tokens → is_Some (phraseClips b !! phrase m)) →
          (∀ i tok, tokens !! i = Some tok →
                    (i ∉ covered_set (greedyMatchPhrases b tokens)) →
                    inherits_clip b tok = false) →
          ∃ sessions' url stats,
            handle_generate hashIndex toFixed env b sessionId now sessions
            = Ok (sessions', mkResponse 200 (GenerateBody sessionId url stats))
            ∧ is_Some (sessions' !! sessionId)))
  ∧ handle_generate hashIndex toFixed env constructor_builder sessionId now sessions
    = Ok (sessions, mkResponse 500 (ErrorBody (js "Failed to generate playlist"))).
Proof.
  split; [|split].
  - intros Hnone. unfold handle_generate, generatePlaylist. by rewrite Hnone.
  - intros tokens Htok.
    destruct (generatePlaylist_outcome hashIndex toFixed env b sessionId tokens Htok)
      as (Hthrow1 & Hthrow2 & Hok).
    split; [|split].
    + intros Hbad. unfold handle_generate. by rewrite (Hthrow1 Hbad).
    + intros Hown Hinh. unfold handle_generate. by rewrite (Hthrow2 Hown Hinh).
    + intros Hown Hclean. destruct (Hok Hown Hclean) as (script & _ & Hgen).
      unfold handle_generate. rewrite Hgen. cbv zeta. eexists _, _, _.
      split; [reflexivity|]. rewrite lookup_insert_eq. by eexists.
  - unfold handle_generate.
    rewrite (proj1 (generatePlaylist_outcome hashIndex toFixed env constructor_builder
                      sessionId [js "constructor"; js "foo"] eq_refl)); [done|].
    exists (mkMatch (js "constructor") 0 1). split; [|reflexivity].
    change (greedyMatchPhrases constructor_builder [js "constructor"; js "foo"])
      with [mkMatch (js "constructor") 0 1].
    apply elem_of_cons. by left.
Qed.

(** *** The cleanup timer *)

Lemma cleanup_fold_lookup (now : Z) (all sessions : gmap jsstring Session)
    (sessionId : jsstring) :
  map_fold (λ sessionId session remaining,
              if (now - created session >? sessionTTL)%Z
              then delete sessionId remaining else remaining)
           all sessions !! sessionId
  = match sessions !! sessionId with
    | Some session =>
        if (now - created session >? sessionTTL)%Z then None else all !! sessionId
    | None => all !! sessionId
    end.
Proof.
  apply (map_fold_weak_ind
           (λ r m, r !! sessionId
                   = match m !! sessionId with
                     | Some session =>
                         if (now - created session >? sessionTTL)%Z
                         then None else all !! sessionId
                     | None => all !! sessionId
                     end)).
  - by rewrite lookup_empty.
  - intros i x m r Hi Hr. destruct (decide (i = sessionId)) as [->|Hne].
    + rewrite lookup_insert_eq. rewrite Hi in Hr.
      destruct (now - created x >? sessionTTL)%Z; [by rewrite lookup_delete_eq|done].
    + rewrite lookup_insert_ne by done.
      destruct (now - created x >? sessionTTL)%Z; [|done].
      by rewrite lookup_delete_ne.
Qed.

Lemma cleanup_lookup (now : Z) (sessions : gmap jsstring Session) (sessionId : jsstring) :
  cleanup now sessions !! sessionId
  = match sessions !! sessionId with
    | Some session => if (now - created session >? sessionTTL)%Z then None else Some session
    | None => None
    end.
Proof.
  unfold cleanup. rewrite cleanup_fold_lookup. by destruct (sessions !! sessionId).
Qed.

(** X14. The cleanup deletes exactly the sessions created more than
    3600000 ms before [now] and leaves the others as they are: a session is
    kept up to and including the age of one hour. Cleaning twice at the same
    time is cleaning once, and cleaning at a time and then at a later time is
    cleaning at the later time. *)
Theorem cleanup_deletes_expired (now : Z) (sessions : gmap jsstring Session) :
  (∀ sessionId session,
     cleanup now sessions !! sessionId = Some session
     ↔ sessions !! sessionId = Some session ∧ (now - created session ≤ 3600000)%Z)
  ∧ cleanup now (cleanup now sessions) = cleanup now sessions
  ∧ (∀ later, (now ≤ later)%Z →
       cleanup later (cleanup now sessions) = cleanup later sessions).
Proof.
  split; [|split].
  - intros sessionId session. rewrite cleanup_lookup. unfold sessionTTL.
    destruct (sessions !! sessionId) as [s|]; [|by split; [|intros []]].
    destruct (Z.gtb_spec (now - created s) 3600000).
    + split; [done|]. intros [[= ->] ?]. lia.
    + split; [intros [= ->]; by split; [|lia] | by intros [? _]].
  - apply map_eq. intros i. rewrite !cleanup_lookup.
    destruct (sessions !! i) as [s|]; [|done].
    by destruct (now - created s >? sessionTTL)%Z eqn:E; [|rewrite E].
  - intros later Hlater. apply map_eq. intros i. rewrite !cleanup_lookup.
    destruct (sessions !! i) as [s|]; [|done]. unfold sessionTTL.
    destruct (Z.gtb_spec (now - created s) 3600000); [|done].
    destruct (Z.gtb_spec (later - created s) 3600000); [done|lia].
Qed.

(** X15. Fetching a playlist does not prolong its session: the handler of
    [GET /:sessionId.m3u8] changes [lastAccessed] only, the cleanup looks at
    [created] only, so the same sessions survive a cleanup whether or not a
    playlist was fetched before it; an unknown id gets 404 and changes
    nothing. *)
Theorem fetch_does_not_prolong (sessionId : jsstring) (accessed now : Z)
    (sessions : gmap jsstring Session) :
  (∀ other,
     is_Some (cleanup now (handle_playlist sessionId accessed sessions).1 !! other)
     ↔ is_Some (cleanup now sessions !! other))
  ∧ (∀ other session,
       (handle_playlist sessionId accessed sessions).1 !! other = Some session →
       ∃ before, sessions !! other = Some before
                 ∧ created session = created before
                 ∧ session_playlist session = session_playlist before)
  ∧ (sessions !! sessionId = None →
     handle_playlist sessionId accessed sessions
     = (sessions, mkResponse 404 (TextBody None (js "Session not found")))).
Proof.
  assert (∀ other session,
            (handle_playlist sessionId accessed sessions).1 !! other = Some session →
            ∃ before, sessions !! other = Some before
                      ∧ created session = created before
                      ∧ session_playlist session = session_playlist before) as Hsame.
  { intros other session. unfold handle_playlist.
    destruct (sessions !! sessionId) as [s|] eqn:E; cbn [fst].
    - destruct (decide (other = sessionId)) as [->|Hne].
      + rewrite lookup_insert_eq. intros [= <-]. by exists s.
      + rewrite lookup_insert_ne by done. intros H. by exists session.
    - intros H. by exists session. }
  split; [|split; [done|]].
  - intros other. rewrite !cleanup_lookup. unfold handle_playlist.
    destruct (sessions !! sessionId) as [s|] eqn:E; cbn [fst]; [|done].
    destruct (decide (other = sessionId)) as [->|Hne].
    + rewrite lookup_insert_eq, E. cbn [created].
      by destruct (now - created s >? sessionTTL)%Z.
    + by rewrite lookup_insert_ne.
  - intros Hnone. unfold handle_playlist. by rewrite Hnone.
Qed.

(** *** The life of a session *)

Lemma handle_playlist_lookup (fetched : jsstring) (accessed : Z)
    (sessions : gmap jsstring Session) (sessionId : jsstring) :
  (handle_playlist fetched accessed sessions).1 !! sessionId
  = if decide (sessionId = fetched)
    then (λ session, mkSession (created session) (session_playlist session)
                       (session_script session) (session_tokens session)
                       (session_matches session) (Some accessed))
         <$> sessions !! sessionId
    else sessions !! sessionId.
Proof.
  unfold handle_playlist. destruct (decide (sessionId = fetched)) as [->|Hne].
  - destruct (sessions !! fetched) as [session|] eqn:E; cbn [fst].
    + by rewrite lookup_insert_eq.
    + by rewrite E.
  - destruct (sessions !! fetched) as [session|]; cbn [fst]; [|done].
    by rewrite lookup_insert_ne.
Qed.

Section SessionLife.
Variable sessionId : jsstring.
Variable stored : Z.
Variable playlist : jsstring.

Lemma run_event_alive (sessions : gmap jsstring Session) (e : Event) :
  alive sessionId stored playlist sessions →
  (∀ now, e = CleanupRuns now → (now - stored ≤ 3600000)%Z) →
  alive sessionId stored playlist (run_event sessions e).
Proof.
  intros (session & Hs & Hc & Hp) Hearly. unfold alive.
  destruct e as [now|fetched accessed]; cbn [run_event].
  - exists session. rewrite cleanup_lookup, Hs, Hc. unfold sessionTTL.
    specialize (Hearly now eq_refl).
    destruct (Z.gtb_spec (now - stored) 3600000); [lia|done].
  - rewrite handle_playlist_lookup, Hs.
    destruct (decide (sessionId = fetched)); [|by exists session].
    by eexists.
Qed.

Lemma run_events_alive (events : list Event) (sessions : gmap jsstring Session) :
  alive sessionId stored playlist sessions →
  Forall (λ e, ∀ now, e = CleanupRuns now → (now - stored ≤ 3600000)%Z) events →
  alive sessionId stored playlist (run_events events sessions).
Proof.
  intros Halive Hearly. revert sessions Halive.
  induction Hearly as [|e events He _ IH]; intros sessions Halive; [done|].
  apply IH. by apply run_event_alive.
Qed.

Lemma run_event_gone (sessions : gmap jsstring Session) (e : Event) :
  sessions !! sessionId = None → run_event sessions e !! sessionId = None.
Proof.
  intros Hs. destruct e as [now|fetched accessed]; cbn [run_event].
  - by rewrite cleanup_lookup, Hs.
  - rewrite handle_playlist_lookup, Hs. by destruct (decide _).
Qed.

Lemma run_events_gone (events : list Event) (sessions : gmap jsstring Session) :
  sessions !! sessionId = None → run_events events sessions !! sessionId = None.
Proof.
  revert sessions. induction events as [|e events IH]; intros sessions Hs; [done|].
  apply IH. by apply run_event_gone.
Qed.

Lemma run_event_alive_or_gone (sessions : gmap jsstring Session) (e : Event) :
  alive sessionId stored playlist sessions ∨ sessions !! sessionId = None →
  alive sessionId stored playlist (run_event sessions e)
  ∨ run_event sessions e !! sessionId = None.
Proof.
  intros [(session & Hs & Hc & Hp)|Hs]; [|right; by apply run_event_gone].
  destruct e as [now|fetched accessed].
  - cbn [run_event]. unfold alive. rewrite cleanup_lookup, Hs.
    destruct (now - created session >? sessionTTL)%Z eqn:E; [by right|].
    left. by exists session.
  - left. apply run_event_alive; [by exists session|done].
Qed.

Lemma run_events_alive_or_gone (events : list Event) (sessions : gmap jsstring Session) :
  alive sessionId stored playlist sessions ∨ sessions !! sessionId = None →
  alive sessionId stored playlist (run_events events sessions)
  ∨ run_events events sessions !! sessionId = None.
Proof.
  revert sessions. induction events as [|e events IH]; intros sessions Hs; [done|].
  apply IH. by apply run_event_alive_or_gone.
Qed.
End SessionLife.

(** X12. A generated playlist can be fetched until the cleanup removes
    its session: when [generatePlaylist] returns, [POST /generate] answers
    200 with the session id and the URL [/<id>.m3u8], stores the session
    under the id and leaves every other session as it was. After any
    sequence of fetches and of cleanups that run at most 3600000 ms after the
    session was stored, [GET /<id>.m3u8] answers 200 with exactly the
    playlist generated, with the HLS content type. Once a cleanup has run
    later than that, it answers 404, whatever fetches and cleanups came
    before or come after. *)
Theorem generate_then_fetch (hashIndex : jsstring → N) (toFixed : float → nat → jsstring)
    (env : Env) (b : HLSBuilder) (sessionId : jsstring) (now : Z)
    (sessions : gmap jsstring Session) (result : Generated) :
  generatePlaylist hashIndex toFixed env b sessionId = Ok result →
  ∃ sessions' stats,
    handle_generate hashIndex toFixed env b sessionId now sessions
    = Ok (sessions',
          mkResponse 200 (GenerateBody sessionId (js "/" ++ sessionId ++ js ".m3u8") stats))
    ∧ (∀ other, other ≠ sessionId → sessions' !! other = sessions !! other)
    ∧ (∀ events accessed,
         Forall (λ e, ∀ later, e = CleanupRuns later → (later - now ≤ 3600000)%Z) events →
         (handle_playlist sessionId accessed (run_events events sessions')).2
         = mkResponse 200 (TextBody (Some (js "application/vnd.apple.mpegurl"))
                                    (gen_playlist result)))
    ∧ (∀ before later after accessed,
         (later - now > 3600000)%Z →
         handle_playlist sessionId accessed
           (run_events (before ++ CleanupRuns later :: after) sessions')
         = (run_events (before ++ CleanupRuns later :: after) sessions',
            mkResponse 404 (TextBody None (js "Session not found")))).
Proof.
  intros Hgen. unfold handle_generate. rewrite Hgen. cbv zeta.
  eexists _, _. split; [reflexivity|].
  set (session := mkSession now (gen_playlist result) (gen_script result)
                    (gen_tokens result) (gen_matches result) None).
  assert (alive sessionId now (gen_playlist result) (<[sessionId := session]> sessions))
    as Halive by (exists session; by rewrite lookup_insert_eq).
  split; [|split].
  - intros other Hne. by rewrite lookup_insert_ne.
  - intros events accessed Hearly.
    destruct (run_events_alive sessionId now (gen_playlist result) events _ Halive Hearly)
      as (stored & Hs & _ & Hp).
    unfold handle_playlist. rewrite Hs. cbn. by rewrite Hp.
  - intros before later after accessed Hlate.
    assert (run_events (before ++ CleanupRuns later :: after) (<[sessionId := session]> sessions)
              !! sessionId = None) as Hgone.
    { unfold run_events. rewrite foldl_app. cbn [foldl].
      apply run_events_gone. cbn [run_event]. rewrite cleanup_lookup.
      destruct (run_events_alive_or_gone sessionId now (gen_playlist result) before _
                  (or_introl Halive)) as [(stored & Hs & Hc & _)|Hs].
      - unfold run_events in Hs. rewrite Hs, Hc. unfold sessionTTL.
        destruct (Z.gtb_spec (later - now) 3600000); [done|lia].
      - unfold run_events in Hs. by rewrite Hs. }
    unfold handle_playlist. by rewrite Hgone.
Qed.

Lemma generate_then_fetch_witness :
  ∃ sessions' stats,
    handle_generate sum_hash toFixed_decimal demo_env demo_builder (js "abc") 1000 ∅
    = Ok (sessions',
          mkResponse 200 (GenerateBody (js "abc") (js "/" ++ js "abc" ++ js ".m3u8") stats))
    ∧ (∀ other, other ≠ js "abc" → sessions' !! other = (∅ : gmap jsstring Session) !! other)
    ∧ (∀ events accessed,
         Forall (λ e, ∀ later, e = CleanupRuns later → (later - 1000 ≤ 3600000)%Z) events →
         (handle_playlist (js "abc") accessed (run_events events sessions')).2
         = mkResponse 200 (TextBody (Some (js "application/vnd.apple.mpegurl"))
                                    (buildM3U8 toFixed_decimal demo_env demo_script (js "abc"))))
    ∧ (∀ before later after accessed,
         (later - 1000 > 3600000)%Z →
         handle_playlist (js "abc") accessed
           (run_events (before ++ CleanupRuns later :: after) sessions')
         = (run_events (before ++ CleanupRuns later :: after) sessions',
            mkResponse 404 (TextBody None (js "Session not found")))).
Proof.
  apply (generate_then_fetch sum_hash toFixed_decimal demo_env demo_builder (js "abc") 1000 ∅
           (mkGenerated (buildM3U8 toFixed_decimal demo_env demo_script (js "abc"))
              demo_script [js "good"; js "morning"; js "foo"; js "."]
              [mkMatch (js "good morning") 0 2])).
  vm_compute. reflexivity.
Defined.

Lemma length_phrase_static (items : list ScriptItem) :
  length items
  = length (List.filter is_phrase_item items) + length (List.filter is_static_item items).
Proof.
  induction items as [|it items IH]; [done|]. cbn [List.filter length].
  unfold is_phrase_item at 1, is_static_item at 1.
  destruct (item_type it); cbn [length]; lia.
Qed.

(** X16. The statistics [POST /generate] reports are consistent: there are
    as many phrase clips as matched phrases, the clips are the phrase clips
    and the static clips, there are at most as many clips as tokens, and the
    tokens are the fixed tokens of the manifest. *)
Theorem generate_stats_consistent (hashIndex : jsstring → N)
    (toFixed : float → nat → jsstring) (env : Env) (b : HLSBuilder)
    (sessionId : jsstring) (now : Z) (sessions sessions' : gmap jsstring Session)
    (url : jsstring) (stats : Stats) :
  handle_generate hashIndex toFixed env b sessionId now sessions
  = Ok (sessions', mkResponse 200 (GenerateBody sessionId url stats)) →
  stats_phraseClips stats = stats_matchedPhrases stats
  ∧ stats_totalClips stats = stats_phraseClips stats + stats_staticClips stats
  ∧ stats_totalClips stats ≤ stats_totalTokens stats
  ∧ (∀ tokens, fixedTokens b = Some tokens → stats_totalTokens stats = length tokens).
Proof.
  unfold handle_generate.
  destruct (generatePlaylist hashIndex toFixed env b sessionId) as [result| |] eqn:Hgen;
    [|discriminate..].
  cbv zeta. intros [= _ _ <-].
  destruct (generatePlaylist_Ok hashIndex toFixed env b sessionId result Hgen)
    as (tokens & Htok & Hscript & Htokens & Hmatches & _ & Hown).
  destruct (generateScript_phrase_items hashIndex b tokens sessionId Hown)
    as (script' & Hscript' & _ & Hcount & Hle).
  rewrite Hscript in Hscript'. injection Hscript' as <-.
  rewrite clip_items_fmap in Hcount. rewrite length_fmap in Hle.
  cbn. rewrite Htokens, Hmatches.
  split; [done|]. split; [apply length_phrase_static|]. split; [done|].
  intros ? Htok'. congruence.
Qed.

Lemma generate_stats_consistent_witness :
  stats_phraseClips (make_stats [js "good"; js "morning"; js "foo"; js "."]
                       [mkMatch (js "good morning") 0 2] demo_script)
  = stats_matchedPhrases (make_stats [js "good"; js "morning"; js "foo"; js "."]
                            [mkMatch (js "good morning") 0 2] demo_script)
  ∧ stats_totalClips (make_stats [js "good"; js "morning"; js "foo"; js "."]
                        [mkMatch (js "good morning") 0 2] demo_script)
    = stats_phraseClips (make_stats [js "good"; js "morning"; js "foo"; js "."]
                           [mkMatch (js "good morning") 0 2] demo_script)
      + stats_staticClips (make_stats [js "good"; js "morning"; js "foo"; js "."]
                             [mkMatch (js "good morning") 0 2] demo_script)
  ∧ stats_totalClips (make_stats [js "good"; js "morning"; js "foo"; js "."]
                        [mkMatch (js "good morning") 0 2] demo_script)
    ≤ stats_totalTokens (make_stats [js "good"; js "morning"; js "foo"; js "."]
                           [mkMatch (js "good morning") 0 2] demo_script)
  ∧ (∀ tokens, fixedTokens demo_builder = Some tokens →
       stats_totalTokens (make_stats [js "good"; js "morning"; js "foo"; js "."]
                            [mkMatch (js "good morning") 0 2] demo_script)
       = length tokens).
Proof.
  apply (generate_stats_consistent sum_hash toFixed_decimal demo_env demo_builder
           (js "abc") 1000 ∅
           (<[js "abc" := mkSession 1000
                            (buildM3U8 toFixed_decimal demo_env demo_script (js "abc"))
                            demo_script [js "good"; js "morning"; js "foo"; js "."]
                            [mkMatch (js "good morning") 0 2] None]> ∅)
           (js "/" ++ js "abc" ++ js ".m3u8")).
  vm_compute. reflexivity.
Defined.

(** ** What a player reads from the playlist *)

Lemma segments_total toFixed env (script : list ScriptItem) (total : float) :
  (segments toFixed env script total).2
  = foldl (λ t item, (t + item_duration item)%float) total script.
Proof.
  revert total. induction script as [|item rest IH]; intros total; [done|].
  cbn [segments foldl]. specialize (IH (total + item_duration item)%float).
  destruct (segments toFixed env rest _) as [ls t]. by cbn in *.
Qed.

Lemma playlist_lines_total toFixed env script sessionId :
  playlist_lines toFixed env script sessionId
  = header_lines env script sessionId
    ++ opener_lines toFixed env
    ++ concat (segment_lines toFixed env <$> script)
    ++ [ js "#EXT-X-ENDLIST";
         js "# Total duration: "
         ++ toFixed (foldl (λ t item, (t + item_duration item)%float)
                           (0 + openerDuration)%float script) 1
         ++ js "s" ].
Proof.
  unfold playlist_lines.
  pose proof (segments_lines toFixed env script (0 + openerDuration)%float) as Hs.
  pose proof (segments_total toFixed env script (0 + openerDuration)%float) as Ht.
  destruct (segments toFixed env script _) as [ls total]. cbn [fst snd] in Hs, Ht.
  subst ls total. by rewrite <- !app_assoc.
Qed.

Lemma split_lines_buildM3U8 (toFixed : float → nat → jsstring) (env : Env)
    (script : list ScriptItem) (sessionId : jsstring) :
  single_line sessionId →
  single_line (now env) →
  (∀ u, r2BaseUrl env = Some u → single_line u ∧ starts_with (js "#") u = false) →
  Forall (λ item, single_line (item_filename item)) script →
  (∀ x digits, single_line (toFixed x digits)) →
  split_lines (buildM3U8 toFixed env script sessionId)
  = playlist_lines toFixed env script sessionId.
Proof.
  intros Hsid Hnow Hbase Hfiles Hfixed.
  assert (∀ u, r2BaseUrl env = Some u → single_line u) as Hb1 by (intros u Hu; by apply Hbase).
  assert (∀ u, r2BaseUrl env = Some u → starts_with (js "#") u = false) as Hb2
    by (intros u Hu; by apply Hbase).
  unfold buildM3U8. apply split_lines_join.
  - rewrite playlist_lines_total. discriminate.
  - rewrite playlist_lines_total. repeat (apply Forall_app; split).
    + repeat constructor; try (by apply single_line_check).
      * apply single_line_app; [by apply single_line_check|done].
      * apply single_line_app; [by apply single_line_check|done].
      * apply single_line_app; [by apply single_line_check|apply single_line_nat].
    + repeat constructor.
      * by apply single_line_check.
      * by apply extinf_line_single_line.
      * by apply openerPath_single_line.
    + by apply segments_single_line.
    + repeat constructor; [by apply single_line_check|].
      apply single_line_app; [by apply single_line_check|].
      apply single_line_app; [done|by apply single_line_check].
Qed.

Lemma filter_segments toFixed env (script : list ScriptItem) :
  (∀ item, is_uri_line (clipPath env item) = true) →
  List.filter is_uri_line (concat (segment_lines toFixed env <$> script))
  = clipPath env <$> script
  ∧ List.filter is_extinf (concat (segment_lines toFixed env <$> script))
    = (λ d, js "#EXTINF:" ++ toFixed d 3 ++ js ",") <$> (item_duration <$> script).
Proof.
  intros Huri. induction script as [|item rest [IH1 IH2]]; [done|].
  cbn [fmap list_fmap concat segment_lines app List.filter].
  rewrite (uri_not_extinf _ (Huri item)), (Huri item).
  change (is_extinf (js "#EXT-X-DISCONTINUITY")) with false.
  change (is_uri_line (js "#EXT-X-DISCONTINUITY")) with false.
  change (is_extinf (js "#EXTINF:" ++ ?d)) with true.
  change (is_uri_line (js "#EXTINF:" ++ ?d)) with false.
  cbv iota. rewrite IH1, IH2. split; reflexivity.
Qed.

(** X17. What a player reads from the playlist is the script: when the
    session id, the time stamp, the configured base URL, the filenames and
    the strings [toFixed] prints hold no line feed and the base URL does not
    start with [#], the URI lines of the playlist are, in order, the path of
    the opener and then the path of the clip of every item of the script; the
    [#EXTINF] lines are, in order, the duration of the opener (8.08) and the
    durations of the items, printed with three digits; and the last line
    prints the sum of these durations, added from left to right. *)
Theorem playlist_plays_script (toFixed : float → nat → jsstring) (env : Env)
    (script : list ScriptItem) (sessionId : jsstring) :
  single_line sessionId →
  single_line (now env) →
  (∀ u, r2BaseUrl env = Some u → single_line u ∧ starts_with (js "#") u = false) →
  Forall (λ item, single_line (item_filename item)) script →
  (∀ x digits, single_line (toFixed x digits)) →
  let lines := split_lines (buildM3U8 toFixed env script sessionId) in
  List.filter is_uri_line lines = openerPath env :: (clipPath env <$> script)
  ∧ List.filter is_extinf lines
    = (λ d, js "#EXTINF:" ++ toFixed d 3 ++ js ",")
      <$> (openerDuration :: (item_duration <$> script))
  ∧ last lines
    = Some (js "# Total duration: "
            ++ toFixed (foldl (λ t item, (t + item_duration item)%float)
                              (0 + openerDuration)%float script) 1
            ++ js "s").
Proof.
  intros Hsid Hnow Hbase Hfiles Hfixed lines.
  assert (∀ u, r2BaseUrl env = Some u → single_line u) as Hb1 by (intros u Hu; by apply Hbase).
  assert (∀ u, r2BaseUrl env = Some u → starts_with (js "#") u = false) as Hb2
    by (intros u Hu; by apply Hbase).
  subst lines. rewrite split_lines_buildM3U8 by done. rewrite playlist_lines_total.
  pose proof (openerPath_uri env Hb1 Hb2) as Hopener.
  pose proof (clipPath_uri env Hb1 Hb2) as Hclip.
  destruct (filter_segments toFixed env script Hclip) as [Hf1 Hf2].
  assert (List.filter is_extinf (header_lines env script sessionId) = []
          ∧ List.filter is_uri_line (header_lines env script sessionId) = []) as [Hh1 Hh2].
  { split; reflexivity. }
  assert (List.filter is_extinf (opener_lines toFixed env)
          = [js "#EXTINF:" ++ toFixed openerDuration 3 ++ js ","]
          ∧ List.filter is_uri_line (opener_lines toFixed env) = [openerPath env])
    as [Ho1 Ho2].
  { unfold opener_lines. cbn [List.filter].
    rewrite (uri_not_extinf _ Hopener), Hopener. split; reflexivity. }
  split; [|split].
  - rewrite !List.filter_app, Hf1, Hh2, Ho2.
    change (List.filter is_uri_line [_; _]) with (@nil jsstring).
    by rewrite app_nil_r.
  - rewrite !List.filter_app, Hf2, Hh1, Ho1.
    change (List.filter is_extinf [_; _]) with (@nil jsstring).
    by rewrite app_nil_r.
  - rewrite !app_assoc.
    match goal with
    | |- last (?pre ++ [?a; ?b]) = _ =>
        change (pre ++ [a; b]) with (pre ++ [a] ++ [b]); rewrite (app_assoc pre [a] [b])
    end.
    by rewrite last_snoc.
Qed.

Lemma playlist_plays_script_witness :
  let lines := split_lines (buildM3U8 toFixed_decimal r2_env demo_script (js "abc")) in
  List.filter is_uri_line lines = openerPath r2_env :: (clipPath r2_env <$> demo_script)
  ∧ List.filter is_extinf lines
    = (λ d, js "#EXTINF:" ++ toFixed_decimal d 3 ++ js ",")
      <$> (openerDuration :: (item_duration <$> demo_script))
  ∧ last lines
    = Some (js "# Total duration: "
            ++ toFixed_decimal (foldl (λ t item, (t + item_duration item)%float)
                                      (0 + openerDuration)%float demo_script) 1
            ++ js "s").
Proof.
  apply (playlist_plays_script toFixed_decimal r2_env demo_script (js "abc")).
  - by apply single_line_check.
  - by apply single_line_check.
  - intros u [= <-]. split; [by apply single_line_check|reflexivity].
  - repeat constructor; by apply single_line_check.
  - apply single_line_toFixed_decimal.
Defined.

(** X18. The session report agrees with the answer of [POST /generate]:
    after a successful generation, [GET /session/<id>] answers 200 with the
    id, the creation time printed by [toISOString], and the same numbers of
    tokens, matched phrases and clips and the same total duration as the
    statistics of the generation, and it does so also after the playlist was
    fetched; for an id with no session it answers 404. *)
Theorem session_report_matches_stats (hashIndex : jsstring → N)
    (toFixed : float → nat → jsstring) (toISOString : Z → jsstring) (env : Env)
    (b : HLSBuilder) (sessionId : jsstring) (now : Z)
    (sessions sessions' : gmap jsstring Session) (url : jsstring) (stats : Stats) :
  handle_generate hashIndex toFixed env b sessionId now sessions
  = Ok (sessions', mkResponse 200 (GenerateBody sessionId url stats)) →
  (∃ info,
     handle_session toISOString sessionId sessions' = mkResponse 200 (SessionBody info)
     ∧ (∀ accessed,
          handle_session toISOString sessionId
            (handle_playlist sessionId accessed sessions').1
          = mkResponse 200 (SessionBody info))
     ∧ info_sessionId info = sessionId
     ∧ info_created info = toISOString now
     ∧ info_totalTokens info = stats_totalTokens stats
     ∧ info_matchedPhrases info = stats_matchedPhrases stats
     ∧ info_clips info = stats_totalClips stats
     ∧ info_duration info = stats_totalDuration stats)
  ∧ (∀ other, sessions' !! other = None →
       handle_session toISOString other sessions'
       = mkResponse 404 (ErrorBody (js "Session not found"))).
Proof.
  unfold handle_generate.
  destruct (generatePlaylist hashIndex toFixed env b sessionId) as [g| |] eqn:Hgen;
    [|discriminate..].
  cbv zeta. intros [= <- _ <-]. split.
  - unfold handle_session, handle_playlist. rewrite lookup_insert_eq.
    eexists. split; [reflexivity|]. split; [|done].
    intros accessed. cbn [fst]. by rewrite lookup_insert_eq.
  - intros other Hnone. unfold handle_session. by rewrite Hnone.
Qed.

Lemma session_report_matches_stats_witness :
  (∃ info,
     handle_session (λ t, nat_to_js (Z.to_nat t)) (js "abc")
       demo_sessions
     = mkResponse 200 (SessionBody info)
     ∧ (∀ accessed,
          handle_session (λ t, nat_to_js (Z.to_nat t)) (js "abc")
            (handle_playlist (js "abc") accessed
               demo_sessions).1
          = mkResponse 200 (SessionBody info))
     ∧ info_sessionId info = js "abc"
     ∧ info_created info = nat_to_js (Z.to_nat 1000)
     ∧ info_totalTokens info = 4
     ∧ info_matchedPhrases info = 1
     ∧ info_clips info = 3
     ∧ info_duration info = sum_durations demo_script)
  ∧ (∀ other,
       demo_sessions !! other = None →
       handle_session (λ t, nat_to_js (Z.to_nat t)) other
         demo_sessions
       = mkResponse 404 (ErrorBody (js "Session not found"))).
Proof.
  apply (session_report_matches_stats sum_hash toFixed_decimal
           (λ t, nat_to_js (Z.to_nat t)) demo_env demo_builder (js "abc") 1000 ∅
           demo_sessions
           (js "/" ++ js "abc" ++ js ".m3u8")
           (make_stats [js "good"; js "morning"; js "foo"; js "."]
              [mkMatch (js "good morning") 0 2] demo_script)).
  vm_compute. reflexivity.
Defined.
